(** * MapboxRouteMapDemo: the navigation screen

    A shallow embedding of the controller logic of [NavigationApp] in
    [src/screen/MapScreen.tsx]: its [useState] cells, its refs, and every
    function that writes to them, each split at its [await]s; then the
    screen as a transition system over user events, effects, timer ticks
    and settling promises. The earlier variant of the screen
    ([src/unnamed/part_000]) is modelled next to it where the two differ.

    JavaScript's [number] is IEEE-754 binary64, which is Rocq's primitive
    [float]: the arithmetic of the source ([+], [-], [*], [/], [<]) is the
    kernel's own, and the built-ins the source calls on numbers
    ([Math.floor], [%], [Math.round], [toString], [toFixed], [padStart]) are
    written out from ECMA-262 on the exact value of the double.

    Layout: the JavaScript built-ins; a concrete engine for the examples;
    the screen, its render and what its map draws; the earlier variant; the
    vocabulary of the properties and the example worlds; the properties;
    the further properties (invariants of the reachable states, what each
    function leaves alone, what the refs guard). *)

From Stdlib Require Import ZArith QArith Qround Bool List Lia.
From Stdlib Require Import Ascii String.
From Stdlib Require Import Uint63 Floats.
From Stdlib Require Import RelationClasses.
Import ListNotations.

Local Open Scope string_scope.
Local Open Scope Z_scope.

(** ** JavaScript numbers and the built-ins the screen uses *)

Module JS.

Definition number := float.

(** The exact value of a finite non-zero double: sign, mantissa, exponent,
    meaning [(-1)^s * m * 2^e]. *)
Inductive exact : Type :=
| XNaN
| XInf (neg : bool)
| XZero (neg : bool)
| XFin (neg : bool) (m : positive) (e : Z).

Definition decode (x : number) : exact :=
  match Prim2SF x with
  | S754_nan => XNaN
  | S754_infinity s => XInf s
  | S754_zero s => XZero s
  | S754_finite s m e => XFin s m e
  end.

(** A non-negative integer below 2^63 as a double (exact below 2^53). *)
Definition of_Z_pos (z : Z) : number := PrimFloat.of_uint63 (Uint63.of_Z z).

Definition of_int (z : Z) : number :=
  if z <? 0 then (- of_Z_pos (- z))%float else of_Z_pos z.

(** [m * 2^e] for [m < 2^63], when it is representable. *)
Definition scale (neg : bool) (m : Z) (e : Z) : number :=
  let f := Z.ldexp (of_Z_pos m) e in
  if neg then (- f)%float else f.

(** [Number.isFinite]. *)
Definition Number_isFinite (x : number) : bool :=
  match decode x with
  | XZero _ | XFin _ _ _ => true
  | XNaN | XInf _ => false
  end.

(** [Math.floor]. *)
Definition Math_floor (x : number) : number :=
  match decode x with
  | XFin s m e =>
      if 0 <=? e then x
      else
        let d := Z.pow 2 (- e) in
        let q := Z.pos m / d in
        let r := Z.pos m mod d in
        if s then of_int (- (if r =? 0 then q else q + 1))
        else of_int q
  | _ => x
  end.

(** The [%] operator, ECMA-262 Number::remainder: the result has the sign of
    the dividend and is exact. *)
Definition rem (n d : number) : number :=
  match decode n, decode d with
  | XNaN, _ | _, XNaN => PrimFloat.nan
  | XInf _, _ => PrimFloat.nan
  | _, XZero _ => PrimFloat.nan
  | _, XInf _ => n
  | XZero _, _ => n
  | XFin sn mn en, XFin _ md ed =>
      let e := Z.min en ed in
      let N := Z.pos mn * Z.pow 2 (en - e) in
      let D := Z.pos md * Z.pow 2 (ed - e) in
      let R := N mod D in
      if R =? 0 then (if sn then PrimFloat.neg_zero else PrimFloat.zero)
      else scale sn R e
  end.

(** [Math.round]: the nearest integer, a tie going towards +infinity. *)
Definition Math_round (x : number) : number :=
  match decode x with
  | XFin s m e =>
      if 0 <=? e then x
      else
        let f := Math_floor x in
        let r := (if (0.5 <=? x - f)%float then f + 1 else f)%float in
        if PrimFloat.is_zero r && s then PrimFloat.neg_zero else r
  | _ => x
  end.

(** [Math.min] and [Math.max]. *)
Definition Math_min (x y : number) : number :=
  if PrimFloat.is_nan x || PrimFloat.is_nan y then PrimFloat.nan
  else if (x <? y)%float then x
  else if (y <? x)%float then y
  else if PrimFloat.get_sign x then x else y.

Definition Math_max (x y : number) : number :=
  if PrimFloat.is_nan x || PrimFloat.is_nan y then PrimFloat.nan
  else if (y <? x)%float then x
  else if (x <? y)%float then y
  else if PrimFloat.get_sign x then y else x.

(** *** Decimal output *)

Definition digit (d : Z) : ascii := ascii_of_nat (48 + Z.to_nat d).

Fixpoint digits_fuel (fuel : nat) (z : Z) (acc : string) : string :=
  match fuel with
  | O => acc
  | S fuel' =>
      let acc' := String (digit (z mod 10)) acc in
      if z <? 10 then acc' else digits_fuel fuel' (z / 10) acc'
  end.

(** The decimal digits of a non-negative integer. *)
Definition digits (z : Z) : string :=
  digits_fuel (S (Z.to_nat (Z.log2 z))) z EmptyString.

Fixpoint repeat0 (n : nat) : string :=
  match n with
  | O => EmptyString
  | S n' => String "0" (repeat0 n')
  end.

Definition substring_from (n : nat) (s : string) : string :=
  substring n (String.length s - n) s.

(** The exact rational value of a positive finite double. *)
Definition exact_Q (m : positive) (e : Z) : Q :=
  (inject_Z (Z.pos m) * Qpower (2 # 1) e)%Q.

Definition pow10 (p : Z) : Q := Qpower (10 # 1) p.

(** The decimal exponent [n] of ECMA-262 Number::toString:
    [10^(n-1) <= x < 10^n]. *)
Fixpoint decimal_exponent_from (fuel : nat) (x : Q) (p : Z) : Z :=
  match fuel with
  | O => p
  | S fuel' =>
      if Qle_bool (pow10 p) x then decimal_exponent_from fuel' x (p + 1)
      else p
  end.

Definition decimal_exponent (m : positive) (e : Z) : Z :=
  let bits := Z.log2 (Z.pos m) + e in
  decimal_exponent_from 8 (exact_Q m e) (bits * 30103 / 100000 - 1).

(** Whether the decimal value [v] reads back as the double [m * 2^e]: it
    lies within half a unit in the last place, the bounds included when the
    mantissa is even (round to nearest, ties to even). *)
Definition reads_back (m : positive) (e : Z) (v : Q) : bool :=
  let x := exact_Q m e in
  let up := Qpower (2 # 1) (e - 1) in
  let down :=
    if (Z.pos m =? 2 ^ 52) && (-1074 <? e) then Qpower (2 # 1) (e - 2)
    else up in
  if Z.even (Z.pos m)
  then Qle_bool (x - down) v && Qle_bool v (x + up)
  else negb (Qle_bool v (x - down)) && negb (Qle_bool (x + up) v).

Definition Qabs_diff (a b : Q) : Q :=
  if Qle_bool a b then (b - a)%Q else (a - b)%Q.

(** The candidate with [k] digits, if one reads back: the closest to [x],
    the even one on a tie. Returns the digit value [s] and the exponent. *)
Definition shortest_at (m : positive) (e : Z) (n : Z) (k : Z)
  : option (Z * Z) :=
  let x := exact_Q m e in
  let u := pow10 (n - k) in
  let s := Qfloor (x / u) in
  let lo := (inject_Z s * u)%Q in
  let hi := (inject_Z (s + 1) * u)%Q in
  let pick (c : Z) : option (Z * Z) :=
    if c =? 10 ^ k then Some (10 ^ (k - 1), n + 1) else Some (c, n) in
  match reads_back m e lo, reads_back m e hi with
  | false, false => None
  | true, false => pick s
  | false, true => pick (s + 1)
  | true, true =>
      let dl := Qabs_diff lo x in
      let dh := Qabs_diff hi x in
      if Qeq_bool dl dh then (if Z.even s then pick s else pick (s + 1))
      else if Qle_bool dl dh then pick s else pick (s + 1)
  end.

Fixpoint shortest_from (fuel : nat) (m : positive) (e : Z) (n : Z) (k : Z)
  : Z * Z * Z :=
  match fuel with
  | O => (k, 0, n)
  | S fuel' =>
      match shortest_at m e n k with
      | Some (s, n') => (k, s, n')
      | None => shortest_from fuel' m e n (k + 1)
      end
  end.

(** Number::toString for a positive finite double (radix 10). *)
Definition toString_pos (m : positive) (e : Z) : string :=
  let '(k, s, n) := shortest_from 17 m e (decimal_exponent m e) 1 in
  let ds := digits s in
  if (k <=? n) && (n <=? 21) then
    ds ++ repeat0 (Z.to_nat (n - k))
  else if (0 <? n) && (n <=? 21) then
    substring 0 (Z.to_nat n) ds ++ "." ++ substring_from (Z.to_nat n) ds
  else if (-6 <? n) && (n <=? 0) then
    "0." ++ repeat0 (Z.to_nat (- n)) ++ ds
  else
    let ex := n - 1 in
    let sg := if ex <? 0 then "-" else "+" in
    if k =? 1 then ds ++ "e" ++ sg ++ digits (Z.abs ex)
    else substring 0 1 ds ++ "." ++ substring_from 1 ds
         ++ "e" ++ sg ++ digits (Z.abs ex).

(** [Number.prototype.toString()]. *)
Definition toString (x : number) : string :=
  match decode x with
  | XNaN => "NaN"
  | XInf false => "Infinity"
  | XInf true => "-Infinity"
  | XZero _ => "0"
  | XFin false m e => toString_pos m e
  | XFin true m e => "-" ++ toString_pos m e
  end.

(** [Number.prototype.toFixed(f)], for [0 <= f <= 100]. *)
Definition toFixed (f : nat) (x : number) : string :=
  match decode x with
  | XFin s m e =>
      let sg := if s then "-" else "" in
      let q := exact_Q m e in
      if Qle_bool (pow10 21) q then sg ++ toString_pos m e
      else
        let n := Qfloor (q * pow10 (Z.of_nat f) + (1 # 2)) in
        let ds := digits n in
        let k := String.length ds in
        let ds' := if (k <=? f)%nat then repeat0 (f + 1 - k) ++ ds else ds in
        let k' := String.length ds' in
        match f with
        | O => sg ++ ds'
        | _ => sg ++ substring 0 (k' - f) ds' ++ "." ++ substring_from (k' - f) ds'
        end
  | XZero _ =>
      match f with
      | O => "0"
      | _ => "0." ++ repeat0 f
      end
  | _ => toString x
  end.

(** [String.prototype.padStart(n, "0")]. *)
Definition padStart0 (n : nat) (s : string) : string :=
  repeat0 (n - String.length s) ++ s.

End JS.

(** ** A concrete engine for running the model

    Polynomial versions of the three implementation-approximated functions,
    accurate to about 1e-15 on the arguments a distance computation feeds
    them (angles within [-pi, pi], non-negative square roots). They agree
    with every engine at the exact cases ECMA-262 fixes: [sin(0) = 0],
    [cos(0) = 1], [atan2(0, x) = 0] for [x > 0]. *)

Module Engine.
Import JS.
Local Open Scope float_scope.

Fixpoint sin_series (n : nat) (k : number) (x2 : number) : number :=
  match n with
  | O => 1
  | S n' => 1 - x2 / (k * (k + 1)) * sin_series n' (k + 2) x2
  end.

Definition Math_sin (x : number) : number :=
  if PrimFloat.is_zero x then x else x * sin_series 14 2 (x * x).

Definition Math_cos (x : number) : number := sin_series 14 1 (x * x).

Fixpoint atan_series (n : nat) (k : number) (t2 : number) : number :=
  match n with
  | O => 1 / k
  | S n' => 1 / k - t2 * atan_series n' (k + 2) t2
  end.

Definition halve (t : number) : number := t / (1 + PrimFloat.sqrt (1 + t * t)).

(** [atan t] for [0 <= t <= 1]. *)
Definition atan_unit (t : number) : number :=
  let u := halve (halve (halve t)) in
  8 * (u * atan_series 12 1 (u * u)).

Definition pi : number := 0x1.921fb54442d18p+1.

(** [atan] of [y / x] for [y >= 0] and [x > 0]. *)
Definition atan_q1 (y x : number) : number :=
  if y <=? x then atan_unit (y / x) else pi / 2 - atan_unit (x / y).

Definition Math_atan2 (y x : number) : number :=
  if PrimFloat.is_nan y || PrimFloat.is_nan x then PrimFloat.nan
  else if PrimFloat.is_zero y then
    (if PrimFloat.get_sign x then (if PrimFloat.get_sign y then - pi else pi)
     else y)
  else if PrimFloat.is_zero x then (if y <? 0 then - (pi / 2) else pi / 2)
  else
    let a := PrimFloat.abs y in
    let b := PrimFloat.abs x in
    let r := atan_q1 a b in
    let r' := if x <? 0 then pi - r else r in
    if y <? 0 then - r' else r'.

End Engine.

(** ** The screen: data *)

Module MapScreen.
Import JS.

(** [[longitude, latitude]], in degrees. *)
Definition Coord : Type := number * number.

(** A step of [routeData.legs[0].steps], with the fields the screen reads:
    [maneuver.instruction], [maneuver.location.coordinates], [distance]
    (metres) and [duration] (seconds). *)
Record Step : Type := mkStep {
  instruction : string;
  coordinates : Coord;
  distance : number;
  duration : number
}.

Definition Geometry : Type := list Coord.

Record Leg : Type := mkLeg { leg_steps : list Step }.

(** An entry of [data.routes]. A route whose [legs] is absent behaves as one
    whose [legs] is empty: [routeData.legs[0].steps] throws for both. *)
Record RouteData : Type := mkRouteData {
  geometry : Geometry;
  route_distance : number;
  route_duration : number;
  legs : list Leg
}.

(** The body of a directions response; [routes] may be absent. *)
Record DirectionsData : Type := mkDirections {
  routes : option (list RouteData)
}.

Record Feature : Type := mkFeature {
  place_name : string;
  center : Coord
}.

(** The body of a geocoding response; [features] may be absent. *)
Record GeocodingData : Type := mkGeocoding {
  features : option (list Feature)
}.

(** What [await fetch(url)] followed by [await response.json()] gives:
    either of them rejects, or the parsed body. *)
Inductive Http (A : Type) : Type :=
| Rejected (error : string)
| Body (data : A).
Arguments Rejected {A} error.
Arguments Body {A} data.

(** What [GetLocation.getCurrentPosition] settles to. *)
Inductive LocationResult : Type :=
| Position (longitude latitude course : number)
| LocationError (message : option string).

Record LocationData : Type := mkLocationData {
  coords : Coord;
  heading : number
}.

Record Suggestion : Type := mkSuggestion {
  name : string;
  suggestion_coords : Coord
}.

Record RouteInfo : Type := mkRouteInfo {
  info_distance : option string;
  info_duration : option string;
  remainingDistance : option string;
  remainingDuration : option string
}.

(** The [useState] cells of [NavigationApp]. *)
Record State : Type := mkState {
  currentLocation : option Coord;
  destination : option Coord;
  route : option Geometry;
  steps : list Step;
  currentStepIndex : Z;
  routeInfo : RouteInfo;
  query : string;
  suggestions : list Suggestion;
  isNavigating : bool;
  loading : bool;
  isMapInteracting : bool;
  currentHeading : number
}.

(** The [useRef] cells. [cameraRef] is whether [cameraRef.current] is set;
    [locationInterval] holds the handle [setInterval] returned. *)
Record Refs : Type := mkRefs {
  cameraRef : bool;
  locationInterval : option nat;
  isMounted : bool;
  isLocationRequestPending : bool
}.

Inductive CameraCmd : Type :=
| SetCamera (centerCoordinate : Coord) (bearing zoomLevel animationDuration : number)
| FitBounds (ne sw : Coord) (padding animationDuration : number).

(** The closure of the interval callback. [startNavigationTracking] is
    memoised on [isMapInteracting] and [updateNavigation], and
    [updateNavigation] on [steps] and [currentStepIndex] only: the callback
    reads [isMapInteracting], [steps] and [currentStepIndex] of the render
    that created the interval ([cl_render]), while [handleStepChange] and
    [fetchRoute] inside it are those of the render in which [steps] or
    [currentStepIndex] last changed ([cl_nav]). *)
Record Closure : Type := mkClosure {
  cl_render : State;
  cl_nav : State
}.

(** A suspended [await]: the rest of the async function that runs when the
    promise settles, with what it closed over. [KPermission] is [initialize]
    waiting for [PermissionsAndroid.request]. *)
Inductive Continuation : Type :=
| KRoute (cap : State) (start end_ : Coord)
| KSuggest
| KInit
| KTick (cl : Closure)
| KStop
| KPermission.

(** Everything the handlers read and write. [navRender] is the render the
    memoised [updateNavigation] closes over, refreshed at each commit in
    which [setSteps] ran or [currentStepIndex] changed. *)
Record World : Type := mkWorld {
  state : State;
  refs : Refs;
  timers : list (nat * Closure);
  nextTimer : nat;
  inflight : list Continuation;
  camera : list CameraCmd;
  console : list string;
  navRender : State;
  navDirty : bool
}.

(** *** Field updates *)

Definition with_state (f : State -> State) (w : World) : World :=
  mkWorld (f (state w)) (refs w) (timers w) (nextTimer w) (inflight w)
          (camera w) (console w) (navRender w) (navDirty w).

Definition with_refs (f : Refs -> Refs) (w : World) : World :=
  mkWorld (state w) (f (refs w)) (timers w) (nextTimer w) (inflight w)
          (camera w) (console w) (navRender w) (navDirty w).

Definition with_timers (ts : list (nat * Closure)) (n : nat) (w : World) : World :=
  mkWorld (state w) (refs w) ts n (inflight w)
          (camera w) (console w) (navRender w) (navDirty w).

Definition with_inflight (ks : list Continuation) (w : World) : World :=
  mkWorld (state w) (refs w) (timers w) (nextTimer w) ks
          (camera w) (console w) (navRender w) (navDirty w).

Definition with_camera (cs : list CameraCmd) (w : World) : World :=
  mkWorld (state w) (refs w) (timers w) (nextTimer w) (inflight w)
          cs (console w) (navRender w) (navDirty w).

Definition with_console (ls : list string) (w : World) : World :=
  mkWorld (state w) (refs w) (timers w) (nextTimer w) (inflight w)
          (camera w) ls (navRender w) (navDirty w).

Definition with_nav (s : State) (d : bool) (w : World) : World :=
  mkWorld (state w) (refs w) (timers w) (nextTimer w) (inflight w)
          (camera w) (console w) s d.

Definition set_currentLocation (v : option Coord) (s : State) : State :=
  mkState v (destination s) (route s) (steps s) (currentStepIndex s)
          (routeInfo s) (query s) (suggestions s) (isNavigating s)
          (loading s) (isMapInteracting s) (currentHeading s).

Definition set_destination (v : option Coord) (s : State) : State :=
  mkState (currentLocation s) v (route s) (steps s) (currentStepIndex s)
          (routeInfo s) (query s) (suggestions s) (isNavigating s)
          (loading s) (isMapInteracting s) (currentHeading s).

Definition set_route (v : option Geometry) (s : State) : State :=
  mkState (currentLocation s) (destination s) v (steps s) (currentStepIndex s)
          (routeInfo s) (query s) (suggestions s) (isNavigating s)
          (loading s) (isMapInteracting s) (currentHeading s).

Definition set_steps (v : list Step) (s : State) : State :=
  mkState (currentLocation s) (destination s) (route s) v (currentStepIndex s)
          (routeInfo s) (query s) (suggestions s) (isNavigating s)
          (loading s) (isMapInteracting s) (currentHeading s).

Definition set_currentStepIndex (v : Z) (s : State) : State :=
  mkState (currentLocation s) (destination s) (route s) (steps s) v
          (routeInfo s) (query s) (suggestions s) (isNavigating s)
          (loading s) (isMapInteracting s) (currentHeading s).

Definition set_routeInfo (v : RouteInfo) (s : State) : State :=
  mkState (currentLocation s) (destination s) (route s) (steps s)
          (currentStepIndex s) v (query s) (suggestions s) (isNavigating s)
          (loading s) (isMapInteracting s) (currentHeading s).

Definition set_query (v : string) (s : State) : State :=
  mkState (currentLocation s) (destination s) (route s) (steps s)
          (currentStepIndex s) (routeInfo s) v (suggestions s) (isNavigating s)
          (loading s) (isMapInteracting s) (currentHeading s).

Definition set_suggestions (v : list Suggestion) (s : State) : State :=
  mkState (currentLocation s) (destination s) (route s) (steps s)
          (currentStepIndex s) (routeInfo s) (query s) v (isNavigating s)
          (loading s) (isMapInteracting s) (currentHeading s).

Definition set_isNavigating (v : bool) (s : State) : State :=
  mkState (currentLocation s) (destination s) (route s) (steps s)
          (currentStepIndex s) (routeInfo s) (query s) (suggestions s) v
          (loading s) (isMapInteracting s) (currentHeading s).

Definition set_loading (v : bool) (s : State) : State :=
  mkState (currentLocation s) (destination s) (route s) (steps s)
          (currentStepIndex s) (routeInfo s) (query s) (suggestions s)
          (isNavigating s) v (isMapInteracting s) (currentHeading s).

Definition set_isMapInteracting (v : bool) (s : State) : State :=
  mkState (currentLocation s) (destination s) (route s) (steps s)
          (currentStepIndex s) (routeInfo s) (query s) (suggestions s)
          (isNavigating s) (loading s) v (currentHeading s).

Definition set_currentHeading (v : number) (s : State) : State :=
  mkState (currentLocation s) (destination s) (route s) (steps s)
          (currentStepIndex s) (routeInfo s) (query s) (suggestions s)
          (isNavigating s) (loading s) (isMapInteracting s) v.

Definition set_cameraRef (v : bool) (r : Refs) : Refs :=
  mkRefs v (locationInterval r) (isMounted r) (isLocationRequestPending r).

Definition set_locationInterval (v : option nat) (r : Refs) : Refs :=
  mkRefs (cameraRef r) v (isMounted r) (isLocationRequestPending r).

Definition set_isMounted (v : bool) (r : Refs) : Refs :=
  mkRefs (cameraRef r) (locationInterval r) v (isLocationRequestPending r).

Definition set_isLocationRequestPending (v : bool) (r : Refs) : Refs :=
  mkRefs (cameraRef r) (locationInterval r) (isMounted r) v.

(** ** Handlers as state transformers that may throw *)

Inductive Outcome (A : Type) : Type :=
| Done (a : A)
| Thrown (error : string).
Arguments Done {A} a.
Arguments Thrown {A} error.

(** A piece of handler code: it runs on the world and either completes or
    throws; what it wrote before throwing stays written, as the queued
    [setState] calls of a handler that throws are still applied. *)
Definition M (A : Type) : Type := World -> Outcome A * World.

Definition ret {A : Type} (a : A) : M A := fun w => (Done a, w).

Definition bind {A B : Type} (m : M A) (k : A -> M B) : M B :=
  fun w =>
    match m w with
    | (Done a, w') => k a w'
    | (Thrown e, w') => (Thrown e, w')
    end.

Definition throw {A : Type} (e : string) : M A := fun w => (Thrown e, w).

Definition try_catch (m : M unit) (handler : string -> M unit) : M unit :=
  fun w =>
    match m w with
    | (Done a, w') => (Done a, w')
    | (Thrown e, w') => handler e w'
    end.

Definition try_finally {A : Type} (m : M A) (final : M unit) : M A :=
  fun w =>
    match m w with
    | (Done a, w') =>
        match final w' with
        | (Done _, w'') => (Done a, w'')
        | (Thrown e, w'') => (Thrown e, w'')
        end
    | (Thrown e, w') =>
        match final w' with
        | (Done _, w'') => (Thrown e, w'')
        | (Thrown e', w'') => (Thrown e', w'')
        end
    end.

Definition gets {A : Type} (f : World -> A) : M A := fun w => (Done (f w), w).

Definition modify (f : World -> World) : M unit := fun w => (Done tt, f w).

(** The world a handler leaves, thrown or not. *)
Definition exec {A : Type} (m : M A) (w : World) : World := snd (m w).

Declare Scope handler_scope.
Delimit Scope handler_scope with handler.
Notation "x <- m ;; k" := (bind m (fun x => k))
  (at level 61, m at next level, right associativity) : handler_scope.
Notation "m ;; k" := (bind m (fun _ => k))
  (at level 61, right associativity) : handler_scope.
Local Open Scope handler_scope.

(** *** The setters of [useState], and the refs *)

Definition setCurrentLocation (v : option Coord) : M unit :=
  modify (with_state (set_currentLocation v)).
Definition setDestination (v : option Coord) : M unit :=
  modify (with_state (set_destination v)).
Definition setRoute (v : option Geometry) : M unit :=
  modify (with_state (set_route v)).
(** A step list handed to [setSteps] is a fresh array: the memoised
    [updateNavigation] is rebuilt at the next commit. *)
Definition setSteps (v : list Step) : M unit :=
  modify (fun w => with_nav (navRender w) true (with_state (set_steps v) w)).
Definition setCurrentStepIndex (v : Z) : M unit :=
  modify (fun w =>
    with_nav (navRender w)
             (navDirty w || negb (v =? currentStepIndex (state w)))
             (with_state (set_currentStepIndex v) w)).
Definition setRouteInfo (v : RouteInfo) : M unit :=
  modify (with_state (set_routeInfo v)).
(** [setRouteInfo(prev => ...)]. *)
Definition updateRouteInfo (f : RouteInfo -> RouteInfo) : M unit :=
  modify (with_state (fun s => set_routeInfo (f (routeInfo s)) s)).
Definition setQuery (v : string) : M unit :=
  modify (with_state (set_query v)).
Definition setSuggestions (v : list Suggestion) : M unit :=
  modify (with_state (set_suggestions v)).
Definition setIsNavigating (v : bool) : M unit :=
  modify (with_state (set_isNavigating v)).
Definition setLoading (v : bool) : M unit :=
  modify (with_state (set_loading v)).
Definition setIsMapInteracting (v : bool) : M unit :=
  modify (with_state (set_isMapInteracting v)).
Definition setCurrentHeading (v : number) : M unit :=
  modify (with_state (set_currentHeading v)).

Definition cameraRef_current : M bool := gets (fun w => cameraRef (refs w)).
Definition isMounted_current : M bool := gets (fun w => isMounted (refs w)).

(** [cameraRef.current.setCamera(...)] and [fitBounds(...)]. *)
Definition camera_do (c : CameraCmd) : M unit :=
  modify (fun w => with_camera (c :: camera w) w).

Definition console_error (msg : string) : M unit :=
  modify (fun w => with_console (msg :: console w) w).
Definition console_log (msg : string) : M unit :=
  modify (fun w => with_console (msg :: console w) w).

(** [await]: the rest of the function is parked until the promise settles. *)
Definition await (k : Continuation) : M unit :=
  modify (fun w => with_inflight (inflight w ++ [k]) w).

(** [setInterval(callback, 500)]: handles are positive, so a handle is truthy. *)
Definition setInterval (cl : Closure) : M nat :=
  fun w => (Done (nextTimer w),
            with_timers ((nextTimer w, cl) :: timers w) (S (nextTimer w)) w).

Definition clearInterval (id : nat) : M unit :=
  modify (fun w =>
    with_timers (filter (fun t => negb (Nat.eqb (fst t) id)) (timers w))
                (nextTimer w) w).

(** ** The functions of [NavigationApp] *)

Local Open Scope float_scope.
Set Warnings "-inexact-float".

(** [String.prototype.includes]. *)
Fixpoint includes (needle hay : string) : bool :=
  if prefix needle hay then true
  else match hay with
       | EmptyString => false
       | String _ rest => includes needle rest
       end.

(** [formatDuration]: "format minutes to hh:mm". *)
Definition formatDuration (minutes : number) : string :=
  let hours := Math_floor (minutes / 60) in
  let mins := Math_round (rem minutes 60) in
  (padStart0 2 (toString hours) ++ ":" ++ padStart0 2 (toString mins))%string.

(** [Math.PI]. *)
Definition Math_PI : number := 0x1.921fb54442d18p+1.

Definition noRouteInfo : RouteInfo := mkRouteInfo None None None None.

Definition initialState : State :=
  mkState None None None [] 0%Z noRouteInfo EmptyString [] false true false 0.

Definition initialWorld : World :=
  mkWorld initialState (mkRefs false None true false) [] 1 [] [] []
          initialState false.

Section Controller.

(** [Math.sin], [Math.cos] and [Math.atan2] are implementation-approximated
    (ECMA-262 21.3.2): the engine's functions are parameters of the model. *)
Variables Math_sin Math_cos : number -> number.
Variable Math_atan2 : number -> number -> number.

(** [calculateDistance]: haversine, in kilometres. *)
Definition calculateDistance (coord1 coord2 : Coord) : number :=
  let '(lon1, lat1) := coord1 in
  let '(lon2, lat2) := coord2 in
  let R := 6371 in
  let dLat := (lat2 - lat1) * (Math_PI / 180) in
  let dLon := (lon2 - lon1) * (Math_PI / 180) in
  let a :=
    Math_sin (dLat / 2) * Math_sin (dLat / 2) +
    Math_cos (lat1 * (Math_PI / 180)) *
      Math_cos (lat2 * (Math_PI / 180)) *
      Math_sin (dLon / 2) *
      Math_sin (dLon / 2) in
  R * Math_atan2 (PrimFloat.sqrt a) (PrimFloat.sqrt (1 - a)) * 2.

(** [fetchRoute], up to [await fetch(url)]. *)
Definition fetchRoute (cap : State) (start end_ : option Coord) : M unit :=
  match start, end_ with
  | Some s, Some e =>
      mounted <- isMounted_current ;;
      if negb mounted then ret tt else await (KRoute cap s e)
  | _, _ => ret tt
  end.

(** [fetchRoute], from the settled response on. *)
Definition fetchRoute_resume (cap : State) (start end_ : Coord)
    (r : Http DirectionsData) : M unit :=
  try_catch
    (match r with
     | Rejected e => throw e
     | Body data =>
         mounted <- isMounted_current ;;
         match routes data with
         | Some (routeData :: _) =>
             if mounted then
               let totalMinutes := route_duration routeData / 60 in
               setRoute (Some (geometry routeData)) ;;
               setRouteInfo
                 (mkRouteInfo
                    (Some (toFixed 1 (route_distance routeData / 1000)))
                    (Some (formatDuration totalMinutes))
                    (Some (toFixed 1 (route_distance routeData / 1000)))
                    (Some (formatDuration totalMinutes))) ;;
               match legs routeData with
               | leg :: _ => setSteps (leg_steps leg)
               | [] => throw "TypeError: Cannot read property 'steps' of undefined"
               end ;;
               cam <- cameraRef_current ;;
               if negb (isNavigating cap) && cam then
                 camera_do
                   (FitBounds
                      (Math_min (fst start) (fst end_),
                       Math_min (snd start) (snd end_))
                      (Math_max (fst start) (fst end_),
                       Math_max (snd start) (snd end_))
                      120 1000)
               else ret tt
             else ret tt
         | _ => ret tt
         end
     end)
    (fun error => console_error ("Route fetch error: " ++ error)).

(** [fetchSuggestions], up to [await fetch(url)]. *)
Definition fetchSuggestions (input : string) : M unit :=
  mounted <- isMounted_current ;;
  if String.eqb input EmptyString || negb mounted then setSuggestions []
  else await KSuggest.

Definition fetchSuggestions_resume (r : Http GeocodingData) : M unit :=
  try_catch
    (match r with
     | Rejected e => throw e
     | Body data =>
         mounted <- isMounted_current ;;
         match features data with
         | Some fs =>
             if mounted then
               setSuggestions
                 (map (fun feature =>
                         mkSuggestion (place_name feature) (center feature))
                      fs)
             else ret tt
         | None => ret tt
         end
     end)
    (fun error => console_error ("Suggestions error: " ++ error)).

(** [getCurrentPositionSafe], up to its [await]: [false] when a request is
    already pending and the function returned [null] at once. *)
Definition getCurrentPositionSafe_begin : M bool :=
  pending <- gets (fun w => isLocationRequestPending (refs w)) ;;
  if pending then ret false
  else
    modify (with_refs (set_isLocationRequestPending true)) ;;
    ret true.

(** [getCurrentPositionSafe], from the settled position on. *)
Definition getCurrentPositionSafe_end (r : LocationResult)
  : M (option LocationData) :=
  try_finally
    (match r with
     | Position longitude latitude course =>
         ret (Some (mkLocationData (longitude, latitude)
                                   (if 0 <=? course then course else 0)))
     | LocationError message =>
         (match message with
          | Some m =>
              if includes "cancelled" m
              then console_log "Location request cancelled by another request"
              else console_error ("Location error: " ++ m)
          | None => console_error "Location error:"
          end) ;;
         ret None
     end)
    (modify (with_refs (set_isLocationRequestPending false))).

(** [stopNavigation], up to its [await]. *)
Definition stopNavigation : M unit :=
  mounted <- isMounted_current ;;
  if negb mounted then ret tt
  else
    setIsNavigating false ;;
    setCurrentStepIndex 0%Z ;;
    setRoute None ;;
    setSteps [] ;;
    setRouteInfo noRouteInfo ;;
    li <- gets (fun w => locationInterval (refs w)) ;;
    match li with
    | Some id =>
        clearInterval id ;;
        modify (with_refs (set_locationInterval None))
    | None => ret tt
    end ;;
    issued <- getCurrentPositionSafe_begin ;;
    if issued then await KStop else ret tt.

Definition stopNavigation_resume (r : LocationResult) : M unit :=
  locationData <- getCurrentPositionSafe_end r ;;
  mounted <- isMounted_current ;;
  cam <- cameraRef_current ;;
  match locationData with
  | Some d =>
      if mounted && cam then
        setCurrentLocation (Some (coords d)) ;;
        setCurrentHeading (heading d) ;;
        camera_do (SetCamera (coords d) (heading d) 16 1000)
      else ret tt
  | None => ret tt
  end.

(** [handleStepChange], as closed over by [updateNavigation]. *)
Definition handleStepChange (nav : State) (newIndex : Z) : M unit :=
  cam <- cameraRef_current ;;
  if (newIndex <? 0)%Z
     || (Z.of_nat (List.length (steps nav)) <=? newIndex)%Z
     || match currentLocation nav with Some _ => false | None => true end
     || negb cam
  then ret tt
  else
    setCurrentStepIndex newIndex ;;
    match nth_error (steps nav) (Z.to_nat newIndex) with
    | Some step =>
        let stepCoords := coordinates step in
        camera_do (SetCamera stepCoords (currentHeading nav) 18 1000) ;;
        fetchRoute nav (currentLocation nav) (Some stepCoords)
    | None => throw "TypeError: Cannot read property 'maneuver' of undefined"
    end.

(** The [for] loop of [updateNavigation],
    [for (let i = currentStepIndex; i < steps.length; i++) {
       remainingDistance += steps[i].distance;
       remainingDuration += steps[i].duration; }],
    with [fuel] bounding the number of iterations. *)
Fixpoint remaining_loop (sts : list Step) (fuel : nat) (i : Z)
    (remainingDistance_ remainingDuration_ : number)
  : Outcome (number * number) :=
  match fuel with
  | O => Done (remainingDistance_, remainingDuration_)
  | S fuel' =>
      if (i <? Z.of_nat (List.length sts))%Z then
        match (if (i <? 0)%Z then None else nth_error sts (Z.to_nat i)) with
        | Some st =>
            remaining_loop sts fuel' (i + 1)%Z
                           (remainingDistance_ + distance st)
                           (remainingDuration_ + duration st)
        | None => Thrown "TypeError: Cannot read property 'distance' of undefined"
        end
      else Done (remainingDistance_, remainingDuration_)
  end.

(** [updateNavigation]. *)
Definition updateNavigation (cl : Closure) (location : Coord) : M unit :=
  let sts := steps (cl_render cl) in
  let idx := currentStepIndex (cl_render cl) in
  cam <- cameraRef_current ;;
  mounted <- isMounted_current ;;
  if Nat.eqb (List.length sts) 0 || negb cam || negb mounted then ret tt
  else
    match (if (idx <? 0)%Z then None else nth_error sts (Z.to_nat idx)) with
    | None => throw "TypeError: Cannot read property 'maneuver' of undefined"
    | Some currentStep =>
        let distanceToStep :=
          calculateDistance location (coordinates currentStep) in
        match remaining_loop sts (S (List.length sts)) idx 0 0 with
        | Done (remainingDistance_, remainingDuration_) =>
            updateRouteInfo
              (fun prev =>
                 mkRouteInfo
                   (info_distance prev) (info_duration prev)
                   (Some (toFixed 1 (remainingDistance_ / 1000)))
                   (Some (formatDuration (remainingDuration_ / 60)))) ;;
            if (distanceToStep <? 0.03)
               && (idx <? Z.of_nat (List.length sts) - 1)%Z
            then handleStepChange (cl_nav cl) (idx + 1)%Z
            else if distanceToStep <? 0.03 then stopNavigation
            else ret tt
        | Thrown e => throw e
        end
    end.

(** The interval callback of [startNavigationTracking], up to its [await]. *)
Definition tick (cl : Closure) : M unit :=
  mounted <- isMounted_current ;;
  if isMapInteracting (cl_render cl) || negb mounted then ret tt
  else
    issued <- getCurrentPositionSafe_begin ;;
    if issued then await (KTick cl) else ret tt.

Definition tick_resume (cl : Closure) (r : LocationResult) : M unit :=
  locationData <- getCurrentPositionSafe_end r ;;
  match locationData with
  | None => ret tt
  | Some d =>
      mounted <- isMounted_current ;;
      if mounted then
        setCurrentLocation (Some (coords d)) ;;
        setCurrentHeading (heading d) ;;
        updateNavigation cl (coords d) ;;
        cam <- cameraRef_current ;;
        if cam then camera_do (SetCamera (coords d) (heading d) 18 500)
        else ret tt
      else ret tt
  end.

(** [startNavigationTracking]. *)
Definition startNavigationTracking (cl : Closure) : M unit :=
  li <- gets (fun w => locationInterval (refs w)) ;;
  match li with
  | Some id => clearInterval id
  | None => ret tt
  end ;;
  id <- setInterval cl ;;
  modify (with_refs (set_locationInterval (Some id))).

(** [startNavigation]. *)
Definition startNavigation (cap : State) : M unit :=
  cam <- cameraRef_current ;;
  match currentLocation cap, destination cap with
  | Some here, Some _ =>
      if cam then
        setIsNavigating true ;;
        setCurrentStepIndex 0%Z ;;
        camera_do (SetCamera here (currentHeading cap) 18 1000)
      else ret tt
  | _, _ => ret tt
  end.

(** [getCurrentLocation], up to its [await], and from the position on. *)
Definition getCurrentLocation : M unit :=
  issued <- getCurrentPositionSafe_begin ;;
  if issued then await KInit else ret tt.

Definition getCurrentLocation_resume (r : LocationResult) : M unit :=
  locationData <- getCurrentPositionSafe_end r ;;
  mounted <- isMounted_current ;;
  match locationData with
  | Some d =>
      if mounted then
        setCurrentLocation (Some (coords d)) ;;
        setCurrentHeading (heading d) ;;
        setLoading false
      else ret tt
  | None => ret tt
  end.

(** ** The screen as a transition system *)

Inductive Permission : Type := Granted | Denied | PermissionFailed.

Inductive Reply : Type :=
| RouteReply (r : Http DirectionsData)
| SuggestReply (r : Http GeocodingData)
| LocationReply (r : LocationResult).

(** What can happen to the mounted screen. [Mount p] is the mount effect
    whose [initialize] has the outcome [p] of the permission with no other
    event in between: [Granted] is every platform but Android, where
    [getCurrentLocation] is called at once, and on Android a request that
    is settled before anything else happens; [PermissionFailed] and [Denied]
    are a request that fails, and one that is refused, before anything else
    happens. [MountAndroid] is the mount effect on Android in general: it
    awaits [PermissionsAndroid.request], and [PermissionSettles i p] is the
    outcome of that request, the [i]-th pending promise, which may come
    after anything else, the teardown included; what follows it,
    [getCurrentLocation] or the [catch] with its [setLoading(false)], tests
    [isMounted.current] nowhere before the position is asked for. [EffectFetchRoute] and
    [EffectTracking] are the second and third [useEffect]; the model lets
    them run whenever their condition holds, which includes every time React
    runs them. [Settle i r] settles the [i]-th pending promise, a position,
    route or suggestion request, with [r]. *)
Inductive Event : Type :=
| Mount (p : Permission)
| Unmount
| CameraRef (present : bool)
| ChangeText (text : string)
| PressSuggestion (i : nat)
| TouchStart
| TouchEnd
| PressStart
| PressStop
| EffectFetchRoute
| EffectTracking
| Tick (id : nat)
| Settle (i : nat) (r : Reply)
| MountAndroid
| PermissionSettles (i : nat) (p : Permission).

Definition remove_nth {A : Type} (i : nat) (l : list A) : list A :=
  firstn i l ++ skipn (S i) l.

Fixpoint find_timer (id : nat) (ts : list (nat * Closure)) : option Closure :=
  match ts with
  | [] => None
  | (id', cl) :: rest => if Nat.eqb id' id then Some cl else find_timer id rest
  end.

Definition is_some {A : Type} (o : option A) : bool :=
  match o with Some _ => true | None => false end.

(** The rest of an async function, run on a reply of the kind it awaits. *)
Definition resume_with (k : Continuation) (r : Reply) : option (M unit) :=
  match k, r with
  | KRoute cap start end_, RouteReply r' =>
      Some (fetchRoute_resume cap start end_ r')
  | KSuggest, SuggestReply r' => Some (fetchSuggestions_resume r')
  | KInit, LocationReply r' => Some (getCurrentLocation_resume r')
  | KTick cl, LocationReply r' => Some (tick_resume cl r')
  | KStop, LocationReply r' => Some (stopNavigation_resume r')
  | _, _ => None
  end.

(** The code an event runs, or [None] when the event cannot happen in [w]. *)
Definition handler (ev : Event) (w : World) : option (M unit) :=
  let st := state w in
  match ev with
  | Mount p =>
      Some (modify (with_refs (set_isMounted true)) ;;
            match p with
            | Granted => getCurrentLocation
            | Denied => ret tt
            | PermissionFailed =>
                console_error "Initialization error:" ;; setLoading false
            end)
  | Unmount =>
      Some (modify (with_refs (set_isMounted false)) ;;
            li <- gets (fun w => locationInterval (refs w)) ;;
            match li with
            | Some id => clearInterval id
            | None => ret tt
            end)
  | CameraRef present => Some (modify (with_refs (set_cameraRef present)))
  | ChangeText text =>
      if negb (loading st) && negb (isNavigating st)
      then Some (setQuery text ;; fetchSuggestions text)
      else None
  | PressSuggestion i =>
      match nth_error (suggestions st) i with
      | Some item =>
          if negb (loading st)
          then Some (mounted <- isMounted_current ;;
                     if mounted then
                       setQuery (name item) ;;
                       setDestination (Some (suggestion_coords item)) ;;
                       setSuggestions []
                     else ret tt)
          else None
      | None => None
      end
  | TouchStart =>
      if negb (loading st) then Some (setIsMapInteracting true) else None
  | TouchEnd =>
      if negb (loading st) then Some (setIsMapInteracting false) else None
  | PressStart =>
      if negb (loading st) && negb (isNavigating st) && is_some (destination st)
      then Some (startNavigation st)
      else None
  | PressStop =>
      if negb (loading st) && isNavigating st
      then Some stopNavigation
      else None
  | EffectFetchRoute =>
      if is_some (currentLocation st) && is_some (destination st)
      then Some (fetchRoute st (currentLocation st) (destination st))
      else None
  | EffectTracking =>
      if isNavigating st && is_some (currentLocation st)
         && is_some (destination st)
      then Some (startNavigationTracking (mkClosure st (navRender w)))
      else None
  | Tick id =>
      match find_timer id (timers w) with
      | Some cl => Some (tick cl)
      | None => None
      end
  | Settle i r =>
      match nth_error (inflight w) i with
      | Some k =>
          match resume_with k r with
          | Some m =>
              Some (modify (fun w => with_inflight (remove_nth i (inflight w)) w) ;;
                    m)
          | None => None
          end
      | None => None
      end
  | MountAndroid =>
      Some (modify (with_refs (set_isMounted true)) ;;
            await KPermission)
  | PermissionSettles i p =>
      match nth_error (inflight w) i with
      | Some KPermission =>
          Some (modify (fun w => with_inflight (remove_nth i (inflight w)) w) ;;
                match p with
                | Granted => getCurrentLocation
                | Denied => ret tt
                | PermissionFailed =>
                    console_error "Initialization error:" ;; setLoading false
                end)
      | _ => None
      end
  end.

(** The commit that follows a handler: [updateNavigation] is rebuilt when
    its dependencies changed. The render itself is [rendered], below. *)
Definition commit (w : World) : World :=
  if navDirty w then with_nav (state w) false w else w.

(** The render, as far as it can throw. Behind [loading], the navigation
    panel is drawn when [isNavigating && steps.length > 0], and it reads
    [steps[currentStepIndex].maneuver.instruction] unguarded: the render
    gives the instruction on display, if any, or throws. *)
Definition render (st : State) : Outcome (option string) :=
  if loading st then Done None
  else if isNavigating st && negb (Nat.eqb (List.length (steps st)) 0) then
    match (if (currentStepIndex st <? 0)%Z then None
           else nth_error (steps st) (Z.to_nat (currentStepIndex st))) with
    | Some step => Done (Some (instruction step))
    | None => Thrown "TypeError: Cannot read property 'maneuver' of undefined"
    end
  else Done None.

Definition render_throws (st : State) : bool :=
  match render st with
  | Done _ => false
  | Thrown _ => true
  end.

(** The cleanup of the mount effect. *)
Definition cleanup : M unit :=
  modify (with_refs (set_isMounted false)) ;;
  li <- gets (fun w => locationInterval (refs w)) ;;
  match li with
  | Some id => clearInterval id
  | None => ret tt
  end.

(** No error boundary stands above the screen: when its render throws, React
    removes the screen, which runs the cleanup of its effects. What a render
    gives depends on the state alone, so the render that throws is the first
    one after the state has become one on which it throws: [rendered before
    after] is the world after the render that follows a handler run from
    [before] to [after]. *)
Definition rendered (before after : World) : World :=
  if negb (render_throws (state before)) && render_throws (state after)
  then exec cleanup after
  else after.

Definition step (ev : Event) (w : World) : option World :=
  match handler ev w with
  | Some m => Some (rendered w (commit (exec m w)))
  | None => None
  end.

(** Running a list of events; [None] when one of them cannot happen. *)
Fixpoint run (evs : list Event) (w : World) : option World :=
  match evs with
  | [] => Some w
  | ev :: rest =>
      match step ev w with
      | Some w' => run rest w'
      | None => None
      end
  end.

Inductive reachable : World -> Prop :=
| reachable_init : reachable initialWorld
| reachable_step : forall w ev w',
    reachable w -> step ev w = Some w' -> reachable w'.

End Controller.

(** ** What the map draws *)

(** The step markers of the map,
    [steps.map((step, index) =>
       index !== 0 && index <= currentStepIndex && <PointAnnotation .../>)]:
    one entry per step, [None] where the expression is [false] and nothing
    is drawn. A marker has the id [step-<index>], sits at the maneuver of
    its step and shows the index. *)
Record Marker : Type := mkMarker {
  marker_id : string;
  marker_coordinate : Coord;
  marker_text : nat
}.

Fixpoint stepMarkers_from (index : nat) (sts : list Step) (currentStepIndex_ : Z)
  : list (option Marker) :=
  match sts with
  | [] => []
  | step :: rest =>
      (if negb (Nat.eqb index 0) && (Z.of_nat index <=? currentStepIndex_)%Z
       then Some (mkMarker ("step-" ++ digits (Z.of_nat index))%string
                           (coordinates step) index)
       else None)
      :: stepMarkers_from (S index) rest currentStepIndex_
  end.

Definition stepMarkers (st : State) : list (option Marker) :=
  stepMarkers_from 0 (steps st) (currentStepIndex st).

End MapScreen.

(** ** The earlier variant of the screen ([src/unnamed/part_000])

    The same screen with a 3000 ms poll and no route panel: distance and
    duration are two cells, [fetchRoute] takes its endpoints from the
    current location and destination by default, and the route is requested
    only once navigation has started. Modelled here are its state and the
    three functions that touch route, step list and step index. *)

Module EarlierScreen.
Import JS.
Local Open Scope float_scope.

Abbreviation Coord := MapScreen.Coord.
Abbreviation Step := MapScreen.Step.
Abbreviation Geometry := MapScreen.Geometry.
Abbreviation Suggestion := MapScreen.Suggestion.
Abbreviation DirectionsData := MapScreen.DirectionsData.
Abbreviation Http := MapScreen.Http.

Record State : Type := mkState {
  currentLocation : option Coord;
  destination : option Coord;
  route : option Geometry;
  steps : list Step;
  currentStepIndex : Z;
  distance : option string;
  duration : option string;
  query : string;
  suggestions : list Suggestion;
  isNavigating : bool;
  loading : bool
}.

(** [setCamera({centerCoordinate, zoomLevel, animationDuration})]. *)
Inductive CameraCmd : Type :=
| SetCamera (centerCoordinate : Coord) (zoomLevel animationDuration : number).

(** The state, the two refs the three functions read, the route requests
    awaiting their response, the camera and the console. *)
Record World : Type := mkWorld {
  state : State;
  isMounted : bool;
  cameraRef : bool;
  pending : list (Coord * Coord);
  camera : list CameraCmd;
  console : list string
}.

Definition with_state (f : State -> State) (w : World) : World :=
  mkWorld (f (state w)) (isMounted w) (cameraRef w) (pending w) (camera w)
          (console w).

Definition set_route (v : option Geometry) (s : State) : State :=
  mkState (currentLocation s) (destination s) v (steps s) (currentStepIndex s)
          (distance s) (duration s) (query s) (suggestions s) (isNavigating s)
          (loading s).

Definition set_steps (v : list Step) (s : State) : State :=
  mkState (currentLocation s) (destination s) (route s) v (currentStepIndex s)
          (distance s) (duration s) (query s) (suggestions s) (isNavigating s)
          (loading s).

Definition set_currentStepIndex (v : Z) (s : State) : State :=
  mkState (currentLocation s) (destination s) (route s) (steps s) v
          (distance s) (duration s) (query s) (suggestions s) (isNavigating s)
          (loading s).

Definition set_distance (v : option string) (s : State) : State :=
  mkState (currentLocation s) (destination s) (route s) (steps s)
          (currentStepIndex s) v (duration s) (query s) (suggestions s)
          (isNavigating s) (loading s).

Definition set_duration (v : option string) (s : State) : State :=
  mkState (currentLocation s) (destination s) (route s) (steps s)
          (currentStepIndex s) (distance s) v (query s) (suggestions s)
          (isNavigating s) (loading s).

Definition set_isNavigating (v : bool) (s : State) : State :=
  mkState (currentLocation s) (destination s) (route s) (steps s)
          (currentStepIndex s) (distance s) (duration s) (query s)
          (suggestions s) v (loading s).

Definition console_error (msg : string) (w : World) : World :=
  mkWorld (state w) (isMounted w) (cameraRef w) (pending w) (camera w)
          (msg :: console w).

(** [fetchRoute(start = currentLocation!, end = destination!)], up to
    [await fetch(url)]; [cap] is the render the function closes over. *)
Definition fetchRoute (cap : State) (start end_ : option Coord) (w : World)
  : World :=
  match start, end_ with
  | Some s, Some e =>
      if negb (isMounted w) then w
      else mkWorld (state w) (isMounted w) (cameraRef w) (pending w ++ [(s, e)])
                   (camera w) (console w)
  | _, _ => w
  end.

(** [fetchRoute], from the settled response on. *)
Definition fetchRoute_resume (r : Http DirectionsData) (w : World) : World :=
  match r with
  | MapScreen.Rejected e => console_error ("Route fetch error: " ++ e) w
  | MapScreen.Body data =>
      match MapScreen.routes data with
      | Some (routeData :: _) =>
          if isMounted w then
            let w1 := with_state (set_route (Some (MapScreen.geometry routeData))) w in
            let w2 :=
              with_state
                (set_distance
                   (Some (toFixed 1 (MapScreen.route_distance routeData / 1000))))
                w1 in
            let w3 :=
              with_state
                (set_duration
                   (Some (toString
                            (Math_round (MapScreen.route_duration routeData / 60))
                          ++ " min")%string))
                w2 in
            match MapScreen.legs routeData with
            | leg :: _ => with_state (set_steps (MapScreen.leg_steps leg)) w3
            | [] =>
                console_error
                  "Route fetch error: TypeError: Cannot read property 'steps' of undefined"
                  w3
            end
          else w
      | _ => w
      end
  end.

(** [startNavigation]. *)
Definition startNavigation (w : World) : World :=
  let st := state w in
  match currentLocation st, destination st with
  | Some _, Some _ =>
      if isMounted w then
        fetchRoute st (currentLocation st) (destination st)
          (with_state (set_currentStepIndex 0%Z)
             (with_state (set_isNavigating true) w))
      else w
  | _, _ => w
  end.

(** [handleNextStep]; [None] when [steps[stepIndex]] is undefined and the
    function throws. *)
Definition handleNextStep (stepIndex : Z) (w : World) : option World :=
  let st := state w in
  if (Z.of_nat (List.length (steps st)) <=? stepIndex)%Z
     || match currentLocation st with Some _ => false | None => true end
     || negb (cameraRef w)
     || negb (isMounted w)
  then Some w
  else
    let w1 := with_state (set_currentStepIndex stepIndex) w in
    match (if (stepIndex <? 0)%Z then None
           else nth_error (steps st) (Z.to_nat stepIndex)) with
    | Some step =>
        let stepDestination := MapScreen.coordinates step in
        let w2 := fetchRoute st (currentLocation st) (Some stepDestination) w1 in
        Some (mkWorld (state w2) (isMounted w2) (cameraRef w2) (pending w2)
                      (SetCamera stepDestination 16 1000 :: camera w2)
                      (console w2))
    | None => None
    end.

End EarlierScreen.

(** ** Vocabulary of the properties *)

Import JS MapScreen.
Local Open Scope float_scope.
Local Open Scope handler_scope.
Set Warnings "-inexact-float".

(** The route panel [fetchRoute] derives from a route's totals. *)
Definition routeInfo_of (routeData : RouteData) : RouteInfo :=
  mkRouteInfo
    (Some (toFixed 1 (route_distance routeData / 1000)))
    (Some (formatDuration (route_duration routeData / 60)))
    (Some (toFixed 1 (route_distance routeData / 1000)))
    (Some (formatDuration (route_duration routeData / 60))).

(** The sum [s_i + ... + s_last] of the spec, added from the left as
    JavaScript does; the empty sum is 0. *)
Definition total (f : Step -> number) (l : list Step) : number :=
  match l with
  | [] => 0
  | st :: rest => fold_left (fun acc s => acc + f s) rest (f st)
  end.

(** Equal as JavaScript numbers, up to the sign of a zero: the loop starts
    from [+0], so a sum of negative zeros comes out as [+0]. *)
Definition same_number (a b : number) : Prop :=
  a = b \/ (a = 0 /\ b = PrimFloat.neg_zero).

(** [keeps w w']: going from [w] to [w'] no endpoint was lost and the
    navigation flag was not raised. Every piece of handler code except the
    body of [startNavigation] relates the world it starts in to the one it
    leaves in this way. *)
Definition keeps (w w' : World) : Prop :=
  (currentLocation (state w) <> None -> currentLocation (state w') <> None)
  /\ (destination (state w) <> None -> destination (state w') <> None)
  /\ (isNavigating (state w') = true -> isNavigating (state w) = true).

Definition stable {A : Type} (m : M A) : Prop :=
  forall w o w', m w = (o, w') -> keeps w w'.

(** Navigating, the screen has a destination and a current location. *)
Definition navigating_has_endpoints (w : World) : Prop :=
  isNavigating (state w) = true ->
  destination (state w) <> None /\ currentLocation (state w) <> None.

Section Vocabulary.

Variables Math_sin Math_cos : number -> number.
Variable Math_atan2 : number -> number -> number.

(** Whether the tick finds the last step reached. *)
Definition arrives (cl : Closure) (location : Coord) : bool :=
  let sts := steps (cl_render cl) in
  let idx := currentStepIndex (cl_render cl) in
  match nth_error sts (Z.to_nat idx) with
  | Some st =>
      (calculateDistance Math_sin Math_cos Math_atan2 location (coordinates st) <? 0.03)
      && negb (idx <? Z.of_nat (List.length sts) - 1)%Z
  | None => false
  end.

End Vocabulary.

(** [respects R m]: whatever [m] returns or throws, the world it leaves is
    related by [R] to the one it started in. *)
Definition respects {A : Type} (R : World -> World -> Prop) (m : M A) : Prop :=
  forall w o w', m w = (o, w') -> R w w'.

(** The relation of a world to those in which [I] still holds if it held. *)
Definition preserves (I : World -> Prop) (w w' : World) : Prop := I w -> I w'.

(** The continuations that wait for [GetLocation.getCurrentPosition]. *)
Definition is_location_request (k : Continuation) : bool :=
  match k with
  | KInit | KTick _ | KStop => true
  | KRoute _ _ _ | KSuggest | KPermission => false
  end.

Definition location_requests (ks : list Continuation) : nat :=
  List.length (filter is_location_request ks).

(** The pending flag is set exactly while one position request is out, and
    there is never more than one. *)
Definition one_location_request (w : World) : Prop :=
  location_requests (inflight w)
  = if isLocationRequestPending (refs w) then 1%nat else 0%nat.

(** At most one interval is alive, it is the one [locationInterval] holds,
    and none is alive unless the screen is navigating. *)
Definition poll_timer_owned (w : World) : Prop :=
  (timers w = []
   \/ exists id cl, timers w = [(id, cl)]
                    /\ locationInterval (refs w) = Some id)
  /\ (isNavigating (state w) = false -> timers w = []).

(** The totals of the route panel are there exactly when a route is, and
    there are no steps without a route. *)
Definition route_panel_consistent (st : State) : Prop :=
  match route st with
  | None =>
      info_distance (routeInfo st) = None
      /\ info_duration (routeInfo st) = None
      /\ steps st = []
  | Some _ =>
      info_distance (routeInfo st) <> None
      /\ info_duration (routeInfo st) <> None
  end.

Definition index_not_negative (w : World) : Prop :=
  (0 <= currentStepIndex (state w))%Z.

Definition same_destination (w w' : World) : Prop :=
  destination (state w') = destination (state w).

Definition flag_not_raised (w w' : World) : Prop :=
  isNavigating (state w') = true -> isNavigating (state w) = true.

(** The heading on display is a number that is not negative. *)
Definition heading_valid (w : World) : Prop :=
  (0 <=? currentHeading (state w)) = true.

Definition loading_over (w : World) : Prop := loading (state w) = false.

(** What [initialize] can be waiting for: the permission dialog, or the
    first fix. *)
Definition is_startup_request (k : Continuation) : bool :=
  match k with
  | KInit | KPermission => true
  | _ => false
  end.

(** While the loading indicator shows, no cell has been written since the
    screen was created, no interval is alive, and the only promises waited
    for are the permission request and first-fix requests. *)
Definition untouched_while_loading (w : World) : Prop :=
  loading (state w) = true ->
  state w = initialState
  /\ timers w = []
  /\ forallb is_startup_request (inflight w) = true.

(** A point lies in the box spanned by a south-west and a north-east corner. *)
Definition inside (sw ne p : Coord) : bool :=
  (fst sw <=? fst p) && (fst p <=? fst ne)
  && (snd sw <=? snd p) && (snd p <=? snd ne).

Definition is_point (p : Coord) : bool :=
  negb (PrimFloat.is_nan (fst p)) && negb (PrimFloat.is_nan (snd p)).

(** Without its camera the screen commands none, and the ref stays empty. *)
Definition no_camera_without_ref (w w' : World) : Prop :=
  cameraRef (refs w) = false ->
  camera w' = camera w /\ cameraRef (refs w') = false.

(** After the teardown nothing is requested, and the screen stays gone. *)
Definition no_request_when_gone (w w' : World) : Prop :=
  isMounted (refs w) = false ->
  inflight w' = inflight w /\ isMounted (refs w') = false.

(** The markers that are drawn. *)
Definition drawn (ms : list (option Marker)) : list Marker :=
  flat_map (fun m => match m with Some x => [x] | None => [] end) ms.

(** ** Worlds used in the examples *)

Abbreviation sin' := Engine.Math_sin.
Abbreviation cos' := Engine.Math_cos.
Abbreviation atan2' := Engine.Math_atan2.

Definition run_engine : list Event -> World -> option World :=
  run Engine.Math_sin Engine.Math_cos Engine.Math_atan2.

Definition world_after (evs : list Event) : World :=
  match run_engine evs initialWorld with
  | Some w => w
  | None => initialWorld
  end.

(** Where the device is throughout the examples. *)
Definition here : LocationResult := Position 13.4 52.5 90.

Definition museum : Feature := mkFeature "Museum" (13.41, 52.52).

Definition step_at (text : string) (c : Coord) (d t : number) : Step :=
  mkStep text c d t.

(** The route to the museum: it departs from the device's position, turns
    after some 13 m and arrives; 1500 m and 300 s in all. *)
Definition toMuseum : RouteData :=
  mkRouteData [(13.4, 52.5); (13.4001, 52.5001); (13.41, 52.52)] 1500 300
    [mkLeg [step_at "Head north" (13.4, 52.5) 15 5;
            step_at "Turn right" (13.4001, 52.5001) 1485 295;
            step_at "You have arrived" (13.41, 52.52) 0 0]].

(** The re-route towards the turn: depart and arrive. *)
Definition toTurn : RouteData :=
  mkRouteData [(13.4, 52.5); (13.4001, 52.5001)] 15 5
    [mkLeg [step_at "Head north" (13.4, 52.5) 15 5;
            step_at "You have arrived" (13.4001, 52.5001) 0 0]].

Definition directions (r : RouteData) : Reply :=
  RouteReply (Body (mkDirections (Some [r]))).

(** The screen is shown, the position arrives, the user searches and picks
    the museum; the second effect asks for the route. *)
Definition destinationChosen : list Event :=
  [ Mount Granted;
    Settle 0 (LocationReply here);
    CameraRef true;
    ChangeText "mus";
    Settle 0 (SuggestReply (Body (mkGeocoding (Some [museum]))));
    PressSuggestion 0;
    EffectFetchRoute ].

(** The route arrives and the user presses Start: both effects run again,
    the route is fetched once more and the poll begins. *)
Definition navigationStarted : list Event :=
  destinationChosen ++
  [ Settle 0 (directions toMuseum);
    PressStart;
    EffectFetchRoute;
    EffectTracking;
    Settle 0 (directions toMuseum);
    EffectTracking ].

(** The first tick finds the device at the departure point and advances to
    the turn, asking for a re-route towards it; the effects run again. *)
Definition firstAdvance : list Event :=
  navigationStarted ++
  [ Tick 2;
    Settle 0 (LocationReply here);
    EffectFetchRoute;
    EffectTracking ].

(** Half a second later the device, still within 30 m of the turn, is
    advanced to the last step, with a second re-route requested. *)
Definition secondAdvance : list Event :=
  firstAdvance ++
  [ Tick 3;
    Settle 2 (LocationReply here);
    EffectFetchRoute;
    EffectTracking ].

(** Then the first re-route arrives. *)
Definition rerouteArrives : list Event :=
  secondAdvance ++ [ Settle 0 (directions toTurn) ].

Definition closure_of (id : nat) (w : World) : Closure :=
  match find_timer id (timers w) with
  | Some cl => cl
  | None => mkClosure initialState initialState
  end.

(** The destination is chosen, the route request fails, the user presses
    Start. *)
Definition startedWithoutRoute : list Event :=
  destinationChosen ++
  [ Settle 0 (RouteReply (Rejected "Network request failed"));
    PressStart ].

(** A second search that finds nothing. *)
Definition searchedTwice : list Event :=
  [ Mount Granted;
    Settle 0 (LocationReply here);
    CameraRef true;
    ChangeText "mus";
    Settle 0 (SuggestReply (Body (mkGeocoding (Some [museum]))));
    ChangeText "musx" ].

(** A directions body whose route has no legs. *)
Definition noLegs : RouteData :=
  mkRouteData [(13.4, 52.5); (13.41, 52.52)] 1500 300 [].

(** The user leaves the screen while a tick is waiting for its position. *)
Definition leftDuringTick : list Event :=
  firstAdvance ++ [ Tick 3; Unmount ].

Definition two_digits (k : nat) : string :=
  String (digit (Z.of_nat (k / 10)))
         (String (digit (Z.of_nat (k mod 10))) EmptyString).

Definition whole_minutes_ok (n : nat) : bool :=
  String.eqb (formatDuration (of_int (Z.of_nat n)))
             (two_digits (n / 60) ++ ":" ++ two_digits (n mod 60)).

(** The first fix is in. *)
Definition located : list Event :=
  [ Mount Granted; Settle 0 (LocationReply here) ].

(** The suggestions for "mus" are on display. *)
Definition suggestionsShown : list Event :=
  located ++
  [ CameraRef true;
    ChangeText "mus";
    Settle 0 (SuggestReply (Body (mkGeocoding (Some [museum])))) ].

(** The route to the museum is on display; Start has not been pressed. *)
Definition routeShown : list Event :=
  destinationChosen ++ [ Settle 0 (directions toMuseum) ].

(** The museum is chosen on a screen whose map has not handed over its
    camera yet; the route is asked for. *)
Definition chosenWithoutCamera : list Event :=
  located ++
  [ ChangeText "mus";
    Settle 0 (SuggestReply (Body (mkGeocoding (Some [museum]))));
    PressSuggestion 0;
    EffectFetchRoute ].

(** A tick is waiting for its position when the re-route towards the turn
    arrives: the state now has the two steps of the re-route, the second and
    last of them active, the poll is started again, and the tick that is
    still waiting holds the three steps of the route to the museum. *)
Definition staleTick : list Event :=
  firstAdvance ++
  [ Tick 3;
    Settle 0 (directions toTurn);
    EffectTracking ].

(** Where the re-route ends: the maneuver of its last step. *)
Definition atTheTurn : LocationResult := Position 13.4001 52.5001 90.

(** A position far from every maneuver. *)
Definition farAway : LocationResult := Position 13.5 52.6 90.

(** The position of the museum, where the route ends. *)
Definition atTheMuseum : LocationResult := Position 13.41 52.52 90.

(** The position the tick was waiting for arrives: the turn, or far away. *)
Definition staleTickArrives : list Event :=
  staleTick ++ [ Settle 1 (LocationReply atTheTurn) ].

Definition staleTickFar : list Event :=
  staleTick ++ [ Settle 1 (LocationReply farAway) ].

(** After the second advance a tick finds the device at the museum. *)
Definition arrived : list Event :=
  secondAdvance ++ [ Tick 4; Settle 4 (LocationReply atTheMuseum) ].

(** On Android the screen is shown, the permission is asked for and granted:
    the first fix is asked for. *)
Definition grantedOnAndroid : list Event :=
  [ MountAndroid; PermissionSettles 0 Granted ].

(** On Android the user leaves the screen while the permission dialog is
    up. *)
Definition leftWhileAsked : list Event :=
  [ MountAndroid; Unmount ].

(** A world of the earlier variant: navigating along the route to the
    museum, at its first step. *)
Definition earlierWorld : EarlierScreen.World :=
  EarlierScreen.mkWorld
    (EarlierScreen.mkState
       (Some (13.4, 52.5)) (Some (13.41, 52.52)) (Some (geometry toMuseum))
       (match legs toMuseum with leg :: _ => leg_steps leg | [] => [] end)
       0%Z (Some "1.5") (Some "5 min") "Museum" [] true false)
    true true [] [] [].

(** ** Properties *)

Section Properties.

Variables Math_sin Math_cos : number -> number.
Variable Math_atan2 : number -> number -> number.

Local Abbreviation step' := (step Math_sin Math_cos Math_atan2).
Local Abbreviation reachable' := (reachable Math_sin Math_cos Math_atan2).
Local Abbreviation updateNavigation' :=
  (updateNavigation Math_sin Math_cos Math_atan2).
Local Abbreviation tick_resume' := (tick_resume Math_sin Math_cos Math_atan2).
Local Abbreviation distance_km := (calculateDistance Math_sin Math_cos Math_atan2).
Local Abbreviation arrives' := (arrives Math_sin Math_cos Math_atan2).
Local Abbreviation resume_with' := (resume_with Math_sin Math_cos Math_atan2).

(** *** Starting navigation *)

(** C10. With no current location or no destination in the render the Start
    button belongs to, [startNavigation] completes without writing anything:
    the state, the refs, the timers and the camera are as before. *)
Theorem startNavigation_without_endpoints :
  forall (cap : State) (w : World),
    currentLocation cap = None \/ destination cap = None ->
    startNavigation cap w = (Done tt, w).
Proof.
  intros cap w H. unfold startNavigation, bind, cameraRef_current, gets.
  destruct H as [H | H]; rewrite H.
  - reflexivity.
  - destruct (currentLocation cap); reflexivity.
Qed.

(** When it does go ahead, [startNavigation] raises the flag and puts the
    step index at 0. *)
Lemma startNavigation_starts :
  forall (cap : State) (w : World) (c d : Coord),
    currentLocation cap = Some c -> destination cap = Some d ->
    cameraRef (refs w) = true ->
    isNavigating (state (exec (startNavigation cap) w)) = true
    /\ currentStepIndex (state (exec (startNavigation cap) w)) = 0%Z.
Proof.
  intros cap w c d Hc Hd Hcam.
  unfold exec, startNavigation, bind, cameraRef_current, gets.
  rewrite Hc, Hd, Hcam. split; reflexivity.
Qed.

(** *** Route acquisition *)

(** C1, as the code has it. A directions response with at least one route,
    whose first route has a leg, settling while the screen is mounted:
    [fetchRoute] installs the geometry and the step list of that route and
    derives total and remaining distance and duration from its totals. The
    step index is put at 0 by [startNavigation], not by [fetchRoute]. *)
Theorem fetchRoute_success :
  forall (cap : State) (start end_ : Coord) (routeData : RouteData)
         (others : list RouteData) (leg : Leg) (legs' : list Leg) (w : World),
    isMounted (refs w) = true ->
    legs routeData = leg :: legs' ->
    let w' :=
      exec (fetchRoute_resume cap start end_
              (Body (mkDirections (Some (routeData :: others))))) w in
    route (state w') = Some (geometry routeData)
    /\ steps (state w') = leg_steps leg
    /\ routeInfo (state w') = routeInfo_of routeData
    /\ (forall (cap' : State) (c d : Coord) (v : World),
          currentLocation cap' = Some c -> destination cap' = Some d ->
          cameraRef (refs v) = true ->
          currentStepIndex (state (exec (startNavigation cap') v)) = 0%Z).
Proof.
  intros cap start end_ routeData others leg legs' w Hm Hlegs w'.
  assert (Hw' : route (state w') = Some (geometry routeData)
                /\ steps (state w') = leg_steps leg
                /\ routeInfo (state w') = routeInfo_of routeData).
  { subst w'.
    unfold exec, fetchRoute_resume, try_catch, bind, isMounted_current,
      cameraRef_current, gets; cbn [routes].
    rewrite Hm, Hlegs. cbn.
    destruct (negb (isNavigating cap) && cameraRef (refs w));
      cbn; repeat split; reflexivity. }
  destruct Hw' as (Hr & Hs & Hi). repeat split; try assumption.
  intros cap' c d v Hc Hd Hcam.
  exact (proj2 (startNavigation_starts cap' v c d Hc Hd Hcam)).
Qed.

(** *** Failed fetches *)

(** C5, as the code has it. A route or suggestion fetch that is rejected
    (network error, unparsable body) leaves the React state as it was and
    writes one line to the console; a directions body with no [routes] or an
    empty [routes], and a geocoding body with no [features], leave the whole
    world as it was. *)
Theorem failed_fetch_keeps_state :
  forall (cap : State) (start end_ : Coord) (w : World),
    (forall error,
        let w' := exec (fetchRoute_resume cap start end_ (Rejected error)) w in
        state w' = state w
        /\ console w' = ("Route fetch error: " ++ error)%string :: console w)
    /\ exec (fetchRoute_resume cap start end_ (Body (mkDirections None))) w = w
    /\ exec (fetchRoute_resume cap start end_
               (Body (mkDirections (Some [])))) w = w
    /\ (forall error,
        let w' := exec (fetchSuggestions_resume (Rejected error)) w in
        state w' = state w
        /\ console w' = ("Suggestions error: " ++ error)%string :: console w)
    /\ exec (fetchSuggestions_resume (Body (mkGeocoding None))) w = w.
Proof.
  intros cap start end_ w.
  repeat split; destruct w; reflexivity.
Qed.

(** *** Settling after teardown *)

Lemma state_commit : forall w, state (commit w) = state w.
Proof. intros w. unfold commit. destruct (navDirty w); reflexivity. Qed.

Lemma refs_commit : forall w, refs (commit w) = refs w.
Proof. intros w. unfold commit. destruct (navDirty w); reflexivity. Qed.

(** The render writes no cell, and neither does the removal of the screen
    when it throws. *)
Lemma state_cleanup : forall w, state (exec cleanup w) = state w.
Proof.
  intros w. unfold exec, cleanup, clearInterval, bind, gets, modify, ret. cbn.
  destruct (locationInterval (refs w)); reflexivity.
Qed.

Lemma state_rendered : forall u v, state (rendered u v) = state v.
Proof.
  intros u v. unfold rendered.
  destruct (negb (render_throws (state u)) && render_throws (state v));
    [apply state_cleanup | reflexivity].
Qed.

Lemma state_settled : forall u v, state (rendered u (commit v)) = state v.
Proof. intros u v. rewrite state_rendered. apply state_commit. Qed.

(** A handler that leaves the state as it was is followed by no render that
    throws for the first time. *)
Lemma rendered_same_state :
  forall u v, state v = state u -> rendered u v = v.
Proof.
  intros u v E. unfold rendered. rewrite E.
  destruct (render_throws (state u)); reflexivity.
Qed.

(** What neither the commit nor the render touches. *)
Lemma commit_frame :
  forall v,
    refs (commit v) = refs v
    /\ timers (commit v) = timers v
    /\ inflight (commit v) = inflight v
    /\ camera (commit v) = camera v
    /\ console (commit v) = console v.
Proof. intros v. unfold commit. destruct (navDirty v); repeat split. Qed.

Lemma rendered_frame :
  forall u v,
    inflight (rendered u v) = inflight v
    /\ camera (rendered u v) = camera v
    /\ console (rendered u v) = console v
    /\ cameraRef (refs (rendered u v)) = cameraRef (refs v)
    /\ isLocationRequestPending (refs (rendered u v))
       = isLocationRequestPending (refs v)
    /\ locationInterval (refs (rendered u v)) = locationInterval (refs v).
Proof.
  intros u v. unfold rendered.
  destruct (negb (render_throws (state u)) && render_throws (state v));
    [| repeat split].
  unfold exec, cleanup, clearInterval, bind, gets, modify, ret. cbn.
  destruct (locationInterval (refs v)) eqn:E; cbn; rewrite ?E; repeat split.
Qed.

Lemma step_world :
  forall (ev : Event) (w w' : World),
    step' ev w = Some w' ->
    exists m,
      handler Math_sin Math_cos Math_atan2 ev w = Some m
      /\ w' = rendered w (commit (exec m w)).
Proof.
  intros ev w w' H. unfold step in H.
  destruct (handler Math_sin Math_cos Math_atan2 ev w) as [m |];
    [| discriminate].
  exists m. inversion H; subst. split; reflexivity.
Qed.

Lemma position_end_state :
  forall (r : LocationResult) (w : World),
    state (exec (getCurrentPositionSafe_end r) w) = state w
    /\ isMounted (refs (exec (getCurrentPositionSafe_end r) w))
       = isMounted (refs w)
    /\ cameraRef (refs (exec (getCurrentPositionSafe_end r) w))
       = cameraRef (refs w).
Proof.
  intros r w. destruct r as [lon lat course | [m |]]; cbn.
  - repeat split.
  - unfold exec, getCurrentPositionSafe_end, try_finally, bind.
    destruct (includes "cancelled" m); cbn; repeat split.
  - repeat split.
Qed.

Lemma step_settle :
  forall (i : nat) (r : Reply) (w w' : World),
    step' (Settle i r) w = Some w' ->
    exists k m,
      nth_error (inflight w) i = Some k
      /\ resume_with' k r = Some m
      /\ w' = rendered w
                (commit (exec m (with_inflight (remove_nth i (inflight w)) w))).
Proof.
  intros i r w w' H. unfold step, handler in H.
  destruct (nth_error (inflight w) i) as [k |]; [| discriminate].
  destruct (resume_with' k r) as [m |] eqn:E; [| discriminate].
  exists k, m. inversion H; subst. repeat split; assumption.
Qed.

Lemma resume_unmounted :
  forall (k : Continuation) (r : Reply) (m : M unit) (w : World),
    resume_with' k r = Some m ->
    isMounted (refs w) = false ->
    state (exec m w) = state w.
Proof.
  intros k r m w Hk Hm.
  destruct k, r; try discriminate; cbn in Hk; inversion Hk; subst; clear Hk.
  - (* fetchRoute *)
    destruct r as [e | [[[| rd rest] |]]];
      unfold exec, fetchRoute_resume, try_catch, bind, isMounted_current, gets;
      cbn; try rewrite Hm; reflexivity.
  - (* fetchSuggestions *)
    destruct r as [e | [[fs |]]];
      unfold exec, fetchSuggestions_resume, try_catch, bind,
        isMounted_current, gets;
      cbn; try rewrite Hm; reflexivity.
  - (* getCurrentLocation *)
    destruct (position_end_state r w) as (Hs & Hmo & _).
    unfold exec, getCurrentLocation_resume, bind in *.
    destruct (getCurrentPositionSafe_end r w) as [[d | e] v]; cbn in *;
      [| assumption].
    unfold isMounted_current, cameraRef_current, gets. rewrite Hmo, Hm.
    destruct d; assumption.
  - (* the interval callback *)
    destruct (position_end_state r w) as (Hs & Hmo & _).
    unfold exec, tick_resume, bind in *.
    destruct (getCurrentPositionSafe_end r w) as [[d | e] v]; cbn in *;
      [| assumption].
    destruct d; [| assumption].
    unfold isMounted_current, gets. rewrite Hmo, Hm. assumption.
  - (* stopNavigation *)
    destruct (position_end_state r w) as (Hs & Hmo & _).
    unfold exec, stopNavigation_resume, bind in *.
    destruct (getCurrentPositionSafe_end r w) as [[d | e] v]; cbn in *;
      [| assumption].
    unfold isMounted_current, cameraRef_current, gets. rewrite Hmo, Hm.
    destruct d; assumption.
Qed.

(** C6. Once the screen is torn down ([isMounted.current] is [false]), a
    pending location, route or suggestion request that settles, whatever
    it settles with, leaves every [useState] cell as it was. *)
Theorem settle_after_teardown :
  forall (i : nat) (r : Reply) (w w' : World),
    isMounted (refs w) = false ->
    step' (Settle i r) w = Some w' ->
    state w' = state w.
Proof.
  intros i r w w' Hm H.
  destruct (step_settle i r w w' H) as (k & m & _ & Hk & ->).
  rewrite state_settled.
  exact (resume_unmounted k r m
           (with_inflight (remove_nth i (inflight w)) w) Hk Hm).
Qed.

(** *** Remaining distance and duration *)

Lemma zero_add :
  forall x : number, Prim2SF x <> S754_zero true -> 0 + x = x.
Proof.
  intros x Hx. apply Prim2SF_inj. rewrite add_spec.
  change (Prim2SF 0) with (S754_zero false).
  destruct (Prim2SF x) as [[|] | [|] | | s m e]; try reflexivity.
  contradiction Hx; reflexivity.
Qed.

Lemma neg_zero_add : forall x : number, PrimFloat.neg_zero + x = x.
Proof.
  intros x. apply Prim2SF_inj. rewrite add_spec.
  change (Prim2SF PrimFloat.neg_zero) with (S754_zero true).
  destruct (Prim2SF x) as [[|] | [|] | | s m e]; reflexivity.
Qed.

Lemma is_neg_zero :
  forall x : number, Prim2SF x = S754_zero true -> x = PrimFloat.neg_zero.
Proof. intros x H. apply Prim2SF_inj. rewrite H. reflexivity. Qed.

Lemma same_number_zero_add : forall x : number, same_number (0 + x) x.
Proof.
  intros x. destruct (Prim2SF x) as [[|] | s | | s m e] eqn:E;
    try (left; apply zero_add; rewrite E; discriminate).
  right. rewrite (is_neg_zero x E). split; reflexivity.
Qed.

Lemma same_number_add :
  forall a b x : number, same_number a b -> same_number (a + x) (b + x).
Proof.
  intros a b x [-> | [-> ->]].
  - left; reflexivity.
  - rewrite neg_zero_add. apply same_number_zero_add.
Qed.

Lemma same_number_fold :
  forall (f : Step -> number) (l : list Step) (a b : number),
    same_number a b ->
    same_number (fold_left (fun acc s => acc + f s) l a)
                (fold_left (fun acc s => acc + f s) l b).
Proof.
  intros f l. induction l as [| st l IH]; intros a b H; cbn.
  - assumption.
  - apply IH. apply same_number_add. assumption.
Qed.

Lemma fold_from_zero :
  forall (f : Step -> number) (l : list Step),
    same_number (fold_left (fun acc s => acc + f s) l 0) (total f l).
Proof.
  intros f [| st l]; cbn.
  - left; reflexivity.
  - apply same_number_fold. apply same_number_zero_add.
Qed.

(** What the panel shows does not see the sign of a zero. *)
Lemma same_number_display :
  forall a b : number,
    same_number a b ->
    toFixed 1 (a / 1000) = toFixed 1 (b / 1000)
    /\ formatDuration (a / 60) = formatDuration (b / 60).
Proof.
  intros a b [-> | [-> ->]]; split; reflexivity.
Qed.

Lemma skipn_nth_error :
  forall (A : Type) (l : list A) (n : nat) (x : A),
    nth_error l n = Some x -> skipn n l = x :: skipn (S n) l.
Proof.
  intros A l. induction l as [| y l IH]; intros [| n] x H; cbn in *;
    try discriminate.
  - inversion H; reflexivity.
  - apply IH. assumption.
Qed.

(** The loop adds the steps from [i] on, in order. *)
Lemma remaining_loop_fold :
  forall (sts : list Step) (fuel : nat) (n : nat) (d t : number),
    (n <= List.length sts)%nat ->
    (List.length sts - n < fuel)%nat ->
    remaining_loop sts fuel (Z.of_nat n) d t
    = Done (fold_left (fun a s => a + distance s) (skipn n sts) d,
            fold_left (fun a s => a + duration s) (skipn n sts) t).
Proof.
  intros sts fuel. induction fuel as [| fuel IH]; intros n d t Hn Hf.
  - lia.
  - cbn [remaining_loop].
    destruct (Z.ltb_spec (Z.of_nat n) (Z.of_nat (List.length sts)))
      as [Hlt | Hge].
    + assert (Hn' : (n < List.length sts)%nat) by lia.
      destruct (Z.ltb_spec (Z.of_nat n) 0) as [Hneg | _]; [lia |].
      rewrite Nat2Z.id.
      destruct (nth_error sts n) as [st |] eqn:E.
      * rewrite (skipn_nth_error _ sts n st E). cbn [fold_left].
        replace (Z.of_nat n + 1)%Z with (Z.of_nat (S n)) by lia.
        apply IH; lia.
      * apply nth_error_None in E. lia.
    + assert (n = List.length sts) by lia. subst n.
      rewrite skipn_all. reflexivity.
Qed.

Lemma handleStepChange_routeInfo :
  forall (nav : State) (j : Z) (w : World),
    routeInfo (state (exec (handleStepChange nav j) w)) = routeInfo (state w).
Proof.
  intros nav j w.
  unfold exec, handleStepChange, bind, cameraRef_current, gets.
  destruct ((j <? 0)%Z || (Z.of_nat (List.length (steps nav)) <=? j)%Z
            || match currentLocation nav with
               | Some _ => false
               | None => true
               end
            || negb (cameraRef (refs w))); [reflexivity |].
  cbn. destruct (nth_error (steps nav) (Z.to_nat j)) as [st |]; [| reflexivity].
  cbn. unfold fetchRoute, bind, isMounted_current, gets.
  destruct (currentLocation nav); [| reflexivity].
  cbn. destruct (isMounted (refs w)); reflexivity.
Qed.

(** The two sums of a tick, and what the panel shows after it. *)
Lemma remaining_after_update :
  forall (cl : Closure) (location : Coord) (w : World),
    let sts := steps (cl_render cl) in
    let i := currentStepIndex (cl_render cl) in
    cameraRef (refs w) = true ->
    isMounted (refs w) = true ->
    (0 <= i < Z.of_nat (List.length sts))%Z ->
    exists metres seconds : number,
      remaining_loop sts (S (List.length sts)) i 0 0 = Done (metres, seconds)
      /\ same_number metres (total distance (skipn (Z.to_nat i) sts))
      /\ same_number seconds (total duration (skipn (Z.to_nat i) sts))
      /\ (arrives' cl location = false ->
          let shown := routeInfo (state (exec (updateNavigation' cl location) w)) in
          remainingDistance shown
          = Some (toFixed 1 (total distance (skipn (Z.to_nat i) sts) / 1000))
          /\ remainingDuration shown
             = Some (formatDuration
                       (total duration (skipn (Z.to_nat i) sts) / 60))).
Proof.
  intros cl location w sts i Hcam Hm Hi.
  set (n := Z.to_nat i).
  assert (Hn : i = Z.of_nat n) by (unfold n; lia).
  assert (Hlen : (n < List.length sts)%nat) by lia.
  pose proof (remaining_loop_fold sts (S (List.length sts)) n 0 0
                ltac:(lia) ltac:(lia)) as Hd.
  rewrite <- Hn in Hd.
  eexists; eexists.
  split; [exact Hd |].
  split; [apply fold_from_zero |]. split; [apply fold_from_zero |].
  intros Harr shown. subst shown.
  destruct (nth_error sts n) as [st |] eqn:Est;
    [| apply nth_error_None in Est; lia].
  unfold arrives in Harr. fold sts i n in Harr. rewrite Est in Harr.
  destruct (same_number_display _ _ (fold_from_zero distance (skipn n sts)))
    as [Hshow_d _].
  destruct (same_number_display _ _ (fold_from_zero duration (skipn n sts)))
    as [_ Hshow_t].
  unfold exec, updateNavigation, bind, cameraRef_current, isMounted_current,
    gets.
  fold sts i. rewrite Hcam, Hm.
  destruct (Nat.eqb_spec (List.length sts) 0) as [Hz | _]; [lia |].
  cbn [negb orb].
  destruct (Z.ltb_spec i 0) as [Hneg | _]; [lia |].
  fold n. rewrite Est, Hd.
  unfold updateRouteInfo, modify.
  destruct (distance_km location (coordinates st) <? 0.03) eqn:Enear;
    cbn [andb] in *.
  - destruct (i <? Z.of_nat (List.length sts) - 1)%Z eqn:Elast;
      [| discriminate].
    match goal with
    | |- context [handleStepChange ?nav ?j ?v] =>
        pose proof (handleStepChange_routeInfo nav j v) as Hh
    end.
    unfold exec in Hh. rewrite Hh.
    cbn [snd state with_state set_routeInfo routeInfo remainingDistance
         remainingDuration].
    rewrite Hshow_d, Hshow_t. split; reflexivity.
  - cbn [snd ret state with_state set_routeInfo routeInfo remainingDistance
         remainingDuration].
    rewrite Hshow_d, Hshow_t. split; reflexivity.
Qed.

Lemma find_timer_cleared :
  forall (id : nat) (ts : list (nat * Closure)),
    find_timer id (filter (fun t => negb (Nat.eqb (fst t) id)) ts) = None.
Proof.
  intros id ts. induction ts as [| [id' cl] ts IH]; cbn.
  - reflexivity.
  - destruct (Nat.eqb id' id) eqn:E; cbn.
    + assumption.
    + rewrite E. assumption.
Qed.

(** What the synchronous part of [stopNavigation] leaves behind. *)
Lemma stopNavigation_clears :
  forall w : World,
    isMounted (refs w) = true ->
    let w' := exec stopNavigation w in
    isNavigating (state w') = false
    /\ route (state w') = None
    /\ steps (state w') = []
    /\ currentStepIndex (state w') = 0%Z
    /\ routeInfo (state w') = noRouteInfo
    /\ locationInterval (refs w') = None
    /\ (forall id, locationInterval (refs w) = Some id ->
                   find_timer id (timers w') = None)
    /\ cameraRef (refs w') = cameraRef (refs w).
Proof.
  intros w Hm w'. subst w'.
  unfold exec, stopNavigation, bind, isMounted_current, gets.
  rewrite Hm. cbn.
  destruct (locationInterval (refs w)) as [id |] eqn:Eli; cbn;
    destruct (isLocationRequestPending (refs w)); cbn;
    repeat split; try reflexivity; try assumption;
    intros id' Hid; try discriminate;
    inversion Hid; subst; apply find_timer_cleared.
Qed.

(** On the tick that ends the navigation [stopNavigation] clears the panel
    after the sums were written to it, in the same batch. *)
Lemma cleared_after_arrival :
  forall (cl : Closure) (location : Coord) (w : World),
    let sts := steps (cl_render cl) in
    let i := currentStepIndex (cl_render cl) in
    cameraRef (refs w) = true ->
    isMounted (refs w) = true ->
    (0 <= i < Z.of_nat (List.length sts))%Z ->
    arrives' cl location = true ->
    routeInfo (state (exec (updateNavigation' cl location) w)) = noRouteInfo.
Proof.
  intros cl location w sts i Hcam Hm Hi Harr.
  set (n := Z.to_nat i).
  assert (Hn : i = Z.of_nat n) by (unfold n; lia).
  assert (Hlen : (n < List.length sts)%nat) by lia.
  pose proof (remaining_loop_fold sts (S (List.length sts)) n 0 0
                ltac:(lia) ltac:(lia)) as Hd.
  rewrite <- Hn in Hd.
  destruct (nth_error sts n) as [st |] eqn:Est;
    [| apply nth_error_None in Est; lia].
  unfold arrives in Harr. fold sts i n in Harr. rewrite Est in Harr.
  apply andb_prop in Harr. destruct Harr as [Hnear Hlast].
  apply negb_true_iff in Hlast.
  unfold exec, updateNavigation, bind, cameraRef_current, isMounted_current,
    gets.
  fold sts i. rewrite Hcam, Hm.
  destruct (Nat.eqb_spec (List.length sts) 0) as [Hz | _]; [lia |].
  cbn [negb orb].
  destruct (Z.ltb_spec i 0) as [Hneg | _]; [lia |].
  fold n. rewrite Est, Hd, Hnear, Hlast. cbn [andb].
  unfold updateRouteInfo, modify.
  match goal with
  | |- context [stopNavigation ?v] =>
      pose proof (stopNavigation_clears v Hm) as Hstop
  end.
  cbv zeta in Hstop. unfold exec in Hstop.
  exact (proj1 (proj2 (proj2 (proj2 (proj2 Hstop))))).
Qed.


(** *** Distance *)

(** Signs in IEEE-754 arithmetic: negation goes through products and
    quotients exactly, and swapping a difference negates it unless it is a
    zero. *)
Lemma opp_opp : forall x : number, - - x = x.
Proof.
  intros x. apply Prim2SF_inj. rewrite !opp_spec.
  destruct (Prim2SF x); cbn; rewrite ?negb_involutive; reflexivity.
Qed.

Lemma round_aux_opp :
  forall s m e l,
    binary_round_aux prec emax (negb s) m e l
    = SFopp (binary_round_aux prec emax s m e l).
Proof.
  intros s m e l. unfold binary_round_aux.
  destruct (shr_fexp prec emax m e l) as [mrs' e'].
  destruct (shr_fexp prec emax _ e' loc_Exact) as [mrs'' e''].
  destruct (shr_m mrs''); try reflexivity.
  destruct (Z.leb e'' (emax - prec)); reflexivity.
Qed.

Lemma binary_round_opp :
  forall s m e,
    binary_round prec emax (negb s) m e = SFopp (binary_round prec emax s m e).
Proof.
  intros s m e. unfold binary_round.
  destruct (shl_align m e _) as [mz ez]. apply round_aux_opp.
Qed.

Lemma xorb_negb_l : forall a b : bool, xorb (negb a) b = negb (xorb a b).
Proof. intros [|] [|]; reflexivity. Qed.

Lemma mul_opp_l : forall a b : number, (- a) * b = - (a * b).
Proof.
  intros a b. apply Prim2SF_inj. rewrite opp_spec, !mul_spec, opp_spec.
  unfold SF64mul.
  destruct (Prim2SF a) as [sa | sa | | sa ma ea];
    destruct (Prim2SF b) as [sb | sb | | sb mb eb];
    cbn [SFopp SFmul]; rewrite ?xorb_negb_l; try reflexivity.
  apply round_aux_opp.
Qed.

Lemma mul_comm : forall a b : number, a * b = b * a.
Proof.
  intros a b. apply Prim2SF_inj. rewrite !mul_spec. unfold SF64mul.
  destruct (Prim2SF a) as [sa | sa | | sa ma ea];
    destruct (Prim2SF b) as [sb | sb | | sb mb eb];
    cbn [SFmul]; rewrite ?(xorb_comm sa sb); try reflexivity.
  rewrite (Pos.mul_comm ma mb), (Z.add_comm ea eb). reflexivity.
Qed.

Lemma mul_opp_r : forall a b : number, a * (- b) = - (a * b).
Proof.
  intros a b. rewrite (mul_comm a (- b)), mul_opp_l, (mul_comm b a).
  reflexivity.
Qed.

Lemma mul_opp_opp : forall a b : number, (- a) * (- b) = a * b.
Proof. intros a b. rewrite mul_opp_l, mul_opp_r, opp_opp. reflexivity. Qed.

Lemma div_opp_l : forall a b : number, (- a) / b = - (a / b).
Proof.
  intros a b. apply Prim2SF_inj. rewrite opp_spec, !div_spec, opp_spec.
  unfold SF64div.
  destruct (Prim2SF a) as [sa | sa | | sa ma ea];
    destruct (Prim2SF b) as [sb | sb | | sb mb eb];
    cbn [SFopp SFdiv]; rewrite ?xorb_negb_l; try reflexivity.
  destruct (SFdiv_core_binary prec emax (Z.pos ma) ea (Z.pos mb) eb)
    as [[mz ez] lz].
  apply round_aux_opp.
Qed.

Lemma sub_swap :
  forall x y : number, y - x = - (x - y) \/ y - x = x - y.
Proof.
  intros x y.
  assert (H : Prim2SF (y - x) = SFopp (Prim2SF (x - y))
              \/ Prim2SF (y - x) = Prim2SF (x - y)).
  { rewrite !sub_spec. unfold SF64sub.
    destruct (Prim2SF x) as [sx | sx | | sx mx ex];
      destruct (Prim2SF y) as [sy | sy | | sy my ey];
      cbn [SFsub SFopp];
      try solve [ repeat match goal with s : bool |- _ => destruct s end;
                  cbn; auto ].
    rewrite (Z.min_comm ey ex).
    set (ez := Z.min ex ey).
    set (a := cond_Zopp sx (Z.pos (fst (shl_align mx ex ez)))).
    set (b := cond_Zopp sy (Z.pos (fst (shl_align my ey ez)))).
    replace (b - a)%Z with (- (a - b))%Z by lia.
    destruct (a - b)%Z as [| p | p]; cbn [Z.opp binary_normalize].
    - right; reflexivity.
    - left. apply (binary_round_opp false).
    - left. apply (binary_round_opp true). }
  destruct H as [H | H].
  - left. apply Prim2SF_inj. rewrite opp_spec. exact H.
  - right. apply Prim2SF_inj. exact H.
Qed.

(** The difference of a finite number with itself is [+0]. *)
Lemma sub_diag_finite :
  forall x : number, Number_isFinite x = true -> x - x = 0.
Proof.
  intros x Hx. apply Prim2SF_inj. rewrite sub_spec. unfold SF64sub.
  unfold Number_isFinite, decode in Hx.
  destruct (Prim2SF x) as [[|] | sx | | sx mx ex]; try discriminate;
    try reflexivity.
  cbn [SFsub]. rewrite Z.sub_diag. reflexivity.
Qed.

(** A finite number times a zero is a zero. *)
Lemma mul_zero_finite :
  forall p z : number,
    Number_isFinite p = true ->
    (z = 0 \/ z = PrimFloat.neg_zero) ->
    p * z = 0 \/ p * z = PrimFloat.neg_zero.
Proof.
  intros p z Hp Hz.
  assert (H : exists s, Prim2SF (p * z) = S754_zero s).
  { rewrite mul_spec. unfold SF64mul.
    unfold Number_isFinite, decode in Hp.
    destruct Hz as [-> | ->];
      [ change (Prim2SF 0) with (S754_zero false)
      | change (Prim2SF PrimFloat.neg_zero) with (S754_zero true) ];
      destruct (Prim2SF p) as [sp | sp | | sp mp ep]; try discriminate;
      cbn [SFmul]; eexists; reflexivity. }
  destruct H as [[|] H]; [right | left]; apply Prim2SF_inj; rewrite H;
    reflexivity.
Qed.

Section Haversine.

(** The engine's sine is odd. *)
Hypothesis sin_odd : forall x : number, Math_sin (- x) = - Math_sin x.

(** The squared sine of half an angle does not see the order of the two
    points. *)
Lemma half_angle_swap :
  forall (p x y : number),
    let h := Math_sin ((y - x) * (Math_PI / 180) / 2) in
    let h' := Math_sin ((x - y) * (Math_PI / 180) / 2) in
    h' * h' = h * h /\ p * h' * h' = p * h * h.
Proof.
  intros p x y h h'. subst h h'.
  destruct (sub_swap y x) as [E | E]; rewrite E.
  - rewrite mul_opp_l, div_opp_l, sin_odd.
    split.
    + apply mul_opp_opp.
    + rewrite (mul_opp_r p). apply mul_opp_opp.
  - split; reflexivity.
Qed.

Lemma calculateDistance_swap :
  forall A B : Coord, distance_km A B = distance_km B A.
Proof.
  intros [lon1 lat1] [lon2 lat2]. unfold calculateDistance.
  destruct (half_angle_swap 0 lat1 lat2) as [Hlat _].
  destruct (half_angle_swap
              (Math_cos (lat1 * (Math_PI / 180))
               * Math_cos (lat2 * (Math_PI / 180))) lon1 lon2) as [_ Hlon].
  cbv zeta in Hlat, Hlon.
  rewrite (mul_comm (Math_cos (lat2 * (Math_PI / 180)))
                    (Math_cos (lat1 * (Math_PI / 180)))).
  rewrite Hlat, Hlon. reflexivity.
Qed.

(** C8. For an engine whose sine is odd, the distance from [A] to [B] and
    the distance from [B] to [A] are the same double, hence [==] whenever
    the distance is a number; and with [sin(+0)] and [atan2(+0, 1)] being
    [+0], as ECMA-262 fixes them, the distance from a point with finite
    coordinates to itself is 0, the squared cosine of its latitude being
    finite. *)
Theorem calculateDistance_symmetric_and_zero :
  (forall A B : Coord,
      distance_km A B = distance_km B A
      /\ (PrimFloat.is_nan (distance_km A B) = false ->
          (distance_km A B =? distance_km B A) = true))
  /\ (Math_sin 0 = 0 ->
      Math_atan2 0 1 = 0 ->
      forall longitude latitude : number,
        Number_isFinite longitude = true ->
        Number_isFinite latitude = true ->
        Number_isFinite (Math_cos (latitude * (Math_PI / 180))
                         * Math_cos (latitude * (Math_PI / 180))) = true ->
        distance_km (longitude, latitude) (longitude, latitude) = 0).
Proof.
  split.
  - intros A B. split.
    + apply calculateDistance_swap.
    + intros Hnan. rewrite <- (calculateDistance_swap A B).
      unfold PrimFloat.is_nan in Hnan.
      destruct (distance_km A B =? distance_km A B);
        [reflexivity | discriminate].
  - intros Hsin Hatan longitude latitude Hlon Hlat Hcos.
    unfold calculateDistance.
    rewrite (sub_diag_finite longitude Hlon), (sub_diag_finite latitude Hlat).
    change (0 * (Math_PI / 180) / 2) with 0. rewrite Hsin.
    set (p := Math_cos (latitude * (Math_PI / 180))
              * Math_cos (latitude * (Math_PI / 180))) in *.
    assert (Ha : 0 * 0 + p * 0 * 0 = 0).
    { destruct (mul_zero_finite p 0 Hcos (or_introl eq_refl)) as [E | E];
        rewrite E; reflexivity. }
    rewrite Ha.
    change (PrimFloat.sqrt 0) with 0.
    change (PrimFloat.sqrt (1 - 0)) with 1.
    rewrite Hatan. reflexivity.
Qed.

End Haversine.

(** *** Arrival *)

(** What the tick does on arrival, by the step list and the index its
    callback holds. A tick whose position lies within 30 m of the maneuver
    of the step the callback takes for the active one, that step being the
    last of the callback's list, on a mounted screen with its camera: the
    navigation flag is lowered, route, step list, step index and the route
    panel are cleared, and the poll timer is cancelled. *)
Lemma tick_at_last_step_stops :
  forall (cl : Closure) (longitude latitude course : number) (st : Step)
         (w : World),
    let sts := steps (cl_render cl) in
    let i := currentStepIndex (cl_render cl) in
    isMounted (refs w) = true ->
    cameraRef (refs w) = true ->
    (0 <= i)%Z ->
    nth_error sts (Z.to_nat i) = Some st ->
    i = (Z.of_nat (List.length sts) - 1)%Z ->
    (distance_km (longitude, latitude) (coordinates st) <? 0.03) = true ->
    let w' := exec (tick_resume' cl (Position longitude latitude course)) w in
    isNavigating (state w') = false
    /\ route (state w') = None
    /\ steps (state w') = []
    /\ currentStepIndex (state w') = 0%Z
    /\ routeInfo (state w') = noRouteInfo
    /\ locationInterval (refs w') = None
    /\ (forall id, locationInterval (refs w) = Some id ->
                   find_timer id (timers w') = None).
Proof.
  intros cl longitude latitude course st w sts i Hm Hcam Hi Hst Hlast Hnear w'.
  assert (Hlen : (0 < List.length sts)%nat).
  { destruct sts; [destruct (Z.to_nat i); discriminate | cbn; lia]. }
  pose proof (remaining_loop_fold sts (S (List.length sts)) (Z.to_nat i) 0 0
                ltac:(lia) ltac:(lia)) as Hd.
  rewrite Z2Nat.id in Hd by assumption.
  subst w'.
  unfold exec, tick_resume, getCurrentPositionSafe_end, try_finally, bind,
    ret, modify, isMounted_current, gets.
  cbn [refs with_refs set_isLocationRequestPending isMounted coords heading].
  rewrite Hm.
  unfold setCurrentLocation, setCurrentHeading, modify.
  unfold updateNavigation, bind, cameraRef_current, isMounted_current, gets.
  cbn [refs with_refs with_state set_isLocationRequestPending isMounted
       cameraRef fst snd].
  fold sts i. rewrite Hm, Hcam.
  destruct (Nat.eqb_spec (List.length sts) 0) as [Hz | _]; [lia |].
  cbn [negb orb].
  destruct (Z.ltb_spec i 0) as [Hneg | _]; [lia |].
  rewrite Hst, Hd, Hnear.
  destruct (Z.ltb_spec i (Z.of_nat (List.length sts) - 1)) as [Hlt | _];
    [lia |].
  cbn [andb]. unfold updateRouteInfo, modify.
  match goal with
  | |- context [stopNavigation ?v] =>
      pose proof (stopNavigation_clears v Hm) as Hstop;
      cbv zeta in Hstop; unfold exec in Hstop;
      destruct (stopNavigation v) as [[[] | e] v'] eqn:Ev
  end; cbn [snd fst] in Hstop |- *;
    destruct Hstop as (H1 & H2 & H3 & H4 & H5 & H6 & H7 & H8).
  - cbn [refs with_state with_refs cameraRef locationInterval
         set_isLocationRequestPending] in H7, H8.
    rewrite H8, Hcam.
    unfold camera_do, modify. cbn [snd fst state refs with_camera timers].
    repeat split; try assumption.
  - cbn [refs with_state with_refs cameraRef locationInterval
         set_isLocationRequestPending] in H7.
    repeat split; assumption.
Qed.

(** *** What holds while navigating *)

Lemma keeps_refl : forall w, keeps w w.
Proof. intros w. repeat split; auto. Qed.

Lemma keeps_trans : forall w1 w2 w3, keeps w1 w2 -> keeps w2 w3 -> keeps w1 w3.
Proof.
  intros w1 w2 w3 (A1 & B1 & C1) (A2 & B2 & C2). repeat split; auto.
Qed.

Lemma stable_ret : forall (A : Type) (a : A), stable (ret a).
Proof. intros A a w o w' H. inversion H; subst. apply keeps_refl. Qed.

Lemma stable_throw : forall (A : Type) (e : string), stable (@throw A e).
Proof. intros A e w o w' H. inversion H; subst. apply keeps_refl. Qed.

Lemma stable_gets : forall (A : Type) (f : World -> A), stable (gets f).
Proof. intros A f w o w' H. inversion H; subst. apply keeps_refl. Qed.

Lemma stable_bind :
  forall (A B : Type) (m : M A) (k : A -> M B),
    stable m -> (forall a, stable (k a)) -> stable (bind m k).
Proof.
  intros A B m k Hm Hk w o w' H. unfold bind in H.
  destruct (m w) as [[a | e] w1] eqn:E.
  - apply keeps_trans with w1; [exact (Hm _ _ _ E) | exact (Hk a _ _ _ H)].
  - inversion H; subst. exact (Hm _ _ _ E).
Qed.

Lemma stable_try_catch :
  forall (m : M unit) (h : string -> M unit),
    stable m -> (forall e, stable (h e)) -> stable (try_catch m h).
Proof.
  intros m h Hm Hh w o w' H. unfold try_catch in H.
  destruct (m w) as [[a | e] w1] eqn:E.
  - inversion H; subst. exact (Hm _ _ _ E).
  - apply keeps_trans with w1; [exact (Hm _ _ _ E) | exact (Hh e _ _ _ H)].
Qed.

Lemma stable_try_finally :
  forall (A : Type) (m : M A) (final : M unit),
    stable m -> stable final -> stable (try_finally m final).
Proof.
  intros A m final Hm Hf w o w' H. unfold try_finally in H.
  destruct (m w) as [[a | e] w1] eqn:E;
    destruct (final w1) as [[u | e'] w2] eqn:F;
    inversion H; subst;
    (apply keeps_trans with w1; [exact (Hm _ _ _ E) | exact (Hf _ _ _ F)]).
Qed.

Lemma stable_modify :
  forall f : World -> World,
    (forall w, keeps w (f w)) -> stable (modify f).
Proof. intros f Hf w o w' H. inversion H; subst. apply Hf. Qed.

(** A write that leaves the three cells alone. *)
Lemma stable_modify_same :
  forall f : World -> World,
    (forall w, currentLocation (state (f w)) = currentLocation (state w)
               /\ destination (state (f w)) = destination (state w)
               /\ isNavigating (state (f w)) = isNavigating (state w)) ->
    stable (modify f).
Proof.
  intros f Hf. apply stable_modify. intros w.
  destruct (Hf w) as (A & B & C). unfold keeps. rewrite A, B, C. auto.
Qed.

Lemma stable_setInterval : forall cl, stable (setInterval cl).
Proof.
  intros cl w o w' H. inversion H; subst. repeat split; cbn; auto.
Qed.

Lemma stable_setCurrentLocation :
  forall c : Coord, stable (setCurrentLocation (Some c)).
Proof.
  intros c. apply stable_modify. intros w.
  repeat split; cbn; auto; discriminate.
Qed.

Lemma stable_setDestination :
  forall c : Coord, stable (setDestination (Some c)).
Proof.
  intros c. apply stable_modify. intros w.
  repeat split; cbn; auto; discriminate.
Qed.

Lemma stable_setIsNavigating_false : stable (setIsNavigating false).
Proof.
  apply stable_modify. intros w. repeat split; cbn; auto; discriminate.
Qed.

Create HintDb stable discriminated.

#[local] Hint Resolve stable_ret stable_throw stable_gets stable_setInterval
  stable_setCurrentLocation stable_setDestination stable_setIsNavigating_false
  : stable.

(** Takes a piece of handler code apart along its binds and branches. *)
Ltac stable_step :=
  match goal with
  | |- stable (bind _ _) => apply stable_bind; [| intros ?]
  | |- stable (try_catch _ _) => apply stable_try_catch; [| intros ?]
  | |- stable (try_finally _ _) => apply stable_try_finally
  | |- stable (if ?b then _ else _) => destruct b
  | |- stable (match ?x with _ => _ end) => destruct x
  | |- stable (modify _) =>
      apply stable_modify_same; intros ?; repeat split; reflexivity
  | |- stable _ => solve [auto with stable]
  end.

Ltac stable_auto := repeat stable_step.

Lemma stable_fetchRoute :
  forall cap start end_, stable (fetchRoute cap start end_).
Proof.
  intros. unfold fetchRoute, isMounted_current, await. stable_auto.
Qed.

Lemma stable_fetchRoute_resume :
  forall cap start end_ r, stable (fetchRoute_resume cap start end_ r).
Proof.
  intros. unfold fetchRoute_resume, isMounted_current, cameraRef_current,
    setRoute, setRouteInfo, setSteps, camera_do, console_error.
  stable_auto.
Qed.

Lemma stable_fetchSuggestions : forall input, stable (fetchSuggestions input).
Proof.
  intros. unfold fetchSuggestions, isMounted_current, setSuggestions, await.
  stable_auto.
Qed.

Lemma stable_fetchSuggestions_resume :
  forall r, stable (fetchSuggestions_resume r).
Proof.
  intros. unfold fetchSuggestions_resume, isMounted_current, setSuggestions,
    console_error.
  stable_auto.
Qed.

Lemma stable_position_begin : stable getCurrentPositionSafe_begin.
Proof. unfold getCurrentPositionSafe_begin. stable_auto. Qed.

Lemma stable_position_end : forall r, stable (getCurrentPositionSafe_end r).
Proof.
  intros. unfold getCurrentPositionSafe_end, console_log, console_error.
  stable_auto.
Qed.

#[local] Hint Resolve stable_fetchRoute stable_position_begin
  stable_position_end : stable.

Lemma stable_stopNavigation : stable stopNavigation.
Proof.
  unfold stopNavigation, isMounted_current, setCurrentStepIndex, setRoute,
    setSteps, setRouteInfo, clearInterval, await.
  stable_auto.
Qed.

Lemma stable_stopNavigation_resume :
  forall r, stable (stopNavigation_resume r).
Proof.
  intros. unfold stopNavigation_resume, isMounted_current, cameraRef_current,
    setCurrentHeading, camera_do.
  stable_auto.
Qed.

Lemma stable_handleStepChange :
  forall nav j, stable (handleStepChange nav j).
Proof.
  intros. unfold handleStepChange, cameraRef_current, setCurrentStepIndex,
    camera_do.
  stable_auto.
Qed.

#[local] Hint Resolve stable_stopNavigation stable_handleStepChange : stable.

Lemma stable_updateNavigation :
  forall cl location, stable (updateNavigation' cl location).
Proof.
  intros. unfold updateNavigation, cameraRef_current, isMounted_current,
    updateRouteInfo.
  stable_auto.
Qed.

#[local] Hint Resolve stable_updateNavigation : stable.

Lemma stable_tick : forall cl, stable (tick cl).
Proof. intros. unfold tick, isMounted_current, await. stable_auto. Qed.

Lemma stable_tick_resume : forall cl r, stable (tick_resume' cl r).
Proof.
  intros. unfold tick_resume, isMounted_current, cameraRef_current,
    setCurrentHeading, camera_do.
  stable_auto.
Qed.

Lemma stable_startNavigationTracking :
  forall cl, stable (startNavigationTracking cl).
Proof.
  intros. unfold startNavigationTracking, clearInterval. stable_auto.
Qed.

Lemma stable_getCurrentLocation : stable getCurrentLocation.
Proof. unfold getCurrentLocation, await. stable_auto. Qed.

Lemma stable_getCurrentLocation_resume :
  forall r, stable (getCurrentLocation_resume r).
Proof.
  intros. unfold getCurrentLocation_resume, isMounted_current,
    setCurrentHeading, setLoading.
  stable_auto.
Qed.

Lemma keeps_endpoints :
  forall w w', keeps w w' ->
    navigating_has_endpoints w -> navigating_has_endpoints w'.
Proof.
  intros w w' (A & B & C) H Hn. destruct (H (C Hn)). split; auto.
Qed.

Lemma commit_endpoints :
  forall w, navigating_has_endpoints w -> navigating_has_endpoints (commit w).
Proof.
  intros w H. unfold navigating_has_endpoints. rewrite state_commit. exact H.
Qed.

Lemma startNavigation_endpoints :
  forall w,
    navigating_has_endpoints w ->
    navigating_has_endpoints (exec (startNavigation (state w)) w).
Proof.
  intros w H.
  unfold exec, startNavigation, bind, cameraRef_current, gets.
  destruct (currentLocation (state w)) as [c |] eqn:Ec; [| exact H].
  destruct (destination (state w)) as [d |] eqn:Ed; [| exact H].
  destruct (cameraRef (refs w)); [| exact H].
  intros _. cbn. rewrite Ec, Ed. split; discriminate.
Qed.

Lemma handler_endpoints :
  forall (ev : Event) (w : World) (m : M unit),
    handler Math_sin Math_cos Math_atan2 ev w = Some m ->
    navigating_has_endpoints w ->
    navigating_has_endpoints (exec m w).
Proof.
  intros ev w m Hh Hinv.
  assert (by_stable : stable m -> navigating_has_endpoints (exec m w)).
  { intros Hs. unfold exec. destruct (m w) as [o w'] eqn:E.
    exact (keeps_endpoints w w' (Hs w o w' E) Hinv). }
  destruct ev; cbn in Hh.
  - (* Mount *)
    inversion Hh; subst. apply by_stable.
    unfold console_error, setLoading. pose proof stable_getCurrentLocation.
    stable_auto.
  - (* Unmount *)
    inversion Hh; subst. apply by_stable. unfold clearInterval. stable_auto.
  - (* CameraRef *)
    inversion Hh; subst. apply by_stable. stable_auto.
  - (* ChangeText *)
    destruct (negb (loading (state w)) && negb (isNavigating (state w)));
      [| discriminate].
    inversion Hh; subst. apply by_stable. unfold setQuery.
    pose proof (stable_fetchSuggestions text). stable_auto.
  - (* PressSuggestion *)
    destruct (nth_error (suggestions (state w)) i) as [item |];
      [| discriminate].
    destruct (negb (loading (state w))); [| discriminate].
    inversion Hh; subst. apply by_stable.
    unfold isMounted_current, setQuery, setSuggestions. stable_auto.
  - (* TouchStart *)
    destruct (negb (loading (state w))); [| discriminate].
    inversion Hh; subst. apply by_stable. unfold setIsMapInteracting.
    stable_auto.
  - (* TouchEnd *)
    destruct (negb (loading (state w))); [| discriminate].
    inversion Hh; subst. apply by_stable. unfold setIsMapInteracting.
    stable_auto.
  - (* PressStart *)
    destruct (negb (loading (state w)) && negb (isNavigating (state w))
              && is_some (destination (state w))); [| discriminate].
    inversion Hh; subst. apply startNavigation_endpoints. assumption.
  - (* PressStop *)
    destruct (negb (loading (state w)) && isNavigating (state w));
      [| discriminate].
    inversion Hh; subst. apply by_stable. apply stable_stopNavigation.
  - (* EffectFetchRoute *)
    destruct (is_some (currentLocation (state w))
              && is_some (destination (state w))); [| discriminate].
    inversion Hh; subst. apply by_stable. apply stable_fetchRoute.
  - (* EffectTracking *)
    destruct (isNavigating (state w) && is_some (currentLocation (state w))
              && is_some (destination (state w))); [| discriminate].
    inversion Hh; subst. apply by_stable. apply stable_startNavigationTracking.
  - (* Tick *)
    destruct (find_timer id (timers w)) as [cl |]; [| discriminate].
    inversion Hh; subst. apply by_stable. apply stable_tick.
  - (* Settle *)
    destruct (nth_error (inflight w) i) as [k |]; [| discriminate].
    destruct (resume_with' k r) as [m' |] eqn:E; [| discriminate].
    inversion Hh; subst. apply by_stable.
    apply stable_bind;
      [ apply stable_modify_same; intros ?; repeat split; reflexivity
      | intros _ ].
    destruct k, r; try discriminate; cbn in E; inversion E; subst.
    + apply stable_fetchRoute_resume.
    + apply stable_fetchSuggestions_resume.
    + apply stable_getCurrentLocation_resume.
    + apply stable_tick_resume.
    + apply stable_stopNavigation_resume.
  - (* MountAndroid *)
    inversion Hh; subst. apply by_stable. unfold await. stable_auto.
  - (* PermissionSettles *)
    destruct (nth_error (inflight w) i) as [[] |]; try discriminate.
    inversion Hh; subst. apply by_stable.
    apply stable_bind;
      [ apply stable_modify_same; intros ?; repeat split; reflexivity
      | intros _ ].
    unfold console_error, setLoading. pose proof stable_getCurrentLocation.
    stable_auto.
Qed.

Lemma step_endpoints :
  forall (ev : Event) (w w' : World),
    step' ev w = Some w' ->
    navigating_has_endpoints w -> navigating_has_endpoints w'.
Proof.
  intros ev w w' H Hinv. unfold step in H.
  destruct (handler Math_sin Math_cos Math_atan2 ev w) as [m |] eqn:E;
    [| discriminate].
  inversion H; subst.
  unfold navigating_has_endpoints. rewrite state_settled.
  exact (handler_endpoints ev w m E Hinv).
Qed.

(** C3, as the code has it. In every reachable state, navigating implies
    that a destination and a current location are set: these are what
    [startNavigation] checks before it raises the flag, and nothing ever
    resets them. *)
Theorem navigating_implies_endpoints :
  forall w : World,
    reachable' w ->
    isNavigating (state w) = true ->
    destination (state w) <> None /\ currentLocation (state w) <> None.
Proof.
  intros w Hr. change (navigating_has_endpoints w).
  induction Hr as [| w ev w' Hr IH Hstep].
  - intros H. discriminate H.
  - exact (step_endpoints ev w w' Hstep IH).
Qed.

Lemma run_reachable :
  forall (evs : list Event) (w w' : World),
    reachable' w ->
    run Math_sin Math_cos Math_atan2 evs w = Some w' ->
    reachable' w'.
Proof.
  intros evs. induction evs as [| ev evs IH]; intros w w' Hr H; cbn in H.
  - inversion H; subst. assumption.
  - destruct (step' ev w) as [w1 |] eqn:E; [| discriminate].
    apply (IH w1 w'); [| assumption].
    exact (reachable_step _ _ _ w ev w1 Hr E).
Qed.

End Properties.

(** ** The properties on the example worlds *)

Lemma world_after_reachable :
  forall (evs : list Event) (w : World),
    run_engine evs initialWorld = Some w ->
    reachable sin' cos' atan2' w.
Proof.
  intros evs w H.
  exact (run_reachable sin' cos' atan2' evs initialWorld w
           (reachable_init sin' cos' atan2') H).
Qed.

Lemma startNavigation_without_endpoints_witness :
  startNavigation initialState initialWorld = (Done tt, initialWorld).
Proof.
  apply startNavigation_without_endpoints. left. reflexivity.
Defined.

Lemma fetchRoute_success_witness :
  route (state (exec (fetchRoute_resume initialState (13.4, 52.5) (13.41, 52.52)
                        (Body (mkDirections (Some [toMuseum]))))
                     initialWorld))
  = Some (geometry toMuseum).
Proof.
  exact (proj1 (fetchRoute_success initialState (13.4, 52.5) (13.41, 52.52)
                  toMuseum [] _ [] initialWorld eq_refl eq_refl)).
Defined.

(** [fetchRoute] never writes the step index, whatever the response. *)
Lemma fetchRoute_resume_index :
  forall (cap : State) (start end_ : Coord) (r : Http DirectionsData)
         (w : World),
    currentStepIndex (state (exec (fetchRoute_resume cap start end_ r) w))
    = currentStepIndex (state w).
Proof.
  intros cap start end_ r w.
  unfold exec, fetchRoute_resume, try_catch, bind, isMounted_current,
    cameraRef_current, gets.
  destruct r as [e | [[[| rd rest] |]]]; try reflexivity.
  cbn [routes]. destruct (isMounted (refs w)); [| reflexivity].
  cbn. destruct (legs rd) as [| leg legs']; [reflexivity |].
  cbn. destruct (negb (isNavigating cap) && cameraRef (refs w)); reflexivity.
Qed.

(** The step index [handleStepChange] writes lies inside the step list it
    closes over. *)
Lemma handleStepChange_index :
  forall (nav : State) (j : Z) (w : World),
    let i := currentStepIndex (state (exec (handleStepChange nav j) w)) in
    i = currentStepIndex (state w)
    \/ (0 <= i < Z.of_nat (List.length (steps nav)))%Z.
Proof.
  intros nav j w.
  unfold exec, handleStepChange, bind, cameraRef_current, gets.
  destruct (Z.ltb_spec j 0) as [Hneg | Hpos]; [left; reflexivity |].
  destruct (Z.leb_spec (Z.of_nat (List.length (steps nav))) j)
    as [Hge | Hlt]; [left; reflexivity |].
  cbn [orb].
  destruct (currentLocation nav) as [c |]; [| left; reflexivity].
  destruct (negb (cameraRef (refs w))); [left; reflexivity |].
  right. cbn.
  destruct (nth_error (steps nav) (Z.to_nat j)) as [st |]; cbn.
  - unfold fetchRoute, bind, isMounted_current, gets. cbn.
    destruct (isMounted (refs w)); cbn; lia.
  - lia.
Qed.

(** C1 as stated fails: the re-route towards the turn is a successful
    fetch, it replaces the route and the step list, and the step index
    stays at 2. *)
Lemma fetchRoute_keeps_step_index :
  isMounted (refs (world_after secondAdvance)) = true
  /\ route (state (world_after rerouteArrives)) = Some (geometry toTurn)
  /\ List.length (steps (state (world_after rerouteArrives))) = 2%nat
  /\ currentStepIndex (state (world_after secondAdvance)) = 2%Z
  /\ currentStepIndex (state (world_after rerouteArrives)) <> 0%Z.
Proof.
  vm_compute. repeat split; try reflexivity; discriminate.
Qed.

(** C2 fails on the code: after the two advances and the arrival of the
    first re-route, the screen is navigating with two steps and the step
    index 2, so that [steps[currentStepIndex]] is undefined. *)
Theorem reroute_leaves_index_out_of_range :
  reachable sin' cos' atan2' (world_after rerouteArrives)
  /\ isNavigating (state (world_after rerouteArrives)) = true
  /\ List.length (steps (state (world_after rerouteArrives))) = 2%nat
  /\ currentStepIndex (state (world_after rerouteArrives)) = 2%Z
  /\ nth_error (steps (state (world_after rerouteArrives)))
               (Z.to_nat (currentStepIndex (state (world_after rerouteArrives))))
     = None.
Proof.
  split.
  - apply (world_after_reachable rerouteArrives). vm_compute. reflexivity.
  - vm_compute. repeat split; reflexivity.
Qed.

(** C3 as stated fails: a reachable state that is navigating and has no
    route. *)
Lemma navigating_without_route :
  ~ (forall w : World,
        reachable sin' cos' atan2' w ->
        isNavigating (state w) = true ->
        route (state w) <> None /\ destination (state w) <> None).
Proof.
  intros H.
  destruct (H (world_after startedWithoutRoute)) as [Hroute _].
  - apply (world_after_reachable startedWithoutRoute). vm_compute. reflexivity.
  - vm_compute. reflexivity.
  - apply Hroute. vm_compute. reflexivity.
Qed.

Lemma navigating_implies_endpoints_witness :
  destination (state (world_after startedWithoutRoute)) <> None
  /\ currentLocation (state (world_after startedWithoutRoute)) <> None.
Proof.
  apply (navigating_implies_endpoints sin' cos' atan2').
  - apply (world_after_reachable startedWithoutRoute). vm_compute. reflexivity.
  - vm_compute. reflexivity.
Defined.

(** C5 as stated fails. With one suggestion on display, a geocoding
    response with an empty feature list empties the suggestion list; and a
    directions response whose route has no legs throws and is logged after
    the route and the panel were replaced. *)
Lemma failed_fetch_changes_state :
  (List.length (suggestions (state (world_after searchedTwice))) = 1%nat
   /\ suggestions
        (state (exec (fetchSuggestions_resume (Body (mkGeocoding (Some []))))
                     (world_after searchedTwice)))
      = [])
  /\ (route (state (world_after destinationChosen)) = None
      /\ routeInfo (state (world_after destinationChosen)) = noRouteInfo
      /\ destination (state (world_after destinationChosen))
         = Some (13.41, 52.52)
      /\ route
           (state (exec (fetchRoute_resume initialState (13.4, 52.5)
                           (13.41, 52.52)
                           (Body (mkDirections (Some [noLegs]))))
                        (world_after destinationChosen)))
         = Some (geometry noLegs)
      /\ routeInfo
           (state (exec (fetchRoute_resume initialState (13.4, 52.5)
                           (13.41, 52.52)
                           (Body (mkDirections (Some [noLegs]))))
                        (world_after destinationChosen)))
         = routeInfo_of noLegs
      /\ List.length
           (console
              (exec (fetchRoute_resume initialState (13.4, 52.5)
                       (13.41, 52.52)
                       (Body (mkDirections (Some [noLegs]))))
                    (world_after destinationChosen)))
         = 1%nat).
Proof.
  vm_compute. repeat split; reflexivity.
Qed.

Lemma settle_after_teardown_witness :
  state (world_after (leftDuringTick ++ [Settle 2 (LocationReply here)]))
  = state (world_after leftDuringTick).
Proof.
  apply (settle_after_teardown sin' cos' atan2' 2 (LocationReply here)
           (world_after leftDuringTick)).
  - vm_compute. reflexivity.
  - vm_compute. reflexivity.
Defined.


Lemma tick_at_last_step_stops_example :
  isNavigating
    (state (exec (tick_resume sin' cos' atan2'
                    (closure_of 4 (world_after secondAdvance))
                    (Position 13.41 52.52 90))
                 (world_after secondAdvance)))
  = false.
Proof.
  refine (proj1 (tick_at_last_step_stops sin' cos' atan2'
                   (closure_of 4 (world_after secondAdvance))
                   13.41 52.52 90
                   (step_at "You have arrived" (13.41, 52.52) 0 0)
                   (world_after secondAdvance) _ _ _ _ _ _));
    vm_compute; try reflexivity.
  discriminate.
Defined.

(** C4 fails on the code. The state is navigating, on a mounted screen with
    its camera, with the two steps of the re-route of which the second and
    last is active; a tick is waiting for its position, and that position
    is the maneuver of the last step, 0 m away. The tick still holds the
    three steps of the previous route, takes its second step for the active
    one and advances: the screen is left navigating with the index 2 in a
    list of two steps, route and steps in place, and the render that follows
    throws, which removes the screen. *)
Theorem stale_tick_at_last_step_advances :
  reachable sin' cos' atan2' (world_after staleTick)
  /\ (isNavigating (state (world_after staleTick)) = true
      /\ isMounted (refs (world_after staleTick)) = true
      /\ cameraRef (refs (world_after staleTick)) = true
      /\ List.length (steps (state (world_after staleTick))) = 2%nat
      /\ currentStepIndex (state (world_after staleTick)) = 1%Z
      /\ nth_error (steps (state (world_after staleTick))) 1
         = Some (step_at "You have arrived" (13.4001, 52.5001) 0 0)
      /\ (calculateDistance sin' cos' atan2' (13.4001, 52.5001)
            (13.4001, 52.5001) <? 0.03) = true)
  /\ match nth_error (inflight (world_after staleTick)) 1 with
     | Some (KTick cl) =>
         List.length (steps (cl_render cl)) = 3%nat
         /\ currentStepIndex (cl_render cl) = 1%Z
     | _ => False
     end
  /\ (step sin' cos' atan2' (Settle 1 (LocationReply atTheTurn))
           (world_after staleTick)
      = Some (world_after staleTickArrives)
      /\ isNavigating (state (world_after staleTickArrives)) = true
      /\ route (state (world_after staleTickArrives)) = Some (geometry toTurn)
      /\ List.length (steps (state (world_after staleTickArrives))) = 2%nat
      /\ currentStepIndex (state (world_after staleTickArrives)) = 2%Z
      /\ render (state (world_after staleTickArrives))
         = Thrown "TypeError: Cannot read property 'maneuver' of undefined"
      /\ isMounted (refs (world_after staleTickArrives)) = false).
Proof.
  split; [| split; [| split]].
  - apply (world_after_reachable staleTick). vm_compute. reflexivity.
  - vm_compute. repeat split; reflexivity.
  - vm_compute. split; reflexivity.
  - vm_compute. repeat split; reflexivity.
Qed.


(** The sine of the example engine is odd. *)
Lemma is_zero_opp : forall x : number, PrimFloat.is_zero (- x) = PrimFloat.is_zero x.
Proof.
  intros x. unfold PrimFloat.is_zero. rewrite !eqb_spec, opp_spec.
  destruct (Prim2SF x) as [[|] | [|] | | [|] m e]; reflexivity.
Qed.

Lemma engine_sin_odd : forall x : number, sin' (- x) = - sin' x.
Proof.
  intros x. unfold Engine.Math_sin. rewrite is_zero_opp.
  destruct (PrimFloat.is_zero x); [reflexivity |].
  rewrite mul_opp_opp. apply mul_opp_l.
Qed.

Lemma calculateDistance_symmetric_and_zero_witness :
  calculateDistance sin' cos' atan2' (13.4, 52.5) (13.41, 52.52)
  = calculateDistance sin' cos' atan2' (13.41, 52.52) (13.4, 52.5)
  /\ calculateDistance sin' cos' atan2' (13.4, 52.5) (13.4, 52.5) = 0.
Proof.
  destruct (calculateDistance_symmetric_and_zero sin' cos' atan2'
              engine_sin_odd) as [Hsym Hzero].
  split.
  - exact (proj1 (Hsym (13.4, 52.5) (13.41, 52.52))).
  - apply Hzero; vm_compute; reflexivity.
Defined.

(** C8 as stated fails where the distance is NaN. The points (0, 69.3) and
    (180, -69.3), almost opposite each other on the globe, have finite
    coordinates in range; rounding makes [a] exceed 1, the root of [1 - a]
    is NaN and so is the distance, in both orders: the two results are the
    same value, and [==] does not hold between them. *)
Lemma calculateDistance_nan_not_equal :
  Number_isFinite 69.3 = true
  /\ Number_isFinite 180 = true
  /\ PrimFloat.is_nan (calculateDistance sin' cos' atan2' (0, 69.3) (180, -69.3))
     = true
  /\ PrimFloat.is_nan (calculateDistance sin' cos' atan2' (180, -69.3) (0, 69.3))
     = true
  /\ (calculateDistance sin' cos' atan2' (0, 69.3) (180, -69.3)
      =? calculateDistance sin' cos' atan2' (180, -69.3) (0, 69.3)) = false.
Proof. vm_compute. repeat split; reflexivity. Qed.

(** *** Durations *)

(** The two renderings the spec gives. *)
Lemma formatDuration_examples :
  formatDuration 90 = "01:30" /\ formatDuration 5 = "00:05".
Proof. split; vm_compute; reflexivity. Qed.

(** C9 fails on the code: 59.5 minutes, which is what a route of 3570
    seconds gives, is rendered with a minutes field of 60. *)
Theorem formatDuration_sixty_minutes :
  formatDuration 59.5 = "00:60"
  /\ formatDuration (3570 / 60) = "00:60"
  /\ info_duration (routeInfo_of (mkRouteData [] 90000 3570 [])) = Some "00:60".
Proof. repeat split; vm_compute; reflexivity. Qed.

(** X24. On a whole number of minutes below a day [formatDuration] renders
    hh:mm, two digits each, with the minutes below 60. *)
Lemma formatDuration_whole_minutes :
  forall n : nat,
    (n < 24 * 60)%nat ->
    formatDuration (of_int (Z.of_nat n))
    = (two_digits (n / 60) ++ ":" ++ two_digits (n mod 60))%string.
Proof.
  assert (H : forallb whole_minutes_ok (seq 0 (24 * 60)) = true)
    by (vm_compute; reflexivity).
  intros n Hn. rewrite forallb_forall in H.
  apply String.eqb_eq. apply (H n). apply in_seq. lia.
Qed.

(** *** The earlier variant *)

(** X26. In the earlier variant too the rest of [fetchRoute] leaves the
    step index alone, whatever the reply. *)
Lemma earlier_fetchRoute_index :
  forall (r : Http DirectionsData) (w : EarlierScreen.World),
    EarlierScreen.currentStepIndex
      (EarlierScreen.state (EarlierScreen.fetchRoute_resume r w))
    = EarlierScreen.currentStepIndex (EarlierScreen.state w).
Proof.
  intros r w. unfold EarlierScreen.fetchRoute_resume.
  destruct r as [e | [[[| rd rest] |]]]; try reflexivity.
  cbn [routes]. destruct (EarlierScreen.isMounted w); [| reflexivity].
  destruct (legs rd); reflexivity.
Qed.

(** X25. In the earlier variant [startNavigation], with both endpoints on
    a mounted screen, raises the flag, resets the index and only then asks
    for the route: right after it the route is what it was, [null] on a
    first start, and one request between the endpoints is pending. *)
Lemma earlier_startNavigation_route :
  forall (w : EarlierScreen.World) (c d : Coord),
    EarlierScreen.currentLocation (EarlierScreen.state w) = Some c ->
    EarlierScreen.destination (EarlierScreen.state w) = Some d ->
    EarlierScreen.isMounted w = true ->
    let w' := EarlierScreen.startNavigation w in
    EarlierScreen.isNavigating (EarlierScreen.state w') = true
    /\ EarlierScreen.currentStepIndex (EarlierScreen.state w') = 0%Z
    /\ EarlierScreen.route (EarlierScreen.state w')
       = EarlierScreen.route (EarlierScreen.state w)
    /\ EarlierScreen.pending w' = (EarlierScreen.pending w ++ [(c, d)])%list.
Proof.
  intros w c d Hc Hd Hm. unfold EarlierScreen.startNavigation.
  rewrite Hc, Hd, Hm. unfold EarlierScreen.fetchRoute. cbn.
  rewrite Hm. cbn. repeat split; reflexivity.
Qed.

(** ** Further properties *)

(** *** Handler code and relations between worlds *)

#[local] Instance preserves_preorder (I : World -> Prop) : PreOrder (preserves I).
Proof.
  split.
  - intros w H. exact H.
  - intros a b c Hab Hbc H. exact (Hbc (Hab H)).
Qed.

#[local] Instance same_destination_preorder : PreOrder same_destination.
Proof.
  split.
  - intros w. reflexivity.
  - intros a b c Hab Hbc. unfold same_destination in *. congruence.
Qed.

#[local] Instance flag_not_raised_preorder : PreOrder flag_not_raised.
Proof.
  split.
  - intros w H. exact H.
  - intros a b c Hab Hbc H. exact (Hab (Hbc H)).
Qed.

Section Respects.

Context (R : World -> World -> Prop) `{!PreOrder R}.

Lemma respects_ret : forall (A : Type) (a : A), respects R (ret a).
Proof. intros A a w o w' H. inversion H; subst. reflexivity. Qed.

Lemma respects_throw : forall (A : Type) (e : string), respects R (@throw A e).
Proof. intros A e w o w' H. inversion H; subst. reflexivity. Qed.

Lemma respects_gets : forall (A : Type) (f : World -> A), respects R (gets f).
Proof. intros A f w o w' H. inversion H; subst. reflexivity. Qed.

Lemma respects_bind :
  forall (A B : Type) (m : M A) (k : A -> M B),
    respects R m -> (forall a, respects R (k a)) -> respects R (bind m k).
Proof.
  intros A B m k Hm Hk w o w' H. unfold bind in H.
  destruct (m w) as [[a | e] w1] eqn:E.
  - transitivity w1; [exact (Hm _ _ _ E) | exact (Hk a _ _ _ H)].
  - inversion H; subst. exact (Hm _ _ _ E).
Qed.

Lemma respects_try_catch :
  forall (m : M unit) (h : string -> M unit),
    respects R m -> (forall e, respects R (h e)) -> respects R (try_catch m h).
Proof.
  intros m h Hm Hh w o w' H. unfold try_catch in H.
  destruct (m w) as [[a | e] w1] eqn:E.
  - inversion H; subst. exact (Hm _ _ _ E).
  - transitivity w1; [exact (Hm _ _ _ E) | exact (Hh e _ _ _ H)].
Qed.

Lemma respects_try_finally :
  forall (A : Type) (m : M A) (final : M unit),
    respects R m -> respects R final -> respects R (try_finally m final).
Proof.
  intros A m final Hm Hf w o w' H. unfold try_finally in H.
  destruct (m w) as [[a | e] w1] eqn:E;
    destruct (final w1) as [[u | e'] w2] eqn:F;
    inversion H; subst;
    (transitivity w1; [exact (Hm _ _ _ E) | exact (Hf _ _ _ F)]).
Qed.

Lemma respects_modify :
  forall f : World -> World, (forall w, R w (f w)) -> respects R (modify f).
Proof. intros f Hf w o w' H. inversion H; subst. apply Hf. Qed.

Lemma respects_setInterval :
  forall cl,
    (forall w, R w (with_timers ((nextTimer w, cl) :: timers w)
                                (S (nextTimer w)) w)) ->
    respects R (setInterval cl).
Proof. intros cl Hf w o w' H. inversion H; subst. apply Hf. Qed.

Lemma respects_exec :
  forall (A : Type) (m : M A) (w : World), respects R m -> R w (exec m w).
Proof.
  intros A m w H. unfold exec. destruct (m w) as [o w'] eqn:E.
  exact (H w o w' E).
Qed.

End Respects.

Lemma preserves_exec :
  forall (I : World -> Prop) (A : Type) (m : M A) (w : World),
    respects (preserves I) m -> I w -> I (exec m w).
Proof.
  intros I A m w H Hw. unfold exec. destruct (m w) as [o w'] eqn:E.
  exact (H w o w' E Hw).
Qed.

Create HintDb respects discriminated.

Ltac head_of t :=
  match t with
  | ?f _ => head_of f
  | _ => t
  end.

(** Takes handler code apart along its binds and branches. A function of
    the screen is first looked up among the lemmas already proved for the
    relation and opened otherwise; a write is tried as one that leaves
    alone what the relation looks at. *)
Ltac respects_step :=
  match goal with
  | |- respects _ _ => solve [auto with respects]
  | |- respects _ (bind _ _) => apply respects_bind; [exact _ | | intros ?]
  | |- respects _ (try_catch _ _) =>
      apply respects_try_catch; [exact _ | | intros ?]
  | |- respects _ (try_finally _ _) =>
      apply respects_try_finally; [exact _ | |]
  | |- respects _ (ret _) => apply respects_ret; exact _
  | |- respects _ (throw _) => apply respects_throw; exact _
  | |- respects _ (gets _) => apply respects_gets; exact _
  | |- respects _ (if ?b then _ else _) => destruct b
  | |- respects _ (match ?x with _ => _ end) => destruct x
  | |- respects _ (modify _) =>
      apply respects_modify; intros ?;
      first [ reflexivity | (intros ?; assumption) ]
  | |- respects _ (setInterval _) =>
      apply respects_setInterval; intros ?;
      first [ reflexivity | (intros ?; assumption) ]
  | |- respects _ ?m => let h := head_of m in progress unfold h
  end.

Ltac respects_auto := repeat respects_step.

Section Coverage.

Variables Math_sin Math_cos : number -> number.
Variable Math_atan2 : number -> number -> number.

Local Abbreviation step' := (step Math_sin Math_cos Math_atan2).
Local Abbreviation handler' := (handler Math_sin Math_cos Math_atan2).
Local Abbreviation reachable' := (reachable Math_sin Math_cos Math_atan2).
Local Abbreviation updateNavigation' :=
  (updateNavigation Math_sin Math_cos Math_atan2).
Local Abbreviation tick_resume' := (tick_resume Math_sin Math_cos Math_atan2).
Local Abbreviation distance_km := (calculateDistance Math_sin Math_cos Math_atan2).
Local Abbreviation resume_with' := (resume_with Math_sin Math_cos Math_atan2).

(** The cases of [handler]: for each event that can happen, its code. *)
Ltac handler_case H :=
  cbn [handler] in H;
  repeat match type of H with
    | (if ?b then _ else _) = _ => destruct b eqn:?
    | match ?x with _ => _ end = _ => destruct x eqn:?
    end;
  try discriminate H; inversion H; subst; clear H;
  try match goal with
      | E : resume_with _ _ _ ?k ?r = Some _ |- _ =>
          destruct k, r; try discriminate E;
          cbn [resume_with] in E; inversion E; subst; clear E
      end.

Ltac handler_cases H :=
  match type of H with
  | handler _ _ _ ?ev _ = Some _ => destruct ev; handler_case H
  end.

(** A reachable state is one every step keeps. *)
Lemma reachable_invariant :
  forall I : World -> Prop,
    I initialWorld ->
    (forall ev w w', I w -> step' ev w = Some w' -> I w') ->
    forall w, reachable' w -> I w.
Proof.
  intros I H0 Hstep w Hr. induction Hr as [| w ev w' Hr IH Hs].
  - exact H0.
  - exact (Hstep ev w w' IH Hs).
Qed.

Lemma step_respects :
  forall (R : World -> World -> Prop) (ev : Event) (w w' : World) (m : M unit),
    PreOrder R ->
    (forall u v, R v (rendered u (commit v))) ->
    handler' ev w = Some m ->
    respects R m ->
    step' ev w = Some w' ->
    R w w'.
Proof.
  intros R ev w w' m HR Hc Hh Hm Hs. unfold step in Hs. rewrite Hh in Hs.
  inversion Hs; subst. transitivity (exec m w).
  - apply respects_exec; assumption.
  - apply Hc.
Qed.

(** *** Who writes the destination *)

Lemma handler_same_destination :
  forall (ev : Event) (w : World) (m : M unit),
    handler' ev w = Some m ->
    (forall i, ev <> PressSuggestion i) ->
    respects same_destination m.
Proof.
  intros ev w m H Hev.
  handler_cases H; try (exfalso; eapply Hev; reflexivity); respects_auto.
Qed.

(** X1. The destination is written by the press on a suggestion and by
    nothing else: whatever else happens (ticks, re-routes towards a step,
    stopping, settling requests), it stays what it was. *)
Theorem destination_only_by_selection :
  forall (ev : Event) (w w' : World),
    step' ev w = Some w' ->
    (forall i, ev <> PressSuggestion i) ->
    destination (state w') = destination (state w).
Proof.
  intros ev w w' Hs Hev.
  destruct (handler' ev w) as [m |] eqn:Hh;
    [| unfold step in Hs; rewrite Hh in Hs; discriminate].
  apply (step_respects same_destination ev w w' m); try assumption.
  - exact _.
  - intros u v. unfold same_destination. rewrite state_settled. reflexivity.
  - exact (handler_same_destination ev w m Hh Hev).
Qed.

(** *** Who raises the navigation flag *)

Lemma lower_flag :
  respects flag_not_raised (setIsNavigating false).
Proof.
  apply respects_modify. intros w H. discriminate H.
Qed.

#[local] Hint Resolve lower_flag : respects.

Lemma handler_flag_not_raised :
  forall (ev : Event) (w : World) (m : M unit),
    handler' ev w = Some m ->
    ev <> PressStart ->
    respects flag_not_raised m.
Proof.
  intros ev w m H Hev.
  handler_cases H; try (exfalso; apply Hev; reflexivity); respects_auto.
Qed.

(** X2. Only the press on Start raises the navigation flag: a step that
    leaves the screen navigating either found it navigating or is that
    press, made with a current location, a destination and the camera. *)
Theorem navigation_starts_only_by_press :
  forall (ev : Event) (w w' : World),
    step' ev w = Some w' ->
    isNavigating (state w) = false ->
    isNavigating (state w') = true ->
    ev = PressStart
    /\ currentLocation (state w) <> None
    /\ destination (state w) <> None
    /\ cameraRef (refs w) = true.
Proof.
  intros ev w w' Hs Hoff Hon.
  destruct (handler' ev w) as [m |] eqn:Hh;
    [| unfold step in Hs; rewrite Hh in Hs; discriminate].
  assert (Hev : ev = PressStart).
  { assert (Hcases : ev = PressStart \/ ev <> PressStart)
      by (destruct ev; first [left; reflexivity | right; discriminate]).
    destruct Hcases as [E | Hne]; [exact E | exfalso].
    assert (Hr : flag_not_raised w w').
    { apply (step_respects flag_not_raised ev w w' m); try assumption.
      - exact _.
      - intros u v H. rewrite state_settled in H. exact H.
      - exact (handler_flag_not_raised ev w m Hh Hne). }
    rewrite (Hr Hon) in Hoff. discriminate. }
  subst ev. split; [reflexivity |].
  unfold step in Hs. rewrite Hh in Hs. inversion Hs; subst; clear Hs.
  rewrite state_settled in Hon.
  cbn [handler] in Hh.
  destruct (negb (loading (state w)) && negb (isNavigating (state w))
            && is_some (destination (state w))); [| discriminate].
  inversion Hh; subst; clear Hh.
  unfold exec, startNavigation, bind, cameraRef_current, gets in Hon.
  destruct (currentLocation (state w)) as [c |];
    [| cbn in Hon; congruence].
  destruct (destination (state w)) as [d |];
    [| cbn in Hon; congruence].
  destruct (cameraRef (refs w)); [| cbn in Hon; congruence].
  repeat split; discriminate.
Qed.

(** *** The step index from below *)

Lemma index_zero :
  respects (preserves index_not_negative) (setCurrentStepIndex 0%Z).
Proof.
  apply respects_modify. intros w _. unfold index_not_negative. cbn. lia.
Qed.

Lemma index_handleStepChange :
  forall nav j, respects (preserves index_not_negative) (handleStepChange nav j).
Proof.
  intros nav j w o w' E Hw. unfold index_not_negative in *.
  pose proof (handleStepChange_index nav j w) as H. cbv zeta in H.
  unfold exec in H. rewrite E in H. cbn [snd] in H. lia.
Qed.

#[local] Hint Resolve index_zero index_handleStepChange : respects.

(** X3. The step index is never negative, in any reachable state: it is
    written only as 0 and as an index [handleStepChange] has checked. *)
Theorem step_index_not_negative :
  forall w : World, reachable' w -> (0 <= currentStepIndex (state w))%Z.
Proof.
  apply (reachable_invariant index_not_negative).
  - unfold index_not_negative. cbn. lia.
  - intros ev w w' Hw Hs.
    destruct (handler' ev w) as [m |] eqn:Hh;
      [| unfold step in Hs; rewrite Hh in Hs; discriminate].
    apply (step_respects (preserves index_not_negative) ev w w' m);
      try assumption.
    + exact _.
    + intros u v H. unfold index_not_negative. rewrite state_settled. exact H.
    + clear Hs Hw. handler_cases Hh; respects_auto.
Qed.

(** *** Route, steps and the route panel *)

Local Abbreviation panel_ok := (fun w : World => route_panel_consistent (state w)).

Lemma panel_fetchRoute_resume :
  forall cap start end_ r,
    respects (preserves panel_ok) (fetchRoute_resume cap start end_ r).
Proof.
  intros cap start end_ r w o w' E Hw.
  assert (Hx : w' = exec (fetchRoute_resume cap start end_ r) w)
    by (unfold exec; rewrite E; reflexivity).
  subst w'. clear E. revert Hw.
  unfold exec, fetchRoute_resume, try_catch, bind, isMounted_current,
    cameraRef_current, gets, route_panel_consistent.
  destruct r as [e | [[[| rd rest] |]]]; try (intros H; exact H).
  cbn [routes]. destruct (isMounted (refs w)); [| intros H; exact H].
  intros _. cbn. destruct (legs rd) as [| leg legs'].
  - cbn. split; discriminate.
  - cbn. destruct (negb (isNavigating cap) && cameraRef (refs w)); cbn;
      split; discriminate.
Qed.

Lemma panel_stopNavigation : respects (preserves panel_ok) stopNavigation.
Proof.
  intros w o w' E Hw.
  assert (Hx : w' = exec stopNavigation w)
    by (unfold exec; rewrite E; reflexivity).
  subst w'. clear E. revert Hw.
  unfold exec, stopNavigation, bind, isMounted_current, gets,
    route_panel_consistent.
  destruct (isMounted (refs w)); [| intros H; exact H].
  intros _. cbn.
  destruct (locationInterval (refs w)); cbn;
    destruct (isLocationRequestPending (refs w)); cbn; repeat split.
Qed.

Lemma panel_updateRouteInfo :
  forall f : RouteInfo -> RouteInfo,
    (forall p, info_distance (f p) = info_distance p) ->
    (forall p, info_duration (f p) = info_duration p) ->
    respects (preserves panel_ok) (updateRouteInfo f).
Proof.
  intros f Hd Ht. apply respects_modify. intros w.
  unfold preserves, route_panel_consistent. cbn. rewrite Hd, Ht.
  intros H; exact H.
Qed.

#[local] Hint Resolve panel_fetchRoute_resume panel_stopNavigation : respects.
#[local] Hint Extern 1 (respects _ (updateRouteInfo _)) =>
  apply panel_updateRouteInfo; intros ?; reflexivity : respects.

(** X4. In every reachable state the totals of the route panel are there
    exactly when a route is, and a step list is there only with a route:
    [fetchRoute] writes the three together, [stopNavigation] clears them
    together, and a tick rewrites only the remaining values. *)
Theorem route_panel_invariant :
  forall w : World,
    reachable' w ->
    (route (state w) = None <-> info_distance (routeInfo (state w)) = None)
    /\ (route (state w) = None <-> info_duration (routeInfo (state w)) = None)
    /\ (route (state w) = None -> steps (state w) = []).
Proof.
  intros w Hr.
  assert (H : panel_ok w).
  { revert w Hr. apply (reachable_invariant panel_ok).
    - cbn. repeat split.
    - intros ev w w' Hw Hs.
      destruct (handler' ev w) as [m |] eqn:Hh;
        [| unfold step in Hs; rewrite Hh in Hs; discriminate].
      apply (step_respects (preserves panel_ok) ev w w' m); try assumption.
      + exact _.
      + intros u v H. cbn. rewrite state_settled. exact H.
      + clear Hs Hw. handler_cases Hh; respects_auto. }
  cbn in H. unfold route_panel_consistent in H.
  destruct (route (state w)) as [g |].
  - destruct H as [Hd Ht]. repeat split; intros; try discriminate;
      contradiction.
  - destruct H as (Hd & Ht & Hs). repeat split; auto.
Qed.

(** *** The poll timer *)

Lemma timer_clearInterval :
  forall id, respects (preserves poll_timer_owned) (clearInterval id).
Proof.
  intros id. apply respects_modify. intros w [Hone Hoff].
  unfold poll_timer_owned. cbn.
  split.
  - destruct Hone as [E | (id0 & cl & E & Href)]; rewrite E; cbn.
    + left; reflexivity.
    + destruct (Nat.eqb id0 id); cbn; [left; reflexivity |].
      right. exists id0, cl. split; [reflexivity | exact Href].
  - intros H. rewrite (Hoff H). reflexivity.
Qed.

Lemma timer_raise_flag :
  respects (preserves poll_timer_owned) (setIsNavigating true).
Proof.
  apply respects_modify. intros w [Hone Hoff]. split.
  - exact Hone.
  - intros H. discriminate H.
Qed.

Lemma timer_stopNavigation :
  respects (preserves poll_timer_owned) stopNavigation.
Proof.
  intros w o w' E [Hone Hoff].
  assert (Hx : w' = exec stopNavigation w)
    by (unfold exec; rewrite E; reflexivity).
  subst w'. clear E.
  unfold exec, stopNavigation, bind, isMounted_current, gets.
  destruct (isMounted (refs w)); [| split; assumption].
  unfold poll_timer_owned. cbn.
  destruct Hone as [E | (id0 & cl & E & Href)].
  - destruct (locationInterval (refs w)); cbn;
      destruct (isLocationRequestPending (refs w)); cbn; rewrite E;
      split; auto.
  - rewrite Href. cbn.
    destruct (isLocationRequestPending (refs w)); cbn; rewrite E; cbn;
      rewrite Nat.eqb_refl; cbn; split; auto.
Qed.

#[local] Hint Resolve timer_clearInterval timer_raise_flag
  timer_stopNavigation : respects.

Lemma timer_startNavigationTracking :
  forall (cl : Closure) (w : World),
    isNavigating (state w) = true ->
    poll_timer_owned w ->
    poll_timer_owned (exec (startNavigationTracking cl) w).
Proof.
  intros cl w Hnav [Hone Hoff].
  unfold exec, startNavigationTracking, bind, gets, clearInterval, modify,
    setInterval.
  unfold poll_timer_owned.
  destruct Hone as [E | (id0 & cl0 & E & Href)].
  - destruct (locationInterval (refs w)); cbn; rewrite E; cbn;
      (split; [right; eexists; eexists; split; reflexivity | congruence]).
  - rewrite Href. cbn. rewrite E. cbn. rewrite Nat.eqb_refl. cbn.
    split; [right; eexists; eexists; split; reflexivity | congruence].
Qed.

Lemma timer_cleanup : respects (preserves poll_timer_owned) cleanup.
Proof.
  unfold cleanup. respects_auto.
Qed.

Lemma timer_rendered :
  forall u v : World, poll_timer_owned v -> poll_timer_owned (rendered u v).
Proof.
  intros u v H. unfold rendered.
  destruct (negb (render_throws (state u)) && render_throws (state v));
    [| exact H].
  exact (preserves_exec poll_timer_owned _ cleanup v timer_cleanup H).
Qed.

Lemma timers_rendered_nil :
  forall u v : World, timers v = [] -> timers (rendered u v) = [].
Proof.
  intros u v H. unfold rendered.
  destruct (negb (render_throws (state u)) && render_throws (state v));
    [| exact H].
  unfold exec, cleanup, clearInterval, bind, gets, modify, ret. cbn.
  destruct (locationInterval (refs v)); cbn; rewrite H; reflexivity.
Qed.

Lemma step_poll_timer :
  forall (ev : Event) (w w' : World),
    poll_timer_owned w -> step' ev w = Some w' -> poll_timer_owned w'.
Proof.
  intros ev w w' Hw Hs.
  destruct (handler' ev w) as [m |] eqn:Hh;
    [| unfold step in Hs; rewrite Hh in Hs; discriminate].
  unfold step in Hs. rewrite Hh in Hs. inversion Hs; subst; clear Hs.
  assert (Hm : poll_timer_owned (exec m w)).
  { handler_cases Hh;
      try (apply preserves_exec; [solve [respects_auto] | assumption]).
    apply timer_startNavigationTracking; [| assumption].
    match goal with
    | E : (isNavigating (state w) && _ && _) = true |- _ =>
        apply andb_true_iff in E; destruct E as [E _];
        apply andb_true_iff in E; destruct E as [E _]; exact E
    end. }
  apply timer_rendered.
  destruct Hm as [Hone Hoff]. unfold commit.
  destruct (navDirty (exec m w)); split; assumption.
Qed.

Lemma reachable_poll_timer :
  forall w : World, reachable' w -> poll_timer_owned w.
Proof.
  apply (reachable_invariant poll_timer_owned).
  - split; [left; reflexivity | reflexivity].
  - intros ev w w' Hw Hs. exact (step_poll_timer ev w w' Hw Hs).
Qed.

(** X5. In every reachable state at most one poll interval is alive, it is
    the one [locationInterval] refers to, and none is alive while the
    screen is not navigating. *)
Theorem poll_timer_invariant :
  forall w : World,
    reachable' w ->
    (List.length (timers w) <= 1)%nat
    /\ (forall id cl, In (id, cl) (timers w) ->
                      locationInterval (refs w) = Some id)
    /\ (isNavigating (state w) = false -> timers w = []).
Proof.
  intros w Hr.
  destruct (reachable_poll_timer w Hr) as [[E | (id0 & cl0 & E & Href)] Hoff]; rewrite E in *.
  - repeat split; cbn; auto. intros id cl [].
  - repeat split; cbn; auto.
    intros id cl [Hin | []]. inversion Hin; subst. exact Href.
Qed.

(** X6. From a reachable state, the cleanup of the mount effect and a
    press on Stop each leave no interval alive: no tick can fire after. *)
Theorem teardown_and_stop_cancel_the_poll :
  forall (ev : Event) (w w' : World),
    reachable' w ->
    ev = Unmount \/ (ev = PressStop /\ isMounted (refs w) = true) ->
    step' ev w = Some w' ->
    timers w' = [] /\ (forall id, step' (Tick id) w' = None).
Proof.
  intros ev w w' Hr Hev Hs.
  pose proof (reachable_poll_timer w Hr) as Hw.
  assert (Ht : timers w' = []).
  { destruct Hw as [Hone Hoff].
    destruct Hev as [-> | [-> Hm]]; unfold step in Hs; cbn [handler] in Hs.
    - inversion Hs; subst; clear Hs. apply timers_rendered_nil.
      unfold exec, bind, gets, clearInterval, modify.
      destruct Hone as [E | (id0 & cl0 & E & Href)]; cbn.
      + destruct (locationInterval (refs w)); cbn; rewrite ?E;
          unfold commit; cbn; destruct (navDirty w); cbn; rewrite ?E;
          reflexivity.
      + rewrite Href. cbn. unfold commit. cbn.
        destruct (navDirty w); cbn; rewrite E; cbn; rewrite Nat.eqb_refl;
          reflexivity.
    - destruct (negb (loading (state w)) && isNavigating (state w));
        [| discriminate].
      inversion Hs; subst; clear Hs. apply timers_rendered_nil.
      assert (Hstop : poll_timer_owned (exec stopNavigation w)).
      { apply preserves_exec;
          [apply timer_stopNavigation | split; assumption]. }
      destruct Hstop as [_ Hoff'].
      assert (Hflag : isNavigating (state (exec stopNavigation w)) = false).
      { exact (proj1 (stopNavigation_clears w Hm)). }
      unfold commit. destruct (navDirty (exec stopNavigation w)); cbn;
        exact (Hoff' Hflag). }
  split; [exact Ht |].
  intros id. unfold step. cbn [handler]. rewrite Ht. reflexivity.
Qed.

(** *** Position requests *)

Lemma location_requests_app :
  forall (ks : list Continuation) (k : Continuation),
    location_requests (ks ++ [k])
    = (location_requests ks + (if is_location_request k then 1 else 0))%nat.
Proof.
  intros ks k. unfold location_requests.
  rewrite filter_app, length_app. cbn.
  destruct (is_location_request k); reflexivity.
Qed.

Lemma location_requests_remove :
  forall (ks : list Continuation) (i : nat) (k : Continuation),
    nth_error ks i = Some k ->
    location_requests ks
    = (location_requests (remove_nth i ks)
       + (if is_location_request k then 1 else 0))%nat.
Proof.
  intros ks. induction ks as [| k0 ks IH]; intros [| i] k H; cbn in H;
    try discriminate.
  - inversion H; subst. unfold remove_nth, location_requests. cbn.
    destruct (is_location_request k); cbn; lia.
  - specialize (IH i k H).
    change (remove_nth (S i) (k0 :: ks)) with (k0 :: remove_nth i ks).
    unfold location_requests in *. cbn [filter].
    destruct (is_location_request k0); cbn [List.length]; lia.
Qed.

Lemma request_await_other :
  forall k : Continuation,
    is_location_request k = false ->
    respects (preserves one_location_request) (await k).
Proof.
  intros k Hk. apply respects_modify. intros w H.
  unfold one_location_request in *. cbn [inflight refs with_inflight].
  rewrite location_requests_app, Hk, Nat.add_0_r. exact H.
Qed.

(** The guard of [getCurrentPositionSafe]: a caller waits for a position
    only if none was being waited for. *)
Lemma request_guarded :
  forall k : Continuation,
    is_location_request k = true ->
    respects (preserves one_location_request)
             (bind getCurrentPositionSafe_begin
                   (fun issued => if issued then await k else ret tt)).
Proof.
  intros k Hk w o w' E H.
  assert (Hx : w' = exec (bind getCurrentPositionSafe_begin
                            (fun issued => if issued then await k else ret tt))
                         w)
    by (unfold exec; rewrite E; reflexivity).
  subst w'. clear E.
  unfold one_location_request in *.
  unfold exec, getCurrentPositionSafe_begin, await.
  unfold bind, gets, modify, ret.
  destruct (isLocationRequestPending (refs w)) eqn:Ep;
    cbn [snd inflight refs with_inflight with_refs
         set_isLocationRequestPending isLocationRequestPending].
  - rewrite Ep. exact H.
  - rewrite location_requests_app, Hk, H. reflexivity.
Qed.

#[local] Hint Extern 1 (respects _ (await _)) =>
  apply request_await_other; reflexivity : respects.
#[local] Hint Extern 1 (respects _ (bind getCurrentPositionSafe_begin _)) =>
  apply request_guarded; reflexivity : respects.

Lemma position_end_clears :
  forall (r : LocationResult) (w : World) o w',
    getCurrentPositionSafe_end r w = (o, w') ->
    inflight w' = inflight w
    /\ isLocationRequestPending (refs w') = false.
Proof.
  intros r w o w' E.
  unfold getCurrentPositionSafe_end, try_finally, bind, ret, modify,
    console_log, console_error in E.
  destruct r as [lon lat course | [m |]]; cbn in E.
  - inversion E; subst. split; reflexivity.
  - destruct (includes "cancelled" m); cbn in E; inversion E; subst;
      split; reflexivity.
  - inversion E; subst. split; reflexivity.
Qed.

(** The rest of a function that waited for a position: the position request
    is settled first, then comes code that keeps the count. *)
Lemma request_settled :
  forall (r : LocationResult) (rest : option LocationData -> M unit)
         (w : World),
    (forall d, respects (preserves one_location_request) (rest d)) ->
    location_requests (inflight w) = 0%nat ->
    one_location_request (exec (bind (getCurrentPositionSafe_end r) rest) w).
Proof.
  intros r rest w Hrest H0. unfold exec, bind.
  destruct (getCurrentPositionSafe_end r w) as [[d | e] w1] eqn:E;
    destruct (position_end_clears r w _ _ E) as [Hin Hp].
  - destruct (rest d w1) as [o w'] eqn:E'. cbn.
    apply (Hrest d w1 o w' E').
    unfold one_location_request. rewrite Hin, Hp. exact H0.
  - cbn. unfold one_location_request. rewrite Hin, Hp. exact H0.
Qed.

Lemma exec_after_modify :
  forall (f : World -> World) (m : M unit) (w : World),
    exec (modify f ;; m) w = exec m (f w).
Proof. reflexivity. Qed.

Lemma request_rendered :
  forall u v : World,
    one_location_request v -> one_location_request (rendered u v).
Proof.
  intros u v H. unfold one_location_request in *.
  destruct (rendered_frame u v) as (Hin & _ & _ & _ & Hp & _).
  rewrite Hin, Hp. exact H.
Qed.

Lemma step_one_location_request :
  forall (ev : Event) (w w' : World),
    one_location_request w -> step' ev w = Some w' ->
    one_location_request w'.
Proof.
  intros ev w w' Hw Hs.
  destruct (handler' ev w) as [m |] eqn:Hh;
    [| unfold step in Hs; rewrite Hh in Hs; discriminate].
  unfold step in Hs. rewrite Hh in Hs. inversion Hs; subst; clear Hs.
  assert (Hm : one_location_request (exec m w)).
  { destruct ev as [p | | b | text | j | | | | | | | id | i r | | i p];
      try (handler_case Hh;
           apply preserves_exec; [solve [respects_auto] | assumption]).
    - (* a promise settles *)
      cbn [handler] in Hh.
      destruct (nth_error (inflight w) i) as [k |] eqn:Ek; [| discriminate].
      destruct (resume_with' k r) as [m' |] eqn:Er; [| discriminate].
      inversion Hh; subst; clear Hh.
      pose proof (location_requests_remove (inflight w) i k Ek) as Hcount.
      unfold one_location_request in Hw. rewrite Hcount in Hw.
      set (w1 := with_inflight (remove_nth i (inflight w)) w).
      change (one_location_request (exec m' w1)).
      destruct k, r; try discriminate Er; cbn [resume_with] in Er;
        inversion Er; subst; clear Er; cbn [is_location_request] in Hw.
      + apply preserves_exec; [solve [respects_auto] |].
        unfold one_location_request. subst w1.
        cbn [inflight refs with_inflight].
        rewrite Nat.add_0_r in Hw. exact Hw.
      + apply preserves_exec; [solve [respects_auto] |].
        unfold one_location_request. subst w1.
        cbn [inflight refs with_inflight].
        rewrite Nat.add_0_r in Hw. exact Hw.
      + apply request_settled; [intros d; respects_auto |].
        subst w1. cbn [inflight with_inflight].
        destruct (isLocationRequestPending (refs w)); lia.
      + apply request_settled; [intros d; respects_auto |].
        subst w1. cbn [inflight with_inflight].
        destruct (isLocationRequestPending (refs w)); lia.
      + apply request_settled; [intros d; respects_auto |].
        subst w1. cbn [inflight with_inflight].
        destruct (isLocationRequestPending (refs w)); lia.
    - (* the permission dialog closes *)
      cbn [handler] in Hh.
      destruct (nth_error (inflight w) i) as [k |] eqn:Ek; [| discriminate].
      destruct k; try discriminate Hh.
      inversion Hh; subst; clear Hh.
      pose proof (location_requests_remove (inflight w) i KPermission Ek)
        as Hcount.
      unfold one_location_request in Hw. rewrite Hcount in Hw.
      cbn [is_location_request] in Hw. rewrite Nat.add_0_r in Hw.
      rewrite exec_after_modify.
      apply preserves_exec; [destruct p; solve [respects_auto] |].
      exact Hw. }
  apply request_rendered.
  unfold one_location_request, commit in *.
  destruct (navDirty (exec m w)); exact Hm.
Qed.

(** X7. In every reachable state at most one position request is being
    waited for, and [isLocationRequestPending] is set exactly while one is:
    a tick, a stop or the first fix that finds the flag set asks for
    nothing. *)
Theorem one_location_request_invariant :
  forall w : World,
    reachable' w ->
    (location_requests (inflight w) <= 1)%nat
    /\ (isLocationRequestPending (refs w) = true
        <-> location_requests (inflight w) = 1%nat).
Proof.
  intros w Hr.
  assert (H : one_location_request w).
  { revert w Hr. apply (reachable_invariant one_location_request).
    - reflexivity.
    - intros ev w w' Hw Hs. exact (step_one_location_request ev w w' Hw Hs). }
  unfold one_location_request in H.
  destruct (isLocationRequestPending (refs w)); rewrite H; split;
    try lia; split; intros; try reflexivity; discriminate.
Qed.

(** *** The heading *)

Lemma position_end_heading :
  forall (r : LocationResult) (w w' : World) (d : LocationData),
    getCurrentPositionSafe_end r w = (Done (Some d), w') ->
    (0 <=? heading d) = true.
Proof.
  intros r w w' d E.
  unfold getCurrentPositionSafe_end, try_finally, bind, ret, modify,
    console_log, console_error in E.
  destruct r as [lon lat course | [m |]]; cbn in E.
  - inversion E; subst. cbn [heading].
    destruct (0 <=? course) eqn:Ec; [exact Ec | reflexivity].
  - destruct (includes "cancelled" m); cbn in E; discriminate.
  - discriminate.
Qed.

Lemma heading_after_position :
  forall (r : LocationResult) (rest : option LocationData -> M unit),
    (forall d, (0 <=? heading d) = true ->
               respects (preserves heading_valid) (rest (Some d))) ->
    respects (preserves heading_valid) (rest None) ->
    respects (preserves heading_valid) (bind (getCurrentPositionSafe_end r) rest).
Proof.
  intros r rest Hsome Hnone w o w' E Hw. unfold bind in E.
  pose proof (position_end_state r w) as (Hs & _ & _). unfold exec in Hs.
  destruct (getCurrentPositionSafe_end r w) as [[[d |] | e] w1] eqn:E1;
    cbn [snd] in Hs.
  - apply (Hsome d (position_end_heading r w w1 d E1) w1 o w' E).
    unfold heading_valid. rewrite Hs. exact Hw.
  - apply (Hnone w1 o w' E). unfold heading_valid. rewrite Hs. exact Hw.
  - inversion E; subst. unfold heading_valid. rewrite Hs. exact Hw.
Qed.

Lemma heading_set :
  forall h : number,
    (0 <=? h) = true -> respects (preserves heading_valid) (setCurrentHeading h).
Proof.
  intros h Hh. apply respects_modify. intros w _. exact Hh.
Qed.

#[local] Hint Extern 1 (respects _ (setCurrentHeading _)) =>
  apply heading_set; assumption : respects.

Lemma heading_getCurrentLocation_resume :
  forall r, respects (preserves heading_valid) (getCurrentLocation_resume r).
Proof.
  intros r. unfold getCurrentLocation_resume.
  apply heading_after_position; [intros d Hd |]; respects_auto.
Qed.

Lemma heading_stopNavigation_resume :
  forall r, respects (preserves heading_valid) (stopNavigation_resume r).
Proof.
  intros r. unfold stopNavigation_resume.
  apply heading_after_position; [intros d Hd |]; respects_auto.
Qed.

Lemma heading_tick_resume :
  forall cl r, respects (preserves heading_valid) (tick_resume' cl r).
Proof.
  intros cl r. unfold tick_resume.
  apply heading_after_position; [intros d Hd |]; respects_auto.
Qed.

#[local] Hint Resolve heading_getCurrentLocation_resume
  heading_stopNavigation_resume heading_tick_resume : respects.

(** X8. The heading on display is never negative and never NaN, in any
    reachable state: it starts as 0 and is written only with what
    [getCurrentPositionSafe] returns, which replaces a course that is not
    [>= 0] by 0. *)
Theorem heading_never_negative :
  forall w : World, reachable' w -> (0 <=? currentHeading (state w)) = true.
Proof.
  apply (reachable_invariant heading_valid).
  - reflexivity.
  - intros ev w w' Hw Hs.
    destruct (handler' ev w) as [m |] eqn:Hh;
      [| unfold step in Hs; rewrite Hh in Hs; discriminate].
    apply (step_respects (preserves heading_valid) ev w w' m);
      try assumption.
    + exact _.
    + intros u v H. unfold heading_valid. rewrite state_settled. exact H.
    + clear Hs Hw. handler_cases Hh; respects_auto.
Qed.

(** *** Before the first fix *)

Lemma loading_cleared : respects (preserves loading_over) (setLoading false).
Proof. apply respects_modify. intros w _. reflexivity. Qed.

#[local] Hint Resolve loading_cleared : respects.

Lemma loading_never_raised :
  forall (ev : Event) (w : World) (m : M unit),
    handler' ev w = Some m -> respects (preserves loading_over) m.
Proof.
  intros ev w m Hh. handler_cases Hh; respects_auto.
Qed.

Lemma forallb_remove_nth :
  forall (A : Type) (p : A -> bool) (l : list A) (i : nat),
    forallb p l = true -> forallb p (remove_nth i l) = true.
Proof.
  intros A p l. induction l as [| x l IH]; intros [| i] H; cbn in *;
    try reflexivity.
  - apply andb_prop in H. destruct H as [_ H].
    unfold remove_nth. cbn. destruct l; assumption.
  - apply andb_prop in H. destruct H as [Hx H].
    rewrite Hx. exact (IH i H).
Qed.

Lemma untouched_commit :
  forall v : World,
    untouched_while_loading v -> untouched_while_loading (commit v).
Proof.
  intros v H. unfold untouched_while_loading, commit in *.
  destruct (navDirty v); exact H.
Qed.

Lemma handler_untouched_while_loading :
  forall (ev : Event) (w : World) (m : M unit),
    untouched_while_loading w -> handler' ev w = Some m ->
    untouched_while_loading (exec m w).
Proof.
  intros ev w m Hw Hh Hl'.
  destruct (loading (state w)) eqn:El.
  2:{ pose proof (preserves_exec loading_over _ m w
                    (loading_never_raised ev w m Hh) El) as H.
      unfold loading_over in H. congruence. }
  destruct (Hw El) as (Hst & Ht & Hin). clear Hw El.
  destruct w as [st rf ts nt inf cam con nr nd]. cbn in Hst, Ht, Hin.
  subst st ts.
  destruct ev as [p | | b | text | j | | | | | | | id | i r | | i p];
    cbn in Hh; try discriminate Hh.
  - (* the screen is mounted *)
    inversion Hh; subst; clear Hh.
    destruct p, rf as [c li m [|]]; cbn in *; try discriminate Hl';
      repeat split; try assumption.
    rewrite forallb_app, Hin. reflexivity.
  - inversion Hh; subst; clear Hh. destruct rf as [c [id |] m q]; cbn;
      repeat split; assumption.
  - inversion Hh; subst; clear Hh. cbn. repeat split; assumption.
  - destruct j; discriminate Hh.
  - (* a promise settles: it was a first fix *)
    destruct (nth_error inf i) as [k |] eqn:Ek; [| discriminate].
    assert (Hk : is_startup_request k = true).
    { rewrite forallb_forall in Hin. apply Hin.
      exact (nth_error_In _ _ Ek). }
    destruct k; try discriminate Hk;
      destruct r as [r | r | r]; try discriminate Hh.
    cbn in Hh. inversion Hh; subst; clear Hh.
    pose proof (forallb_remove_nth _ is_startup_request inf i Hin) as Hin'.
    unfold exec, bind, modify, getCurrentLocation_resume,
      getCurrentPositionSafe_end, try_finally, ret, isMounted_current, gets,
      console_log, console_error in *.
    destruct r as [lon lat course | [msg |]], rf as [c li [|] q];
      cbn in *; try discriminate Hl'; repeat split; try assumption.
    all: destruct (includes "cancelled" msg); cbn in *;
      repeat split; assumption.
  - (* the screen is mounted on Android: the permission is asked for *)
    inversion Hh; subst; clear Hh. cbn in *. repeat split.
    rewrite forallb_app, Hin. reflexivity.
  - (* the permission dialog closes *)
    destruct (nth_error inf i) as [[] |] eqn:Ek; try discriminate Hh.
    inversion Hh; subst; clear Hh.
    pose proof (forallb_remove_nth _ is_startup_request inf i Hin) as Hin'.
    destruct p, rf as [c li m [|]]; cbn in *; try discriminate Hl';
      repeat split; try assumption.
    rewrite forallb_app, Hin'. reflexivity.
Qed.

Lemma untouched_rendered :
  forall u v : World,
    untouched_while_loading v -> untouched_while_loading (rendered u v).
Proof.
  intros u v H Hl. rewrite state_rendered in Hl.
  destruct (H Hl) as (Hst & Ht & Hin).
  assert (E : rendered u v = v).
  { unfold rendered. rewrite Hst.
    change (render_throws initialState) with false.
    rewrite andb_false_r. reflexivity. }
  rewrite E. repeat split; assumption.
Qed.

(** X9. While the loading indicator shows, in any reachable state, every
    state cell still holds its initial value, no interval is alive, and the
    screen waits for nothing but the permission request of [initialize] and
    first-fix requests: the one write to [loading] comes with the first
    position or with the failure to ask for the permission, and everything
    else is disabled until then. *)
Theorem loading_screen_is_untouched :
  forall w : World,
    reachable' w ->
    loading (state w) = true ->
    state w = initialState
    /\ timers w = []
    /\ forallb is_startup_request (inflight w) = true.
Proof.
  apply (reachable_invariant untouched_while_loading).
  - intros _. repeat split.
  - intros ev w w' Hw Hs.
    destruct (handler' ev w) as [m |] eqn:Hh;
      unfold step in Hs; rewrite Hh in Hs; [| discriminate].
    inversion Hs; subst; clear Hs.
    apply untouched_rendered. apply untouched_commit.
    exact (handler_untouched_while_loading ev w m Hw Hh).
Qed.

(** *** A position request that fails *)

(** X10. A position request that fails, whichever function waits for it
    (the first fix, a tick or [stopNavigation]): the error is logged with one
    console line, the pending flag is cleared, and nothing else happens: no
    state cell is written, so a failed first fix leaves the loading
    indicator up, the camera is left alone and no timer is touched. *)
Theorem failed_position_changes_nothing :
  forall (i : nat) (message : option string) (w w' : World),
    step' (Settle i (LocationReply (LocationError message))) w = Some w' ->
    state w' = state w
    /\ camera w' = camera w
    /\ timers w' = timers w
    /\ inflight w' = remove_nth i (inflight w)
    /\ isLocationRequestPending (refs w') = false
    /\ exists line, console w' = line :: console w.
Proof.
  intros i message w w' Hs.
  destruct (step_settle _ _ _ i _ w w' Hs) as (k & m & _ & Hk & ->).
  match goal with
  | |- context [rendered w ?v] =>
      enough (H : state v = state w
                  /\ camera v = camera w
                  /\ timers v = timers w
                  /\ inflight v = remove_nth i (inflight w)
                  /\ isLocationRequestPending (refs v) = false
                  /\ exists line, console v = line :: console w)
        by (rewrite (rendered_same_state w v (proj1 H)); exact H)
  end.
  destruct k; try discriminate Hk; cbn in Hk; inversion Hk; subst; clear Hk.
  all: unfold commit, exec, bind, getCurrentLocation_resume, tick_resume,
         stopNavigation_resume, getCurrentPositionSafe_end, try_finally, ret,
         modify, isMounted_current, cameraRef_current, gets, console_log,
         console_error.
  all: destruct message as [msg |];
         [destruct (includes "cancelled" msg) |]; cbn;
         destruct (navDirty w); cbn; repeat split; eexists; reflexivity.
Qed.

(** *** What a tick does to the navigation *)

Lemma remaining_loop_done :
  forall (sts : list Step) (i : Z),
    (0 <= i <= Z.of_nat (List.length sts))%Z ->
    exists metres seconds,
      remaining_loop sts (S (List.length sts)) i 0 0 = Done (metres, seconds).
Proof.
  intros sts i Hi.
  pose proof (remaining_loop_fold sts (S (List.length sts)) (Z.to_nat i) 0 0
                ltac:(lia) ltac:(lia)) as H.
  rewrite Z2Nat.id in H by lia.
  eexists; eexists; exact H.
Qed.

(** X12. A tick within 30 m of the maneuver of a step that is not the last
    one: the index goes up by one, the camera is sent to the next maneuver
    at zoom 18 over one second with the heading the closure holds, and one
    route request is issued, from the current location the closure holds
    (not from the position of this tick) to the next maneuver; the flag, the
    route, the step list and the timers are left as they are. *)
Theorem updateNavigation_advances :
  forall (cl : Closure) (location here : Coord) (st next : Step) (w : World),
    let sts := steps (cl_render cl) in
    let idx := currentStepIndex (cl_render cl) in
    (0 <= idx < Z.of_nat (List.length sts) - 1)%Z ->
    nth_error sts (Z.to_nat idx) = Some st ->
    (distance_km location (coordinates st) <? 0.03) = true ->
    nth_error (steps (cl_nav cl)) (Z.to_nat (idx + 1)) = Some next ->
    currentLocation (cl_nav cl) = Some here ->
    cameraRef (refs w) = true ->
    isMounted (refs w) = true ->
    let w' := exec (updateNavigation' cl location) w in
    currentStepIndex (state w') = (idx + 1)%Z
    /\ camera w'
       = SetCamera (coordinates next) (currentHeading (cl_nav cl)) 18 1000
         :: camera w
    /\ inflight w' = (inflight w ++ [KRoute (cl_nav cl) here (coordinates next)])%list
    /\ isNavigating (state w') = isNavigating (state w)
    /\ route (state w') = route (state w)
    /\ steps (state w') = steps (state w)
    /\ timers w' = timers w.
Proof.
  intros cl location here st next w sts idx Hidx Hst Hnear Hnext Hhere Hcam Hm
         w'.
  subst w'.
  destruct (remaining_loop_done sts idx ltac:(lia)) as (metres & seconds & Hl).
  assert (Hlen : (Z.to_nat (idx + 1) < List.length (steps (cl_nav cl)))%nat).
  { apply nth_error_Some. rewrite Hnext. discriminate. }
  unfold exec, updateNavigation, bind, cameraRef_current, isMounted_current,
    gets.
  fold sts idx. rewrite Hcam, Hm.
  destruct (Nat.eqb_spec (List.length sts) 0) as [Hz | _]; [lia |].
  cbn [negb orb].
  destruct (Z.ltb_spec idx 0) as [Hneg | _]; [lia |].
  rewrite Hst, Hl, Hnear.
  destruct (Z.ltb_spec idx (Z.of_nat (List.length sts) - 1)) as [_ | Hge];
    [| lia].
  cbn [andb]. unfold updateRouteInfo, modify, handleStepChange, bind,
                cameraRef_current, gets, fetchRoute, isMounted_current.
  cbn [refs with_state cameraRef].
  rewrite Hcam, Hhere.
  destruct (Z.ltb_spec (idx + 1) 0) as [Hneg | _]; [lia |].
  destruct (Z.leb_spec (Z.of_nat (List.length (steps (cl_nav cl)))) (idx + 1))
    as [Hge | _]; [lia |].
  cbn [orb negb]. rewrite Hnext. cbn. rewrite Hm. cbn.
  repeat split.
Qed.

(** X13. A tick that is not within 30 m of the maneuver of its step (a
    distance that is NaN counts as not within) rewrites the route panel and
    nothing else, and in the panel the totals stay: no other cell, no ref,
    no timer, no request, no camera command. The same holds of a call that
    returns at the guard or throws on the step. *)
Theorem updateNavigation_away_from_maneuver :
  forall (cl : Closure) (location : Coord) (w : World),
    (forall st,
        nth_error (steps (cl_render cl))
                  (Z.to_nat (currentStepIndex (cl_render cl))) = Some st ->
        (distance_km location (coordinates st) <? 0.03) = false) ->
    exists shown : RouteInfo,
      exec (updateNavigation' cl location) w = with_state (set_routeInfo shown) w
      /\ info_distance shown = info_distance (routeInfo (state w))
      /\ info_duration shown = info_duration (routeInfo (state w)).
Proof.
  intros cl location w Hfar.
  assert (Hsame : w = with_state (set_routeInfo (routeInfo (state w))) w)
    by (destruct w as [[] ? ? ? ? ? ? ? ?]; reflexivity).
  unfold exec, updateNavigation, bind, cameraRef_current, isMounted_current,
    gets.
  set (sts := steps (cl_render cl)) in *.
  set (idx := currentStepIndex (cl_render cl)) in *.
  destruct (Nat.eqb (List.length sts) 0 || negb (cameraRef (refs w))
            || negb (isMounted (refs w))).
  { exists (routeInfo (state w)). cbn [snd ret]. repeat split. exact Hsame. }
  destruct (Z.ltb_spec idx 0) as [Hneg | Hpos].
  { exists (routeInfo (state w)). cbn [snd throw]. repeat split. exact Hsame. }
  destruct (nth_error sts (Z.to_nat idx)) as [st |] eqn:Est.
  2:{ exists (routeInfo (state w)). cbn [snd throw]. repeat split.
      exact Hsame. }
  assert (Hlen : (Z.to_nat idx < List.length sts)%nat).
  { apply nth_error_Some. rewrite Est. discriminate. }
  destruct (remaining_loop_done sts idx ltac:(lia)) as (metres & seconds & Hl).
  rewrite Hl, (Hfar st eq_refl). cbn [andb].
  unfold updateRouteInfo, modify, ret. cbn [snd].
  eexists. split; [reflexivity |]. split; reflexivity.
Qed.

(** *** Stopping, searching and choosing *)

(** X14. [stopNavigation] on a mounted screen keeps what the user chose:
    current location, destination, search text, suggestions, heading and
    the two display flags stay, the camera is not moved before the position
    is back, and one position request is issued unless one is pending. On a
    screen that is gone it does nothing at all. *)
Theorem stopNavigation_keeps_the_choice :
  forall w : World,
    let w' := exec stopNavigation w in
    (isMounted (refs w) = false -> w' = w)
    /\ currentLocation (state w') = currentLocation (state w)
    /\ destination (state w') = destination (state w)
    /\ query (state w') = query (state w)
    /\ suggestions (state w') = suggestions (state w)
    /\ currentHeading (state w') = currentHeading (state w)
    /\ loading (state w') = loading (state w)
    /\ isMapInteracting (state w') = isMapInteracting (state w)
    /\ camera w' = camera w
    /\ (isMounted (refs w) = true ->
        inflight w'
        = if isLocationRequestPending (refs w) then inflight w
          else (inflight w ++ [KStop])%list).
Proof.
  intros w w'. subst w'.
  unfold exec, stopNavigation, bind, isMounted_current, gets.
  destruct (isMounted (refs w)); cbn.
  - destruct (locationInterval (refs w)); cbn;
      destruct (isLocationRequestPending (refs w)); cbn;
      repeat split; intros; try reflexivity; discriminate.
  - repeat split; intros; try reflexivity; discriminate.
Qed.

(** X15. Pressing a suggestion on a mounted screen makes its coordinates
    the destination and its name the search text and empties the list, so
    that no suggestion can be pressed a second time; the handler itself
    asks for no route and leaves the location and the navigation flag. *)
Theorem suggestion_press_sets_destination :
  forall (i : nat) (w w' : World),
    isMounted (refs w) = true ->
    step' (PressSuggestion i) w = Some w' ->
    exists item : Suggestion,
      nth_error (suggestions (state w)) i = Some item
      /\ destination (state w') = Some (suggestion_coords item)
      /\ query (state w') = name item
      /\ suggestions (state w') = []
      /\ currentLocation (state w') = currentLocation (state w)
      /\ isNavigating (state w') = isNavigating (state w)
      /\ inflight w' = inflight w
      /\ forall j, step' (PressSuggestion j) w' = None.
Proof.
  intros i w w' Hm Hs. unfold step in Hs. cbn [handler] in Hs.
  destruct (nth_error (suggestions (state w)) i) as [item |] eqn:Ei;
    [| discriminate].
  destruct (negb (loading (state w))); [| discriminate].
  inversion Hs; subst; clear Hs. exists item.
  match goal with |- context [rendered w ?v] => set (V := v) end.
  assert (HV : destination (state V) = Some (suggestion_coords item)
               /\ query (state V) = name item
               /\ suggestions (state V) = []
               /\ currentLocation (state V) = currentLocation (state w)
               /\ isNavigating (state V) = isNavigating (state w)
               /\ inflight V = inflight w).
  { subst V. unfold exec, bind, isMounted_current, gets. rewrite Hm.
    unfold commit. cbn. destruct (navDirty w); cbn; repeat split. }
  destruct HV as (H1 & H2 & H3 & H4 & H5 & H6).
  destruct (rendered_frame w V) as (Hin & _).
  rewrite !state_rendered, Hin.
  split; [reflexivity |]. repeat split; try assumption.
  intros j. unfold step. cbn [handler]. rewrite state_rendered, H3.
  destruct j; reflexivity.
Qed.

(** X16. A change of the search text always becomes the text on display.
    With an empty text, or on a screen that is gone, the suggestions are
    emptied and nothing is requested; otherwise exactly one geocoding
    request is issued and the suggestions stay until its reply. *)
Theorem search_text_change :
  forall (text : string) (w w' : World),
    step' (ChangeText text) w = Some w' ->
    query (state w') = text
    /\ (text = EmptyString \/ isMounted (refs w) = false ->
        suggestions (state w') = [] /\ inflight w' = inflight w)
    /\ (text <> EmptyString -> isMounted (refs w) = true ->
        suggestions (state w') = suggestions (state w)
        /\ inflight w' = (inflight w ++ [KSuggest])%list).
Proof.
  intros text w w' Hs. unfold step in Hs. cbn [handler] in Hs.
  destruct (negb (loading (state w)) && negb (isNavigating (state w)));
    [| discriminate].
  inversion Hs; subst; clear Hs.
  match goal with |- context [rendered w ?v] => set (V := v) end.
  destruct (rendered_frame w V) as (Hin & _).
  rewrite !state_rendered, Hin. subst V. clear Hin.
  unfold commit, exec, fetchSuggestions, bind, setQuery, setSuggestions,
    modify, await, isMounted_current, gets.
  cbn [refs with_state].
  destruct (String.eqb_spec text EmptyString) as [He | Hne];
    destruct (isMounted (refs w)); cbn; destruct (navDirty w); cbn;
    repeat split; intros; try reflexivity; try discriminate;
    try contradiction.
  all: match goal with H : _ \/ _ |- _ => destruct H end;
    try contradiction; discriminate.
Qed.

(** What the rest of [fetchRoute] sends to the camera. *)
Lemma fetchRoute_camera :
  forall (cap : State) (start end_ : Coord) (r : Http DirectionsData)
         (w : World),
    camera (exec (fetchRoute_resume cap start end_ r) w) = camera w
    \/ camera (exec (fetchRoute_resume cap start end_ r) w)
       = FitBounds
           (Math_min (fst start) (fst end_), Math_min (snd start) (snd end_))
           (Math_max (fst start) (fst end_), Math_max (snd start) (snd end_))
           120 1000
         :: camera w.
Proof.
  intros cap start end_ r w.
  unfold exec, fetchRoute_resume, try_catch, bind, isMounted_current,
    cameraRef_current, gets.
  destruct r as [e | [[[| rd rest] |]]]; try (left; reflexivity).
  cbn [routes]. destruct (isMounted (refs w)); [| left; reflexivity].
  cbn. destruct (legs rd) as [| leg legs']; [left; reflexivity |].
  cbn. destruct (negb (isNavigating cap) && cameraRef (refs w)); cbn;
    [right | left]; reflexivity.
Qed.

(** X17. Whatever the reply, the rest of [fetchRoute] writes no cell other
    than route, route panel and step list: location, destination, step
    index, navigation flag, search text and suggestions stay, no ref and no
    timer is touched and nothing is requested. The camera gets at most one
    command, a [fitBounds], and none at all when the render the function
    closes over was navigating. *)
Theorem fetchRoute_writes_only_the_route :
  forall (cap : State) (start end_ : Coord) (r : Http DirectionsData)
         (w : World),
    let w' := exec (fetchRoute_resume cap start end_ r) w in
    currentLocation (state w') = currentLocation (state w)
    /\ destination (state w') = destination (state w)
    /\ currentStepIndex (state w') = currentStepIndex (state w)
    /\ isNavigating (state w') = isNavigating (state w)
    /\ query (state w') = query (state w)
    /\ suggestions (state w') = suggestions (state w)
    /\ refs w' = refs w
    /\ timers w' = timers w
    /\ inflight w' = inflight w
    /\ (camera w' = camera w
        \/ isNavigating cap = false
           /\ camera w'
              = FitBounds
                  (Math_min (fst start) (fst end_),
                   Math_min (snd start) (snd end_))
                  (Math_max (fst start) (fst end_),
                   Math_max (snd start) (snd end_))
                  120 1000
                :: camera w).
Proof.
  intros cap start end_ r w w'. subst w'.
  unfold exec, fetchRoute_resume, try_catch, bind, isMounted_current,
    cameraRef_current, gets.
  destruct r as [e | [[[| rd rest] |]]];
    try (cbn; repeat split; left; reflexivity).
  cbn [routes]. destruct (isMounted (refs w));
    [| cbn; repeat split; left; reflexivity].
  cbn. destruct (legs rd) as [| leg legs'];
    [cbn; repeat split; left; reflexivity |].
  cbn. destruct (isNavigating cap); cbn;
    [repeat split; left; reflexivity |].
  destruct (cameraRef (refs w)); cbn; repeat split;
    [right; split; reflexivity | left; reflexivity].
Qed.

(** *** The box the camera is fitted to *)

Lemma SFcompare_swap :
  forall x y : spec_float,
    SFcompare y x = option_map CompOpp (SFcompare x y).
Proof.
  intros [[|] | [|] | | [|] m1 e1] [[|] | [|] | | [|] m2 e2];
    try reflexivity; cbn;
    rewrite (Z.compare_antisym e1 e2);
    destruct (e1 ?= e2)%Z; cbn; try reflexivity;
    rewrite !Pos.compare_cont_spec; cbn;
    rewrite (Pos.compare_antisym m1 m2);
    destruct (m1 ?= m2)%positive; reflexivity.
Qed.

Lemma leb_of_ltb : forall a b : number, (a <? b) = true -> (a <=? b) = true.
Proof.
  intros a b. rewrite ltb_spec, leb_spec. unfold SFltb, SFleb.
  destruct (SFcompare (Prim2SF a) (Prim2SF b)) as [[| |] |];
    intros H; try discriminate; reflexivity.
Qed.

Lemma leb_refl :
  forall a : number, PrimFloat.is_nan a = false -> (a <=? a) = true.
Proof.
  intros a. unfold PrimFloat.is_nan. rewrite eqb_spec, leb_spec.
  unfold SFeqb, SFleb.
  destruct (SFcompare (Prim2SF a) (Prim2SF a)) as [[| |] |];
    intros H; try discriminate; reflexivity.
Qed.

Lemma leb_of_not_ltb :
  forall a b : number,
    PrimFloat.is_nan a = false -> PrimFloat.is_nan b = false ->
    (b <? a) = false -> (a <=? b) = true.
Proof.
  intros a b. unfold PrimFloat.is_nan.
  rewrite !eqb_spec, ltb_spec, leb_spec.
  unfold SFeqb, SFltb, SFleb. rewrite (SFcompare_swap (Prim2SF a) (Prim2SF b)).
  destruct (Prim2SF a) as [[|] | [|] | | [|] m1 e1];
    destruct (Prim2SF b) as [[|] | [|] | | [|] m2 e2];
    cbn; try discriminate; try reflexivity; intros _ _;
    destruct (e1 ?= e2)%Z; cbn; try discriminate; try reflexivity;
    destruct (Pos.compare_cont Eq m1 m2); cbn; try discriminate;
    reflexivity.
Qed.

Lemma Math_min_below :
  forall a b : number,
    PrimFloat.is_nan a = false -> PrimFloat.is_nan b = false ->
    (Math_min a b <=? a) = true /\ (Math_min a b <=? b) = true.
Proof.
  intros a b Ha Hb. unfold Math_min. rewrite Ha, Hb. cbn [orb].
  destruct (a <? b) eqn:Eab.
  - split; [apply leb_refl; assumption | apply leb_of_ltb; assumption].
  - destruct (b <? a) eqn:Eba.
    + split; [apply leb_of_ltb; assumption | apply leb_refl; assumption].
    + destruct (PrimFloat.get_sign a); split;
        try (apply leb_refl; assumption);
        apply leb_of_not_ltb; assumption.
Qed.

Lemma Math_max_above :
  forall a b : number,
    PrimFloat.is_nan a = false -> PrimFloat.is_nan b = false ->
    (a <=? Math_max a b) = true /\ (b <=? Math_max a b) = true.
Proof.
  intros a b Ha Hb. unfold Math_max. rewrite Ha, Hb. cbn [orb].
  destruct (b <? a) eqn:Eba.
  - split; [apply leb_refl; assumption | apply leb_of_ltb; assumption].
  - destruct (a <? b) eqn:Eab.
    + split; [apply leb_of_ltb; assumption | apply leb_refl; assumption].
    + destruct (PrimFloat.get_sign a); split;
        try (apply leb_refl; assumption);
        apply leb_of_not_ltb; assumption.
Qed.

(** X18. When [fetchRoute] fits the camera, the box it asks for holds both
    endpoints of the route, whichever of the two lies further west or
    south, with a padding of 120 and one second of animation; the
    endpoints are taken to be numbers. *)
Theorem fitted_box_holds_both_endpoints :
  forall (cap : State) (start end_ : Coord) (r : Http DirectionsData)
         (w : World) (sw ne : Coord) (padding animationDuration : number),
    is_point start = true ->
    is_point end_ = true ->
    camera (exec (fetchRoute_resume cap start end_ r) w)
    = FitBounds sw ne padding animationDuration :: camera w ->
    inside sw ne start = true
    /\ inside sw ne end_ = true
    /\ padding = 120
    /\ animationDuration = 1000.
Proof.
  intros cap [lon1 lat1] [lon2 lat2] r w sw ne padding animationDuration
         Hs He Hc.
  unfold is_point in Hs, He. cbn [fst snd] in Hs, He.
  apply andb_prop in Hs. destruct Hs as [Hlon1 Hlat1].
  apply andb_prop in He. destruct He as [Hlon2 Hlat2].
  apply negb_true_iff in Hlon1, Hlat1, Hlon2, Hlat2.
  destruct (fetchRoute_camera cap (lon1, lat1)
              (lon2, lat2) r w) as [Hsame | Hfit].
  - rewrite Hsame in Hc. exfalso.
    apply (f_equal (@List.length CameraCmd)) in Hc. cbn in Hc. lia.
  - rewrite Hfit in Hc. inversion Hc; subst. cbn [fst snd].
    destruct (Math_min_below lon1 lon2 Hlon1 Hlon2) as [H1 H2].
    destruct (Math_min_below lat1 lat2 Hlat1 Hlat2) as [H3 H4].
    destruct (Math_max_above lon1 lon2 Hlon1 Hlon2) as [H5 H6].
    destruct (Math_max_above lat1 lat2 Hlat1 Hlat2) as [H7 H8].
    unfold inside. cbn [fst snd].
    rewrite H1, H2, H3, H4, H5, H6, H7, H8. repeat split.
Qed.

(** *** What the refs guard *)

#[local] Instance no_camera_without_ref_preorder : PreOrder no_camera_without_ref.
Proof.
  split.
  - intros w H. split; [reflexivity | exact H].
  - intros a b c Hab Hbc H. destruct (Hab H) as [Hc Hr].
    destruct (Hbc Hr) as [Hc' Hr']. split; [congruence | exact Hr'].
Qed.

#[local] Instance no_request_when_gone_preorder : PreOrder no_request_when_gone.
Proof.
  split.
  - intros w H. split; [reflexivity | exact H].
  - intros a b c Hab Hbc H. destruct (Hab H) as [Hc Hr].
    destruct (Hbc Hr) as [Hc' Hr']. split; [congruence | exact Hr'].
Qed.

Lemma camera_guard :
  forall (A : Type) (k : bool -> M A),
    respects no_camera_without_ref (k false) ->
    respects no_camera_without_ref (bind cameraRef_current k).
Proof.
  intros A k Hk w o w' E Hc.
  unfold bind, cameraRef_current, gets in E. rewrite Hc in E.
  exact (Hk w o w' E Hc).
Qed.

Lemma mounted_guard :
  forall (A : Type) (k : bool -> M A),
    respects no_request_when_gone (k false) ->
    respects no_request_when_gone (bind isMounted_current k).
Proof.
  intros A k Hk w o w' E Hc.
  unfold bind, isMounted_current, gets in E. rewrite Hc in E.
  exact (Hk w o w' E Hc).
Qed.

#[local] Hint Extern 1 (respects no_camera_without_ref (modify _)) =>
  apply respects_modify; intros ? ?; split; [reflexivity | assumption]
  : respects.
#[local] Hint Extern 1 (respects no_camera_without_ref (setInterval _)) =>
  apply respects_setInterval; intros ? ?; split; [reflexivity | assumption]
  : respects.
#[local] Hint Extern 1 (respects no_request_when_gone (modify _)) =>
  apply respects_modify; intros ? ?;
  split; [reflexivity | first [assumption | reflexivity]]
  : respects.
#[local] Hint Extern 1 (respects no_request_when_gone (setInterval _)) =>
  apply respects_setInterval; intros ? ?; split; [reflexivity | assumption]
  : respects.

(** Code behind a guard on a ref is taken apart with the ref empty. *)
Ltac guarded_step :=
  match goal with
  | |- respects no_camera_without_ref (bind cameraRef_current _) =>
      apply camera_guard; cbv beta; cbn [negb];
      rewrite ?andb_false_r, ?orb_true_r
  | |- respects no_request_when_gone (bind isMounted_current _) =>
      apply mounted_guard; cbv beta; cbn [negb];
      rewrite ?andb_false_r, ?orb_true_r
  | _ => respects_step
  end.

Ltac guarded_auto := repeat guarded_step.

Lemma preserves_camera :
  forall (m : M unit) (w : World),
    respects no_camera_without_ref m ->
    cameraRef (refs w) = false ->
    camera (exec m w) = camera w.
Proof.
  intros m w H Hc.
  exact (proj1 (respects_exec no_camera_without_ref _ m w H Hc)).
Qed.

(** X19. Without its camera (the ref is [null]) the screen sends the camera
    nothing, whatever happens: every [setCamera] and [fitBounds] of the
    screen stands behind a test of [cameraRef.current]. *)
Theorem no_camera_command_without_camera :
  forall (ev : Event) (w w' : World),
    cameraRef (refs w) = false ->
    step' ev w = Some w' ->
    camera w' = camera w.
Proof.
  intros ev w w' Hc Hs.
  destruct (handler' ev w) as [m |] eqn:Hh;
    unfold step in Hs; rewrite Hh in Hs; [| discriminate].
  inversion Hs; subst; clear Hs.
  assert (Hcommit : forall u v, camera (rendered u (commit v)) = camera v).
  { intros u v. destruct (rendered_frame u (commit v)) as (_ & E & _).
    rewrite E. apply commit_frame. }
  rewrite Hcommit.
  destruct ev as [p | | b | text | j | | | | | | | id | i r | | i p];
    try solve [apply (preserves_camera m w); [| exact Hc];
               handler_case Hh; guarded_auto].
  cbn in Hh. inversion Hh; subst. reflexivity.
Qed.

Lemma preserves_inflight :
  forall (m : M unit) (w : World),
    respects no_request_when_gone m ->
    isMounted (refs w) = false ->
    inflight (exec m w) = inflight w.
Proof.
  intros m w H Hc.
  exact (proj1 (respects_exec no_request_when_gone _ m w H Hc)).
Qed.

(** X20. Once the screen is torn down, nothing is requested any more by
    what the user, the timer, the effects or a settling request do: each of
    them issues its request behind a test of [isMounted.current], and a
    request that settles is simply taken off. The one request that can
    still go out is the first fix: when the permission is granted after the
    teardown, [getCurrentLocation] asks for the position with no such test,
    unless a position request is pending. *)
Theorem no_request_after_teardown :
  (forall (ev : Event) (w w' : World),
      isMounted (refs w) = false ->
      (forall p, ev <> Mount p) ->
      ev <> MountAndroid ->
      (forall i p, ev <> PermissionSettles i p) ->
      step' ev w = Some w' ->
      inflight w'
      = match ev with
        | Settle i _ => remove_nth i (inflight w)
        | _ => inflight w
        end)
  /\ (forall (i : nat) (w w' : World),
         isMounted (refs w) = false ->
         step' (PermissionSettles i Granted) w = Some w' ->
         inflight w'
         = (remove_nth i (inflight w)
            ++ (if isLocationRequestPending (refs w) then [] else [KInit]))%list).
Proof.
  assert (Hcommit : forall u v, inflight (rendered u (commit v)) = inflight v).
  { intros u v. destruct (rendered_frame u (commit v)) as (E & _).
    rewrite E. apply commit_frame. }
  split.
  - intros ev w w' Hm Hev Hand Hperm Hs.
    destruct (handler' ev w) as [m |] eqn:Hh;
      unfold step in Hs; rewrite Hh in Hs; [| discriminate].
    inversion Hs; subst; clear Hs.
    rewrite Hcommit.
    destruct ev as [p | | b | text | j | | | | | | | id | i r | | i p];
      try solve [apply (preserves_inflight m w); [| exact Hm];
                 handler_case Hh; guarded_auto].
    + exfalso. exact (Hev p eq_refl).
    + cbn [handler] in Hh.
      destruct (nth_error (inflight w) i) as [k |]; [| discriminate].
      destruct (resume_with' k r) as [m' |] eqn:Er; [| discriminate].
      inversion Hh; subst; clear Hh.
      rewrite exec_after_modify.
      rewrite (preserves_inflight m'); [reflexivity | | exact Hm].
      destruct k, r; try discriminate Er; cbn [resume_with] in Er;
        inversion Er; subst; clear Er; guarded_auto.
    + exfalso. exact (Hand eq_refl).
    + exfalso. exact (Hperm i p eq_refl).
  - intros i w w' Hm Hs. unfold step in Hs. cbn [handler] in Hs.
    destruct (nth_error (inflight w) i) as [[] |]; try discriminate Hs.
    inversion Hs; subst; clear Hs.
    rewrite Hcommit, exec_after_modify.
    unfold exec, getCurrentLocation, getCurrentPositionSafe_begin, await,
      bind, gets, modify, ret.
    cbn [refs with_inflight].
    destruct (isLocationRequestPending (refs w)); cbn.
    + rewrite app_nil_r. reflexivity.
    + reflexivity.
Qed.

(** *** The step markers *)

Lemma drawn_from :
  forall (sts : list Step) (index : nat) (i : Z),
    (0 < index)%nat ->
    List.length (drawn (stepMarkers_from index sts i))
    = Nat.min (List.length sts) (Z.to_nat (i - Z.of_nat index + 1))
    /\ forall m, In m (drawn (stepMarkers_from index sts i)) ->
                 (index <= marker_text m)%nat
                 /\ (Z.of_nat (marker_text m) <= i)%Z
                 /\ option_map coordinates
                      (nth_error sts (marker_text m - index))
                    = Some (marker_coordinate m).
Proof.
  intros sts. induction sts as [| step rest IH]; intros index i Hpos.
  - split; [reflexivity | intros m []].
  - destruct (IH (S index) i ltac:(lia)) as [IHlen IHin].
    cbn [stepMarkers_from].
    destruct (Nat.eqb_spec index 0) as [Hz | _]; [lia |]. cbn [negb andb].
    destruct (Z.leb_spec (Z.of_nat index) i) as [Hle | Hgt];
      unfold drawn in *; cbn [flat_map app List.length].
    + split.
      * rewrite IHlen. lia.
      * intros m [<- | Hin]; cbn [marker_text marker_coordinate].
        -- rewrite Nat.sub_diag. cbn. repeat split; lia.
        -- destruct (IHin m Hin) as (H1 & H2 & H3).
           repeat split; try lia.
           replace (marker_text m - index)%nat
             with (S (marker_text m - S index)) by lia.
           exact H3.
    + split.
      * rewrite IHlen. lia.
      * intros m Hin. destruct (IHin m Hin) as (H1 & H2 & H3). lia.
Qed.

(** X21. The map draws one marker for each step from the second one up to
    the active one and none for the departure step: with the index [i] not
    negative their number is the smaller of [i] and the number of steps
    after the first, and each marker shows an index between 1 and [i] and
    sits at the maneuver of the step of that index. *)
Theorem step_markers_up_to_the_active_step :
  forall st : State,
    (0 <= currentStepIndex st)%Z ->
    List.length (drawn (stepMarkers st))
    = Nat.min (List.length (steps st) - 1) (Z.to_nat (currentStepIndex st))
    /\ forall m, In m (drawn (stepMarkers st)) ->
                 (1 <= Z.of_nat (marker_text m) <= currentStepIndex st)%Z
                 /\ option_map coordinates (nth_error (steps st) (marker_text m))
                    = Some (marker_coordinate m).
Proof.
  intros st Hi. unfold stepMarkers.
  destruct (steps st) as [| step rest]; [split; [reflexivity | intros m []] |].
  cbn [stepMarkers_from Nat.eqb negb andb].
  unfold drawn. cbn [flat_map app].
  destruct (drawn_from rest 1 (currentStepIndex st) ltac:(lia)) as [Hlen Hin].
  unfold drawn in Hlen, Hin. split.
  - rewrite Hlen. cbn [List.length]. lia.
  - intros m Hm. destruct (Hin m Hm) as (H1 & H2 & H3).
    split; [lia |].
    replace (marker_text m) with (S (marker_text m - 1)) at 1 by lia.
    exact H3.
Qed.

(** *** The earlier variant: the next step *)

(** X22. In the earlier variant [handleNextStep], called with an index
    that is not negative, never throws and keeps the index inside the step
    list: either a guard turns the call away and nothing changes, or the
    index becomes the one asked for, which lies inside the list, one route
    request goes out from the current location to the maneuver of that step,
    and the camera is sent there at zoom 16. *)
Theorem earlier_handleNextStep_in_range :
  forall (stepIndex : Z) (w : EarlierScreen.World),
    (0 <= stepIndex)%Z ->
    exists w' : EarlierScreen.World,
      EarlierScreen.handleNextStep stepIndex w = Some w'
      /\ EarlierScreen.steps (EarlierScreen.state w')
         = EarlierScreen.steps (EarlierScreen.state w)
      /\ (w' = w
          \/ exists (step : Step) (here : Coord),
               nth_error (EarlierScreen.steps (EarlierScreen.state w))
                         (Z.to_nat stepIndex) = Some step
               /\ EarlierScreen.currentLocation (EarlierScreen.state w)
                  = Some here
               /\ EarlierScreen.currentStepIndex (EarlierScreen.state w')
                  = stepIndex
               /\ (stepIndex
                   < Z.of_nat
                       (List.length
                          (EarlierScreen.steps (EarlierScreen.state w'))))%Z
               /\ EarlierScreen.pending w'
                  = (EarlierScreen.pending w ++ [(here, coordinates step)])%list
               /\ EarlierScreen.camera w'
                  = EarlierScreen.SetCamera (coordinates step) 16 1000
                    :: EarlierScreen.camera w).
Proof.
  intros stepIndex w Hpos. unfold EarlierScreen.handleNextStep.
  destruct (Z.leb_spec
              (Z.of_nat (List.length (EarlierScreen.steps (EarlierScreen.state w))))
              stepIndex) as [Hge | Hlt].
  { exists w. repeat split. left. reflexivity. }
  cbn [orb].
  destruct (EarlierScreen.currentLocation (EarlierScreen.state w))
    as [here |] eqn:Ehere.
  2:{ exists w. repeat split. left. reflexivity. }
  destruct (EarlierScreen.cameraRef w) eqn:Ecam.
  2:{ exists w. repeat split. left. reflexivity. }
  destruct (EarlierScreen.isMounted w) eqn:Em.
  2:{ exists w. repeat split. left. reflexivity. }
  cbn [orb negb].
  destruct (Z.ltb_spec stepIndex 0) as [Hneg | _]; [lia |].
  destruct (nth_error (EarlierScreen.steps (EarlierScreen.state w))
                      (Z.to_nat stepIndex)) as [step |] eqn:Es.
  2:{ apply nth_error_None in Es. lia. }
  eexists. split; [reflexivity |].
  unfold EarlierScreen.fetchRoute. cbn. rewrite Em. cbn.
  split; [reflexivity |]. right. exists step, here.
  repeat split; try reflexivity; assumption.
Qed.

(** *** After the stop *)

Lemma reachable_endpoints :
  forall w : World, reachable' w -> navigating_has_endpoints w.
Proof.
  apply (reachable_invariant navigating_has_endpoints).
  - intros H. discriminate H.
  - intros ev w w' Hw Hs.
    exact (step_endpoints Math_sin Math_cos Math_atan2 ev w w' Hs Hw).
Qed.

Lemma rendered_not_navigating :
  forall u v : World, isNavigating (state v) = false -> rendered u v = v.
Proof.
  intros u v H. unfold rendered, render_throws, render. rewrite H.
  destruct (loading (state v)); cbn; rewrite andb_false_r; reflexivity.
Qed.

(** X23. A press on Stop, on a mounted screen in a reachable state, clears
    the route and keeps both endpoints, so the route effect applies again:
    it issues one route request between the same endpoints, and the render
    that request closes over is not navigating, so that its reply, if it
    brings a route with a leg to a mounted screen with its camera, fits the
    camera to the two endpoints again. *)
Theorem stop_brings_the_route_back :
  forall w w1 : World,
    reachable' w ->
    isMounted (refs w) = true ->
    step' PressStop w = Some w1 ->
    exists (here there : Coord) (w2 : World) (cap : State),
      currentLocation (state w1) = Some here
      /\ destination (state w1) = Some there
      /\ route (state w1) = None
      /\ step' EffectFetchRoute w1 = Some w2
      /\ inflight w2 = (inflight w1 ++ [KRoute cap here there])%list
      /\ isNavigating cap = false
      /\ forall (rd : RouteData) (rest : list RouteData) (leg : Leg)
                (others : list Leg) (v : World),
           legs rd = leg :: others ->
           isMounted (refs v) = true ->
           cameraRef (refs v) = true ->
           camera (exec (fetchRoute_resume cap here there
                           (Body (mkDirections (Some (rd :: rest))))) v)
           = FitBounds
               (Math_min (fst here) (fst there), Math_min (snd here) (snd there))
               (Math_max (fst here) (fst there), Math_max (snd here) (snd there))
               120 1000
             :: camera v.
Proof.
  intros w w1 Hr Hm Hs.
  pose proof (reachable_endpoints w Hr) as Hend.
  unfold step in Hs. cbn [handler] in Hs.
  destruct (loading (state w)); [discriminate |].
  destruct (isNavigating (state w)) eqn:Hnav; [| discriminate].
  cbn [negb andb] in Hs. inversion Hs; subst; clear Hs.
  destruct (Hend Hnav) as [Hd Hc].
  destruct (currentLocation (state w)) as [here |] eqn:Ehere;
    [| contradiction].
  destruct (destination (state w)) as [there |] eqn:Ethere;
    [| contradiction].
  set (w1 := commit (exec stopNavigation w)).
  assert (Hw1 : currentLocation (state w1) = Some here
                /\ destination (state w1) = Some there
                /\ route (state w1) = None
                /\ isNavigating (state w1) = false
                /\ isMounted (refs w1) = true).
  { subst w1. unfold commit, exec, stopNavigation, bind, isMounted_current,
      gets.
    rewrite Hm. cbn.
    destruct (locationInterval (refs w)); cbn;
      destruct (isLocationRequestPending (refs w)); cbn;
      rewrite ?Ehere, ?Ethere, ?Hm; repeat split; assumption. }
  destruct Hw1 as (H1 & H2 & H3 & H4 & H5).
  rewrite (rendered_not_navigating w w1 H4).
  exists here, there.
  unfold step. cbn [handler]. rewrite H1, H2. cbn [is_some andb].
  eexists. exists (state w1).
  repeat split; try assumption.
  - match goal with
    | |- context [rendered w1 (commit ?v)] =>
        destruct (rendered_frame w1 (commit v)) as (E & _);
        destruct (commit_frame v) as (_ & _ & E' & _)
    end.
    rewrite E, E'.
    unfold exec, fetchRoute, bind, isMounted_current, gets.
    rewrite H5. reflexivity.
  - intros rd rest leg others v Hlegs Hmv Hcv.
    unfold exec, fetchRoute_resume, try_catch, bind, isMounted_current,
      cameraRef_current, gets.
    cbn [routes]. rewrite Hmv. cbn. rewrite Hlegs. cbn.
    rewrite H4, Hcv. reflexivity.
Qed.

End Coverage.

(** ** The further properties on the example worlds *)

Lemma destination_only_by_selection_witness :
  destination (state (world_after (routeShown ++ [PressStart])))
  = destination (state (world_after routeShown)).
Proof.
  apply (destination_only_by_selection sin' cos' atan2' PressStart).
  - vm_compute. reflexivity.
  - intros i. discriminate.
Defined.

Lemma navigation_starts_only_by_press_witness :
  PressStart = PressStart
  /\ currentLocation (state (world_after routeShown)) <> None
  /\ destination (state (world_after routeShown)) <> None
  /\ cameraRef (refs (world_after routeShown)) = true.
Proof.
  apply (navigation_starts_only_by_press sin' cos' atan2' PressStart
           (world_after routeShown) (world_after (routeShown ++ [PressStart])));
    vm_compute; reflexivity.
Defined.

Lemma step_index_not_negative_witness :
  (0 <= currentStepIndex (state (world_after secondAdvance)))%Z.
Proof.
  apply (step_index_not_negative sin' cos' atan2').
  apply (world_after_reachable secondAdvance). vm_compute. reflexivity.
Defined.

Lemma route_panel_invariant_witness :
  (route (state (world_after routeShown)) = None
   <-> info_distance (routeInfo (state (world_after routeShown))) = None)
  /\ (route (state (world_after routeShown)) = None
      <-> info_duration (routeInfo (state (world_after routeShown))) = None)
  /\ (route (state (world_after routeShown)) = None
      -> steps (state (world_after routeShown)) = []).
Proof.
  apply (route_panel_invariant sin' cos' atan2').
  apply (world_after_reachable routeShown). vm_compute. reflexivity.
Defined.

Lemma poll_timer_invariant_witness :
  (List.length (timers (world_after navigationStarted)) <= 1)%nat
  /\ (forall id cl,
         In (id, cl) (timers (world_after navigationStarted)) ->
         locationInterval (refs (world_after navigationStarted)) = Some id)
  /\ (isNavigating (state (world_after navigationStarted)) = false ->
      timers (world_after navigationStarted) = []).
Proof.
  apply (poll_timer_invariant sin' cos' atan2').
  apply (world_after_reachable navigationStarted). vm_compute. reflexivity.
Defined.

Lemma teardown_and_stop_cancel_the_poll_witness :
  timers (world_after (navigationStarted ++ [PressStop])) = []
  /\ (forall id,
         step sin' cos' atan2' (Tick id)
              (world_after (navigationStarted ++ [PressStop])) = None).
Proof.
  apply (teardown_and_stop_cancel_the_poll sin' cos' atan2' PressStop
           (world_after navigationStarted)).
  - apply (world_after_reachable navigationStarted). vm_compute. reflexivity.
  - right. split; vm_compute; reflexivity.
  - vm_compute. reflexivity.
Defined.

Lemma one_location_request_invariant_witness :
  (location_requests (inflight (world_after (firstAdvance ++ [Tick 3]))) <= 1)%nat
  /\ (isLocationRequestPending (refs (world_after (firstAdvance ++ [Tick 3])))
      = true
      <-> location_requests (inflight (world_after (firstAdvance ++ [Tick 3])))
          = 1%nat).
Proof.
  apply (one_location_request_invariant sin' cos' atan2').
  apply (world_after_reachable (firstAdvance ++ [Tick 3])).
  vm_compute. reflexivity.
Defined.

Lemma heading_never_negative_witness :
  (0 <=? currentHeading (state (world_after located))) = true.
Proof.
  apply (heading_never_negative sin' cos' atan2').
  apply (world_after_reachable located). vm_compute. reflexivity.
Defined.

Lemma loading_screen_is_untouched_witness :
  state (world_after grantedOnAndroid) = initialState
  /\ timers (world_after grantedOnAndroid) = []
  /\ forallb is_startup_request (inflight (world_after grantedOnAndroid))
     = true.
Proof.
  apply (loading_screen_is_untouched sin' cos' atan2').
  - apply (world_after_reachable grantedOnAndroid). vm_compute. reflexivity.
  - vm_compute. reflexivity.
Defined.

Lemma failed_position_changes_nothing_witness :
  state (world_after [Mount Granted;
                      Settle 0 (LocationReply (LocationError (Some "timeout")))])
  = state (world_after [Mount Granted]).
Proof.
  apply (failed_position_changes_nothing sin' cos' atan2' 0 (Some "timeout")
           (world_after [Mount Granted])).
  vm_compute. reflexivity.
Defined.

Lemma updateNavigation_advances_witness :
  currentStepIndex
    (state (exec (updateNavigation sin' cos' atan2'
                    (closure_of 2 (world_after navigationStarted)) (13.4, 52.5))
                 (world_after navigationStarted)))
  = 1%Z.
Proof.
  refine (proj1 (updateNavigation_advances sin' cos' atan2'
                   (closure_of 2 (world_after navigationStarted))
                   (13.4, 52.5) (13.4, 52.5)
                   (step_at "Head north" (13.4, 52.5) 15 5)
                   (step_at "Turn right" (13.4001, 52.5001) 1485 295)
                   (world_after navigationStarted) _ _ _ _ _ _ _));
    vm_compute; try reflexivity.
  split; [discriminate | reflexivity].
Defined.

Lemma updateNavigation_away_from_maneuver_witness :
  exists shown : RouteInfo,
    exec (updateNavigation sin' cos' atan2'
            (closure_of 2 (world_after navigationStarted)) (13.5, 52.6))
         (world_after navigationStarted)
    = with_state (set_routeInfo shown) (world_after navigationStarted)
    /\ info_distance shown
       = info_distance (routeInfo (state (world_after navigationStarted)))
    /\ info_duration shown
       = info_duration (routeInfo (state (world_after navigationStarted))).
Proof.
  apply (updateNavigation_away_from_maneuver sin' cos' atan2').
  intros st H. vm_compute in H. inversion H; subst. vm_compute. reflexivity.
Defined.

Lemma suggestion_press_sets_destination_witness :
  exists item : Suggestion,
    nth_error (suggestions (state (world_after suggestionsShown))) 0 = Some item
    /\ destination (state (world_after (suggestionsShown ++ [PressSuggestion 0])))
       = Some (suggestion_coords item)
    /\ query (state (world_after (suggestionsShown ++ [PressSuggestion 0])))
       = name item
    /\ suggestions (state (world_after (suggestionsShown ++ [PressSuggestion 0])))
       = []
    /\ currentLocation
         (state (world_after (suggestionsShown ++ [PressSuggestion 0])))
       = currentLocation (state (world_after suggestionsShown))
    /\ isNavigating (state (world_after (suggestionsShown ++ [PressSuggestion 0])))
       = isNavigating (state (world_after suggestionsShown))
    /\ inflight (world_after (suggestionsShown ++ [PressSuggestion 0]))
       = inflight (world_after suggestionsShown)
    /\ forall j,
         step sin' cos' atan2' (PressSuggestion j)
              (world_after (suggestionsShown ++ [PressSuggestion 0]))
         = None.
Proof.
  apply (suggestion_press_sets_destination sin' cos' atan2' 0
           (world_after suggestionsShown)
           (world_after (suggestionsShown ++ [PressSuggestion 0])));
    vm_compute; reflexivity.
Defined.

Lemma search_text_change_witness :
  query (state (world_after (located ++ [ChangeText "mus"]))) = "mus".
Proof.
  refine (proj1 (search_text_change sin' cos' atan2' "mus"
                   (world_after located)
                   (world_after (located ++ [ChangeText "mus"])) _)).
  vm_compute. reflexivity.
Defined.

Lemma fitted_box_holds_both_endpoints_witness :
  inside (13.4, 52.5) (13.41, 52.52) (13.4, 52.5) = true
  /\ inside (13.4, 52.5) (13.41, 52.52) (13.41, 52.52) = true
  /\ 120 = 120
  /\ 1000 = 1000.
Proof.
  apply (fitted_box_holds_both_endpoints initialState (13.4, 52.5)
           (13.41, 52.52) (Body (mkDirections (Some [toMuseum])))
           (world_after (located ++ [CameraRef true])));
    vm_compute; reflexivity.
Defined.

Lemma no_camera_command_without_camera_witness :
  camera (world_after (chosenWithoutCamera ++ [Settle 0 (directions toMuseum)]))
  = camera (world_after chosenWithoutCamera).
Proof.
  apply (no_camera_command_without_camera sin' cos' atan2'
           (Settle 0 (directions toMuseum)) (world_after chosenWithoutCamera));
    vm_compute; reflexivity.
Defined.

Lemma no_request_after_teardown_witness :
  inflight (world_after (leftDuringTick ++ [EffectFetchRoute]))
  = inflight (world_after leftDuringTick)
  /\ inflight (world_after (leftWhileAsked ++ [PermissionSettles 0 Granted]))
     = [KInit].
Proof.
  split.
  - apply (proj1 (no_request_after_teardown sin' cos' atan2') EffectFetchRoute
             (world_after leftDuringTick)).
    + vm_compute. reflexivity.
    + intros p. discriminate.
    + discriminate.
    + intros i p. discriminate.
    + vm_compute. reflexivity.
  - apply (proj2 (no_request_after_teardown sin' cos' atan2') 0%nat
             (world_after leftWhileAsked)).
    + vm_compute. reflexivity.
    + vm_compute. reflexivity.
Defined.

Lemma step_markers_up_to_the_active_step_witness :
  List.length (drawn (stepMarkers (state (world_after secondAdvance)))) = 2%nat.
Proof.
  refine (eq_trans
            (proj1 (step_markers_up_to_the_active_step
                      (state (world_after secondAdvance)) _))
            _).
  - vm_compute. discriminate.
  - vm_compute. reflexivity.
Defined.

Lemma earlier_handleNextStep_in_range_witness :
  exists w' : EarlierScreen.World,
    EarlierScreen.handleNextStep 1 earlierWorld = Some w'
    /\ EarlierScreen.steps (EarlierScreen.state w')
       = EarlierScreen.steps (EarlierScreen.state earlierWorld)
    /\ (w' = earlierWorld
        \/ exists (step : Step) (here : Coord),
             nth_error (EarlierScreen.steps (EarlierScreen.state earlierWorld))
                       (Z.to_nat 1) = Some step
             /\ EarlierScreen.currentLocation (EarlierScreen.state earlierWorld)
                = Some here
             /\ EarlierScreen.currentStepIndex (EarlierScreen.state w') = 1%Z
             /\ (1 < Z.of_nat
                       (List.length
                          (EarlierScreen.steps (EarlierScreen.state w'))))%Z
             /\ EarlierScreen.pending w'
                = (EarlierScreen.pending earlierWorld
                   ++ [(here, coordinates step)])%list
             /\ EarlierScreen.camera w'
                = EarlierScreen.SetCamera (coordinates step) 16 1000
                  :: EarlierScreen.camera earlierWorld).
Proof.
  apply (earlier_handleNextStep_in_range 1 earlierWorld). lia.
Defined.

Lemma formatDuration_whole_minutes_witness :
  formatDuration (of_int (Z.of_nat 125)) = "02:05".
Proof.
  exact (formatDuration_whole_minutes 125 ltac:(lia)).
Defined.

Lemma earlier_startNavigation_route_witness :
  EarlierScreen.route (EarlierScreen.state (EarlierScreen.startNavigation earlierWorld))
  = EarlierScreen.route (EarlierScreen.state earlierWorld).
Proof.
  refine (proj1 (proj2 (proj2 (earlier_startNavigation_route earlierWorld
                                 (13.4, 52.5) (13.41, 52.52) _ _ _))));
    reflexivity.
Defined.

Lemma stop_brings_the_route_back_witness :
  exists (here there : Coord) (w2 : World) (cap : State),
    currentLocation (state (world_after (navigationStarted ++ [PressStop])))
    = Some here
    /\ destination (state (world_after (navigationStarted ++ [PressStop])))
       = Some there
    /\ route (state (world_after (navigationStarted ++ [PressStop]))) = None
    /\ step sin' cos' atan2' EffectFetchRoute
            (world_after (navigationStarted ++ [PressStop])) = Some w2
    /\ inflight w2
       = (inflight (world_after (navigationStarted ++ [PressStop]))
          ++ [KRoute cap here there])%list
    /\ isNavigating cap = false
    /\ forall (rd : RouteData) (rest : list RouteData) (leg : Leg)
              (others : list Leg) (v : World),
         legs rd = leg :: others ->
         isMounted (refs v) = true ->
         cameraRef (refs v) = true ->
         camera (exec (fetchRoute_resume cap here there
                         (Body (mkDirections (Some (rd :: rest))))) v)
         = FitBounds
             (Math_min (fst here) (fst there), Math_min (snd here) (snd there))
             (Math_max (fst here) (fst there), Math_max (snd here) (snd there))
             120 1000
           :: camera v.
Proof.
  apply (stop_brings_the_route_back sin' cos' atan2'
           (world_after navigationStarted)).
  - apply (world_after_reachable navigationStarted). vm_compute. reflexivity.
  - vm_compute. reflexivity.
  - vm_compute. reflexivity.
Defined.
